(** * The [workspaces foreach] command: candidate selection and scheduler

    A shallow embedding of the command's [action] (candidate selection,
    the round loop over the pending map, the task runner with its two
    output streams) and the properties of it that the specification
    states. *)

From stdpp Require Import base option list strings pretty gmap.
From Stdlib Require Import ZArith QArith Qminmax.

Local Open Scope string_scope.
Local Open Scope Z_scope.
Local Open Scope nat_scope.

(** ** Data model *)

Definition PortablePath := string.
Definition LocatorHash := string.
Definition DescriptorHash := string.
Definition IdentHash := string.

(** A dependency descriptor is opaque to the command: it is only handed
    to the project's resolver. *)
Definition Descriptor := string.

(** The fields of a [Workspace] that the command reads. [manifest_scripts]
    holds the keys of the manifest's script map; the two dependency maps
    are kept as their entry lists, in iteration order. *)
Record Workspace := mkWorkspace {
  cwd : PortablePath;
  locator_name : string;
  anchoredLocator_locatorHash : LocatorHash;
  anchoredDescriptor_descriptorHash : DescriptorHash;
  workspacesCwds : list PortablePath;
  manifest_scripts : gset string;
  manifest_dependencies : list (IdentHash * Descriptor);
  manifest_devDependencies : list (IdentHash * Descriptor)
}.

(** The project: the workspaces by directory, the top-level workspace and
    the resolver from a descriptor to the workspaces that satisfy it. *)
Record Project := mkProject {
  workspacesByCwd : gmap PortablePath Workspace;
  topLevelWorkspace : Workspace;
  findWorkspacesByDescriptor : Descriptor → list Workspace
}.

Record ForeachOptions := mkOptions {
  command : string;
  rest : list string;
  options_cwd : PortablePath;
  exclude : list string;
  include : list string;
  all : bool;
  interlaced : bool;
  jobs : option nat;
  parallel : bool;
  topologicalDev : bool;
  topological : bool;
  verbose : bool
}.

(** What the executor ([clipanion.run]) does for one task: whether it
    wrote to either stream, and whether it returned (an exit code, or
    nothing at all) or raised. The executors considered are those that
    settle: a command that never ends is not a value of this type, and
    what is proved of a run is proved of the runs whose commands end. *)
Inductive ExecResult :=
| Exited (code : option Z)
| Raised (err : string).

Record ExecOutcome := mkOutcome {
  wrote_stdout : bool;
  wrote_stderr : bool;
  exec_result : ExecResult
}.

Inductive Error :=
| WorkspaceRequiredError (dir : PortablePath)
| UsageError (msg : string)
| TypeError
| ExecutorError (err : string).

Inductive MessageName := CYCLIC_DEPENDENCIES | UNNAMED.

(** Modelled from the spec: the Report Sink ([StreamReport] of the core
    package, not part of these sources). It accumulates error and info
    messages, tracks whether any error occurred, and yields the exit
    code, non-zero when an error was reported. [report_infos] holds the
    messages that the command itself hands to [reportInfo]; what the
    report's stream writers make of the output of the tasks is not
    kept. *)
Record Report := mkReport {
  report_errors : list (MessageName * string);
  report_infos : list string
}.

Definition hasErrors (r : Report) : bool :=
  match report_errors r with [] => false | _ => true end.

Definition exitCode (r : Report) : Z :=
  if hasErrors r then 1%Z else 0%Z.

Inductive Sink := Stdout | Stderr.

(** What a run does that can be observed from outside, in order. *)
Inductive Event :=
| Separator
| CreateStream (commandIndex : nat) (s : Sink) (prefix : option string) (direct : bool)
| Spawn (commandIndex : nat) (w : Workspace)
| End (commandIndex : nat) (s : Sink)
| AwaitEnd (commandIndex : nat) (s : Sink).

(** The collaborators the command calls and the values it reads from its
    surroundings: the result of [Project.find] and of [clipanion.parse],
    the [npm_lifecycle_event] variable, the locator and ident printers,
    the prefix formatter, the executor and [cpus().length]. The executor
    is a function of the command index and of the workspace.

    Which of the tasks in flight moves next (its executor settles, or
    one of its streams finishes) is not decided by the command:
    [settles] picks one, by its position among the tasks in flight,
    from what has happened so far. *)
Record Env := mkEnv {
  project : Project;
  cwdWorkspace : option Workspace;
  commandPath : list string;
  parsedArgs : list string;
  npm_lifecycle_event : option string;
  prettyLocator : Workspace → string;
  stringifyIdent : Workspace → string;
  format : string → string → string;
  clipanion_run : nat → Workspace → ExecOutcome;
  cpus : nat;
  settles : list Event → nat
}.

(** ** Descendants of a workspace *)

Section Children.
Variable p : Project.

(** The [for] loop of [getWorkspaceChildrenRecursive], given the
    function for the recursive call. *)
Fixpoint children_loop (rec : Workspace → option (list Workspace))
    (cwds : list PortablePath) : option (list Workspace) :=
  match cwds with
  | [] => Some []
  | childWorkspaceCwd :: cwds' =>
      match workspacesByCwd p !! childWorkspaceCwd with
      | Some childWorkspace =>
          sub ← rec childWorkspace;
          later ← children_loop rec cwds';
          Some (childWorkspace :: sub ++ later)
      | None => children_loop rec cwds'
      end
  end.

(** The recursion of the source is not structural (it follows
    directory names through the project's map), so it takes fuel;
    [None] is a walk that did not finish within it. *)
Fixpoint getWorkspaceChildrenRecursive (fuel : nat) (rootWorkspace : Workspace)
    : option (list Workspace) :=
  match fuel with
  | O => None
  | S fuel' =>
      children_loop (getWorkspaceChildrenRecursive fuel') (workspacesCwds rootWorkspace)
  end.

(** The walk as the specification words it: root-first, depth-first,
    every declared child directory in order, a directory that is not a
    workspace skipped, nothing deduplicated. *)
Inductive Descendants : list PortablePath → list Workspace → Prop :=
| Desc_nil : Descendants [] []
| Desc_skip c cs l :
    workspacesByCwd p !! c = None →
    Descendants cs l →
    Descendants (c :: cs) l
| Desc_child c cs w below later :
    workspacesByCwd p !! c = Some w →
    Descendants (workspacesCwds w) below →
    Descendants cs later →
    Descendants (c :: cs) (w :: below ++ later).
End Children.

(** ** Outcomes and the state of a run *)

Inductive Outcome (A : Type) :=
| Returns (a : A)
| Throws (e : Error)
| OutOfFuel.
Arguments Returns {A} a.
Arguments Throws {A} e.
Arguments OutOfFuel {A}.

(** [needsProcessing] is a JavaScript [Map]: its entries are kept in
    insertion order, which is the order its iteration follows. *)
Record State := mkState {
  needsProcessing : list (LocatorHash * Workspace);
  processing : gset DescriptorHash;
  commandCount : nat;
  report : Report;
  events : list Event
}.

Definition initial : State := mkState [] ∅ 0 (mkReport [] []) [].

(** [Map.prototype.has], [set] and [delete] on the entry list. [set] on a
    key that is present replaces the value where it stands. *)
Definition map_has (k : LocatorHash) (m : list (LocatorHash * Workspace)) : bool :=
  bool_decide (k ∈ m.*1).

Fixpoint map_set (k : LocatorHash) (v : Workspace) (m : list (LocatorHash * Workspace))
    : list (LocatorHash * Workspace) :=
  match m with
  | [] => [(k, v)]
  | (k', v') :: m' =>
      if decide (k = k') then (k, v) :: m' else (k', v') :: map_set k v m'
  end.

Definition map_delete (k : LocatorHash) (m : list (LocatorHash * Workspace))
    : list (LocatorHash * Workspace) :=
  filter (λ kv, kv.1 ≠ k) m.

(** Computations that read and write the state of the run and may throw;
    the state survives a throw. *)
Definition M (A : Type) : Type := State → Outcome A * State.

Definition ret {A} (a : A) : M A := λ st, (Returns a, st).

Definition bind {A B} (m : M A) (k : A → M B) : M B := λ st,
  match m st with
  | (Returns a, st') => k a st'
  | (Throws e, st') => (Throws e, st')
  | (OutOfFuel, st') => (OutOfFuel, st')
  end.

Definition throw {A} (e : Error) : M A := λ st, (Throws e, st).

Definition try_catch {A} (body : M A) (handler : Error → M A) : M A := λ st,
  match body st with
  | (Throws e, st') => handler e st'
  | r => r
  end.

Definition get : M State := λ st, (Returns st, st).

Definition modify (f : State → State) : M unit := λ st, (Returns (), f st).

Declare Scope run_scope.
Delimit Scope run_scope with run.
Notation "x <- m ;; k" := (bind m (λ x, k))
  (at level 100, m at next level, right associativity) : run_scope.
Notation "m ;;; k" := (bind m (λ _, k))
  (at level 100, right associativity) : run_scope.
Local Open Scope run_scope.

Definition emit (ev : Event) : M unit :=
  modify (λ st, mkState (needsProcessing st) (processing st) (commandCount st)
                        (report st) (events st ++ [ev])).

Definition reportError (name : MessageName) (text : string) : M unit :=
  modify (λ st, mkState (needsProcessing st) (processing st) (commandCount st)
                        (mkReport (report_errors (report st) ++ [(name, text)])
                                  (report_infos (report st)))
                        (events st)).

Definition reportInfo (text : string) : M unit :=
  modify (λ st, mkState (needsProcessing st) (processing st) (commandCount st)
                        (mkReport (report_errors (report st))
                                  (report_infos (report st) ++ [text]))
                        (events st)).

Definition set_needsProcessing (m : list (LocatorHash * Workspace)) : M unit :=
  modify (λ st, mkState m (processing st) (commandCount st) (report st) (events st)).

Definition set_processing (s : gset DescriptorHash) : M unit :=
  modify (λ st, mkState (needsProcessing st) s (commandCount st) (report st) (events st)).

(** [++commandCount] *)
Definition next_commandIndex : M nat := λ st,
  (Returns (S (commandCount st)),
   mkState (needsProcessing st) (processing st) (S (commandCount st)) (report st) (events st)).

(** ** The limit of the gate *)

(** [parallel ? Math.max(1, cpus().length / 2) : 1]. Halving a whole
    number is exact in the arithmetic of the source, so the value is a
    rational. *)
Definition concurrency (o : ForeachOptions) (cpus : nat) : Q :=
  if parallel o then Qmax 1 (inject_Z (Z.of_nat cpus) / 2) else 1%Q.

(** [jobs || concurrency], the argument of [pLimit]. *)
Definition limit (o : ForeachOptions) (cpus : nat) : Q :=
  match jobs o with
  | Some (S j) => inject_Z (Z.of_nat (S j))
  | _ => concurrency o cpus
  end.

(** ** Tasks in flight *)

(** The three points at which [runCommand] waits. *)
Inductive Await :=
| AwaitRun
| AwaitStdoutEnd
| AwaitStderrEnd (emptyStdout : bool).

(** A promise of [commandPromises]: its task waits at the gate, is in
    flight and waits at one of the three points, or has settled. *)
Inductive Promise :=
| Queued
| InFlight (commandIndex : nat) (at_ : Await)
| Fulfilled (commandIndex : nat) (exitCode : Z)
| Rejected (commandIndex : nat) (err : Error).

Definition is_in_flight (p : Promise) : bool :=
  match p with InFlight _ _ => true | _ => false end.

Definition is_settled (p : Promise) : bool :=
  match p with Fulfilled _ _ | Rejected _ _ => true | _ => false end.

(** The entries of [commandPromises], in the order of the scan. *)
Abbreviation Entry := (LocatorHash * Workspace * Promise)%type.

Fixpoint in_flight (promises : list Entry) : nat :=
  match promises with
  | [] => 0
  | (_, _, p) :: promises' =>
      (if is_in_flight p then 1 else 0) + in_flight promises'
  end.

(** [Promise.all] rejects with the error of the promise that is
    rejected first; [rejected] is asked while at most one is. *)
Fixpoint rejected (promises : list Entry) : option Error :=
  match promises with
  | [] => None
  | (_, _, Rejected _ err) :: _ => Some err
  | _ :: promises' => rejected promises'
  end.

(** The array that [Promise.all] resolves to, in the order of the
    promises. *)
Definition exitCodes (promises : list Entry) : list Z :=
  omap (λ en : Entry, match en.2 with Fulfilled _ exitCode => Some exitCode | _ => None end)
       promises.

(** ** The command *)

Section Foreach.
Variable o : ForeachOptions.
Variable e : Env.

(** [commandPath.length === 1 && commandPath[0] === `run` &&
    parsedEnv.args.length > 0 ? parsedEnv.args[0] : null] *)
Definition scriptName : option string :=
  match commandPath e with
  | [c] => if decide (c = "run") then head (parsedArgs e) else None
  | _ => None
  end.

(** A script name counts in a condition when it is neither [null] nor
    the empty string. *)
Definition truthy (s : option string) : bool :=
  match s with
  | Some s => negb (bool_decide (s = ""))
  | None => false
  end.

(** [scriptName || command] *)
Definition requested : string :=
  match scriptName with
  | Some s => if truthy (Some s) then s else command o
  | None => command o
  end.

(** [cwdWorkspace!.cwd]: reading the directory of an absent workspace
    is a [TypeError]. *)
Definition cwdWorkspace_cwd : Outcome PortablePath :=
  match cwdWorkspace e with
  | Some cw => Returns (cwd cw)
  | None => Throws TypeError
  end.

(** The self-recursion guard of the selection loop; [&&] evaluates its
    right operand only when the left one holds. *)
Definition guard (workspace : Workspace) : Outcome bool :=
  if bool_decide (npm_lifecycle_event e = Some requested) then
    match cwdWorkspace_cwd with
    | Returns dir => Returns (bool_decide (cwd workspace = dir))
    | Throws err => Throws err
    | OutOfFuel => OutOfFuel
    end
  else Returns false.

(** The loop over [candidates]; [workspaces] is the list built so far. *)
Fixpoint select_loop (candidates workspaces : list Workspace)
    : Outcome (list Workspace) :=
  match candidates with
  | [] => Returns workspaces
  | workspace :: candidates' =>
      if truthy scriptName &&
         negb (bool_decide (default "" scriptName ∈ manifest_scripts workspace))
      then select_loop candidates' workspaces
      else
        match guard workspace with
        | Throws err => Throws err
        | OutOfFuel => OutOfFuel
        | Returns true => select_loop candidates' workspaces
        | Returns false =>
            if bool_decide (0 < length (include o)) &&
               negb (bool_decide (locator_name workspace ∈ include o))
            then select_loop candidates' workspaces
            else if bool_decide (0 < length (exclude o)) &&
                    bool_decide (locator_name workspace ∈ exclude o)
            then select_loop candidates' workspaces
            else select_loop candidates' (workspaces ++ [workspace])
        end
  end.

(** [all ? project.topLevelWorkspace : cwdWorkspace!]; the caller has
    checked that [cwdWorkspace] is present when [all] is off. *)
Definition rootWorkspace : Workspace :=
  if all o then topLevelWorkspace (project e)
  else default (topLevelWorkspace (project e)) (cwdWorkspace e).

(** Lines 117 to 137: the candidates and the loop over them. *)
Definition selectWorkspaces (fuel : nat) : Outcome (list Workspace) :=
  match getWorkspaceChildrenRecursive (project e) fuel rootWorkspace with
  | None => OutOfFuel
  | Some descendants => select_loop (rootWorkspace :: descendants) []
  end.

(** The selection as the specification words it: one filter for each
    of (a) to (d). *)
Definition declares_script (w : Workspace) : bool :=
  match scriptName with
  | Some s => if truthy (Some s) then bool_decide (s ∈ manifest_scripts w) else true
  | None => true
  end.

Definition is_originating (w : Workspace) : bool :=
  match cwdWorkspace e with
  | Some cw =>
      bool_decide (npm_lifecycle_event e = Some requested) &&
      bool_decide (cwd w = cwd cw)
  | None => false
  end.

Definition included (w : Workspace) : bool :=
  match include o with
  | [] => true
  | _ => bool_decide (locator_name w ∈ include o)
  end.

Definition not_excluded (w : Workspace) : bool :=
  match exclude o with
  | [] => true
  | _ => negb (bool_decide (locator_name w ∈ exclude o))
  end.

Definition selected_spec (candidates : list Workspace) : list Workspace :=
  filter (λ w, not_excluded w = true)
    (filter (λ w, included w = true)
      (filter (λ w, is_originating w = false)
        (filter (λ w, declares_script w = true) candidates))).

(** ** The scheduler *)

(** [if (!parallel) interlaced = true] *)
Definition interlaced' : bool :=
  if negb (parallel o) then true else interlaced o.

Definition colors : list string :=
  ["#2E86AB"; "#A23B72"; "#F18F01"; "#C73E1D"; "#CCE2A3"].

Definition getPrefix (workspace : Workspace) (commandIndex : nat) : option string :=
  if negb (verbose o) then None
  else
    let name := stringifyIdent e workspace in
    let prefix := "[" +:+ name +:+ "]:" in
    let colorName := default "" (colors !! (commandIndex mod length colors)) in
    Some (format e prefix colorName).

(** [await clipanion.run(...)]: the executor starts, and either returns
    (an exit code or nothing) or raises. *)
Definition run_executor (workspace : Workspace) (commandIndex : nat) : M (option Z) :=
  emit (Spawn commandIndex workspace) ;;;
  match exec_result (clipanion_run e commandIndex workspace) with
  | Exited code => ret code
  | Raised err => throw (ExecutorError err)
  end.

(** [... || 0] on what the executor returned. *)
Definition or_zero (code : option Z) : Z := default 0%Z code.

(** [await stdoutEnd], [await stderrEnd]: the stream has finished; the
    value tells whether nothing was written to it. *)
Definition await_end (workspace : Workspace) (commandIndex : nat) (s : Sink) : M bool :=
  emit (AwaitEnd commandIndex s) ;;;
  let out := clipanion_run e commandIndex workspace in
  ret (negb match s with Stdout => wrote_stdout out | Stderr => wrote_stderr out end).

Definition prefix_text (prefix : option string) : string := default "null" prefix.

Definition runCommand (workspace : Workspace) (commandIndex : nat) : M Z :=
  (if negb (parallel o) && verbose o && bool_decide (1 < commandIndex)
   then emit Separator else ret ()) ;;;
  let prefix := getPrefix workspace commandIndex in
  emit (CreateStream commandIndex Stdout prefix interlaced') ;;;
  emit (CreateStream commandIndex Stderr prefix interlaced') ;;;
  try_catch
    (code <- run_executor workspace commandIndex ;;
     let exitCode := or_zero code in
     emit (End commandIndex Stdout) ;;;
     emit (End commandIndex Stderr) ;;;
     emptyStdout <- await_end workspace commandIndex Stdout ;;
     emptyStderr <- await_end workspace commandIndex Stderr ;;
     (if verbose o && emptyStdout && emptyStderr
      then reportInfo (prefix_text prefix +:+ " Process exited without output (exit code "
                         +:+ pretty exitCode +:+ ")")
      else ret ()) ;;;
     ret exitCode)
    (λ err,
       emit (End commandIndex Stdout) ;;;
       emit (End commandIndex Stderr) ;;;
       await_end workspace commandIndex Stdout ;;;
       await_end workspace commandIndex Stderr ;;;
       throw err).

(** The dependency entries that topological ordering looks at. *)
Definition resolvedSet (workspace : Workspace) : list (IdentHash * Descriptor) :=
  if topologicalDev o
  then manifest_dependencies workspace ++ manifest_devDependencies workspace
  else manifest_dependencies workspace.

(** The loop over [resolvedSet], with its [break]. *)
Fixpoint deps_loop (needs : list (LocatorHash * Workspace))
    (resolved : list (IdentHash * Descriptor)) (isRunnable : bool) : bool :=
  match resolved with
  | [] => isRunnable
  | (_, descriptor) :: resolved' =>
      let workspaces := findWorkspacesByDescriptor (project e) descriptor in
      let isRunnable :=
        negb (existsb (λ workspace, map_has (anchoredLocator_locatorHash workspace) needs)
                      workspaces) in
      if negb isRunnable then isRunnable else deps_loop needs resolved' isRunnable
  end.

Definition isRunnable (needs : list (LocatorHash * Workspace)) (workspace : Workspace) : bool :=
  if topological o || topologicalDev o
  then deps_loop needs (resolvedSet workspace) true
  else true.

(** One scan of the pending map (lines 161 to 207): the entries handed
    to the gate, in order, and the processing set afterwards. The map
    itself does not change during a scan. *)
Fixpoint scan (needs entries : list (LocatorHash * Workspace))
    (proc : gset DescriptorHash)
    : list (LocatorHash * Workspace) * gset DescriptorHash :=
  match entries with
  | [] => ([], proc)
  | (identHash, workspace) :: entries' =>
      if bool_decide (anchoredDescriptor_descriptorHash workspace ∈ proc)
      then scan needs entries' proc
      else if negb (isRunnable needs workspace)
      then scan needs entries' proc
      else
        let proc' := proc ∪ {[anchoredDescriptor_descriptorHash workspace]} in
        if negb (parallel o) then ([(identHash, workspace)], proc')
        else
          let '(commandPromises, proc'') := scan needs entries' proc' in
          ((identHash, workspace) :: commandPromises, proc'')
  end.

(** The body of a task handed to the gate (lines 191 to 200). *)
Definition task (identHash : LocatorHash) (workspace : Workspace) : M Z :=
  commandIndex <- next_commandIndex ;;
  exitCode <- runCommand workspace commandIndex ;;
  st <- get ;;
  set_needsProcessing (map_delete identHash (needsProcessing st)) ;;;
  st <- get ;;
  set_processing (processing st ∖ {[anchoredDescriptor_descriptorHash workspace]}) ;;;
  ret exitCode.

(** [task] and [runCommand] above are a task run without interruption.
    The tasks of a round overlap: each is started when the gate admits
    it, waits three times, and goes on when what it waits for has
    happened. [begin] and [resume] are the same code, cut at the three
    points. *)

(** Modelled from the spec: the gate ([pLimit], not part of these
    sources) admits a task only while the tasks in flight, the new one
    included, stay within the limit it was created with. It is created
    once, on line 147, and every task of every round goes through it. *)
Definition admits (active : nat) : bool :=
  Qle_bool (inject_Z (Z.of_nat (S active))) (limit o (cpus e)).

(** A task that the gate admits starts at once: [++commandCount], then
    [runCommand] up to the call of the executor (lines 225 to 234). *)
Definition begin (workspace : Workspace) : M nat :=
  commandIndex <- next_commandIndex ;;
  (if negb (parallel o) && verbose o && bool_decide (1 < commandIndex)
   then emit Separator else ret ()) ;;;
  let prefix := getPrefix workspace commandIndex in
  emit (CreateStream commandIndex Stdout prefix interlaced') ;;;
  emit (CreateStream commandIndex Stderr prefix interlaced') ;;;
  emit (Spawn commandIndex workspace) ;;;
  ret commandIndex.

(** A task in flight goes on from the point where it waits to the next
    one or to its end. After the executor has settled, whether it
    returned or raised, both streams are ended (lines 241 and 242, 252
    and 253) and awaited one after the other; then the task either
    reports that there was no output, returns to lines 196 and 197 and
    is fulfilled, or throws what the executor raised and is rejected. *)
Definition resume (identHash : LocatorHash) (workspace : Workspace)
    (commandIndex : nat) (at_ : Await) : M Promise :=
  match at_ with
  | AwaitRun =>
      emit (End commandIndex Stdout) ;;;
      emit (End commandIndex Stderr) ;;;
      ret (InFlight commandIndex AwaitStdoutEnd)
  | AwaitStdoutEnd =>
      emptyStdout <- await_end workspace commandIndex Stdout ;;
      ret (InFlight commandIndex (AwaitStderrEnd emptyStdout))
  | AwaitStderrEnd emptyStdout =>
      emptyStderr <- await_end workspace commandIndex Stderr ;;
      match exec_result (clipanion_run e commandIndex workspace) with
      | Exited code =>
          let exitCode := or_zero code in
          (if verbose o && emptyStdout && emptyStderr
           then reportInfo (prefix_text (getPrefix workspace commandIndex)
                              +:+ " Process exited without output (exit code "
                              +:+ pretty exitCode +:+ ")")
           else ret ()) ;;;
          st <- get ;;
          set_needsProcessing (map_delete identHash (needsProcessing st)) ;;;
          st <- get ;;
          set_processing (processing st ∖ {[anchoredDescriptor_descriptorHash workspace]}) ;;;
          ret (Fulfilled commandIndex exitCode)
      | Raised err => ret (Rejected commandIndex (ExecutorError err))
      end
  end.

(** The gate admits the tasks that wait, first come first served, while
    it has room; [active] is the number of tasks in flight. *)
Fixpoint dequeue (active : nat) (promises : list Entry) : M (list Entry) :=
  match promises with
  | [] => ret []
  | (identHash, workspace, Queued) :: promises' =>
      if admits active then
        commandIndex <- begin workspace ;;
        promises'' <- dequeue (S active) promises' ;;
        ret ((identHash, workspace, InFlight commandIndex AwaitRun) :: promises'')
      else ret promises
  | entry :: promises' =>
      promises'' <- dequeue active promises' ;;
      ret (entry :: promises'')
  end.

(** The task in flight at position [n] among those in flight goes on. *)
Fixpoint resume_nth (n : nat) (promises : list Entry) : M (list Entry) :=
  match promises with
  | [] => ret []
  | (identHash, workspace, InFlight commandIndex at_) :: promises' =>
      match n with
      | O =>
          promise <- resume identHash workspace commandIndex at_ ;;
          ret ((identHash, workspace, promise) :: promises')
      | S n' =>
          promises'' <- resume_nth n' promises' ;;
          ret ((identHash, workspace, InFlight commandIndex at_) :: promises'')
      end
  | entry :: promises' =>
      promises'' <- resume_nth n promises' ;;
      ret (entry :: promises'')
  end.

(** Until every promise has settled: one task in flight goes on, and
    the gate admits what it then has room for. [rejection] is the error
    of the first promise that was rejected; the tasks that are still in
    flight or waiting at the gate go on all the same. A gate that admits
    nothing while tasks wait never lets the round end. *)
Fixpoint settle (fuel : nat) (promises : list Entry) (rejection : option Error)
    : M (list Z) :=
  if forallb (λ entry : Entry, is_settled entry.2) promises then
    match rejection with
    | Some err => throw err
    | None => ret (exitCodes promises)
    end
  else
    match fuel with
    | O => λ st, (OutOfFuel, st)
    | S fuel' =>
        st <- get ;;
        promises <- resume_nth (settles e (events st) mod in_flight promises) promises ;;
        promises <- dequeue (in_flight promises) promises ;;
        settle fuel' promises
               (match rejection with Some _ => rejection | None => rejected promises end)
    end.

(** [await Promise.all(commandPromises)], the promises being those of
    the tasks that the scan handed to the gate. A task takes three
    steps from its start to its end. *)
Definition awaitAll (commandPromises : list (LocatorHash * Workspace)) : M (list Z) :=
  promises <- dequeue 0 (map (λ kw, (kw.1, kw.2, Queued)) commandPromises) ;;
  settle (3 * length commandPromises) promises None.

Definition cycle_message (needs : list (LocatorHash * Workspace)) : string :=
  "Dependency cycle detected (" +:+
    String.concat ", " (map (prettyLocator e) needs.*2) +:+ ")".

Definition propagation_message : string :=
  "The command failed for workspaces that are depended upon by other workspaces; can't satisfy the dependency graph".

(** [exitCodes.some(exitCode => exitCode !== 0)] *)
Definition any_nonzero (exitCodes : list Z) : bool :=
  existsb (λ exitCode, negb (exitCode =? 0)%Z) exitCodes.

(** One turn of the [while] loop after its two tests: [true] when the
    loop goes on, [false] when the callback returns. *)
Definition round : M bool :=
  st <- get ;;
  let '(commandPromises, proc) := scan (needsProcessing st) (needsProcessing st) (processing st) in
  set_processing proc ;;;
  match commandPromises with
  | [] =>
      reportError CYCLIC_DEPENDENCIES (cycle_message (needsProcessing st)) ;;;
      ret false
  | _ =>
      exitCodes <- awaitAll commandPromises ;;
      (if (topological o || topologicalDev o) && any_nonzero exitCodes
       then reportError UNNAMED propagation_message
       else ret ()) ;;;
      ret true
  end.

Fixpoint rounds (fuel : nat) : M unit := λ st,
  match needsProcessing st with
  | [] => (Returns (), st)
  | _ =>
      if hasErrors (report st) then (Returns (), st)
      else
        match fuel with
        | O => (OutOfFuel, st)
        | S fuel' =>
            (again <- round ;;
             if again : bool then rounds fuel' else ret ()) st
        end
  end.

(** Lines 152 and 153: the pending map is filled from the selection. *)
Definition seed (workspaces : list Workspace) (needs : list (LocatorHash * Workspace))
    : list (LocatorHash * Workspace) :=
  foldl (λ m workspace, map_set (anchoredLocator_locatorHash workspace) workspace m)
        needs workspaces.

(** The callback given to [StreamReport.start]. Every round that goes
    on removes an entry, so the size of the map bounds their number. *)
Definition schedule (workspaces : list Workspace) : M unit :=
  st <- get ;;
  set_needsProcessing (seed workspaces (needsProcessing st)) ;;;
  st <- get ;;
  rounds (length (needsProcessing st)).

(** Modelled from the spec: [StreamReport.start], which is not part of
    these sources, runs the callback on a fresh report; an exception
    raised inside the callback propagates. *)
Definition StreamReport_start (callback : M unit) : M unit := callback.

Definition invalid_subcommand : string :=
  "Invalid subcommand name for iteration - use the 'run' keyword if you wish to execute a script".

Definition action (fuel : nat) : M Z :=
  if negb (all o) && negb (bool_decide (is_Some (cwdWorkspace e)))
  then throw (WorkspaceRequiredError (options_cwd o))
  else
    match commandPath e with
    | [] => throw (UsageError invalid_subcommand)
    | _ =>
        match selectWorkspaces fuel with
        | OutOfFuel => λ st, (OutOfFuel, st)
        | Throws err => throw err
        | Returns workspaces =>
            StreamReport_start (schedule workspaces) ;;;
            st <- get ;;
            ret (exitCode (report st))
        end
    end.
End Foreach.

(** ** Reading a trace *)

(** The tasks started, with their command indices, in order. *)
Definition spawns (evs : list Event) : list (nat * Workspace) :=
  omap (λ ev, match ev with Spawn i w => Some (i, w) | _ => None end) evs.

(** The four events that close the two streams of a task. *)
Definition closing (i : nat) : list Event :=
  [End i Stdout; End i Stderr; AwaitEnd i Stdout; AwaitEnd i Stderr].

(** A trace in which every task started is at once followed by the end
    of both its streams and the wait for both to finish. *)
Inductive Closed : list Event → Prop :=
| Closed_nil : Closed []
| Closed_other ev evs :
    (∀ i w, ev ≠ Spawn i w) → Closed evs → Closed (ev :: evs)
| Closed_task i w evs :
    Closed evs → Closed (Spawn i w :: closing i ++ evs).

(** The exit code a started task hands to the scheduler; a task whose
    executor raises hands none. *)
Definition exit_of (e : Env) (s : nat * Workspace) : Z :=
  match exec_result (clipanion_run e s.1 s.2) with
  | Exited code => or_zero code
  | Raised _ => 0%Z
  end.

(** The executor returned for this task: it did not raise. *)
Definition returned (e : Env) (s : nat * Workspace) : Prop :=
  ∃ code, exec_result (clipanion_run e s.1 s.2) = Exited code.

Definition topological_mode (o : ForeachOptions) : bool :=
  topological o || topologicalDev o.

(** Some task that was started returned a non-zero exit code. *)
Definition task_failed (e : Env) (st : State) : Prop :=
  ∃ s, s ∈ spawns (events st) ∧ exit_of e s ≠ 0%Z.

Definition reported (name : MessageName) (st : State) : Prop :=
  ∃ text, (name, text) ∈ report_errors (report st).

(** [part] occurs in [text]. *)
Definition mentions (text part : string) : Prop :=
  ∃ before after, text = before +:+ part +:+ after.

(** A task may be handed to the gate in this scan: it is not being
    processed and no workspace it waits for is pending. *)
Definition eligible (o : ForeachOptions) (e : Env)
    (needs : list (LocatorHash * Workspace)) (proc : gset DescriptorHash)
    (kw : LocatorHash * Workspace) : Prop :=
  (anchoredDescriptor_descriptorHash kw.2 ∉ proc) ∧ isRunnable o e needs kw.2 = true.

(** Everything one task adds to the trace, and what it yields. *)
Definition task_events (o : ForeachOptions) (e : Env) (w : Workspace) (i : nat)
    : list Event :=
  (if negb (parallel o) && verbose o && bool_decide (1 < i) then [Separator] else []) ++
  [CreateStream i Stdout (getPrefix o e w i) (interlaced' o);
   CreateStream i Stderr (getPrefix o e w i) (interlaced' o)] ++
  Spawn i w :: closing i.

Definition task_outcome (e : Env) (w : Workspace) (i : nat) : Outcome Z :=
  match exec_result (clipanion_run e i w) with
  | Exited code => Returns (or_zero code)
  | Raised err => Throws (ExecutorError err)
  end.

Definition with_report (st : State) (infos : list string) (evs : list Event) : State :=
  mkState (needsProcessing st) (processing st) (commandCount st)
          (mkReport (report_errors (report st)) infos) (events st ++ evs).

(** The events of a task up to the call of the executor. *)
Definition begin_events (o : ForeachOptions) (e : Env) (w : Workspace) (i : nat)
    : list Event :=
  (if negb (parallel o) && verbose o && bool_decide (1 < i) then [Separator] else []) ++
  [CreateStream i Stdout (getPrefix o e w i) (interlaced' o);
   CreateStream i Stderr (getPrefix o e w i) (interlaced' o);
   Spawn i w].

(** What the task of a promise has added to the trace so far. *)
Definition promise_events (o : ForeachOptions) (e : Env) (entry : Entry) : list Event :=
  let w := entry.1.2 in
  match entry.2 with
  | Queued => []
  | InFlight i AwaitRun => begin_events o e w i
  | InFlight i AwaitStdoutEnd => begin_events o e w i ++ [End i Stdout; End i Stderr]
  | InFlight i (AwaitStderrEnd _) =>
      begin_events o e w i ++ [End i Stdout; End i Stderr; AwaitEnd i Stdout]
  | Fulfilled i _ | Rejected i _ => task_events o e w i
  end.

(** [evs] is made of the lists [ls], each in its own order, put
    together in any way. *)
Inductive Interleaving {A : Type} : list (list A) → list A → Prop :=
| Interleaving_nil ls : Forall (λ l, l = []) ls → Interleaving ls []
| Interleaving_snoc ls1 l ls2 x evs :
    Interleaving (ls1 ++ l :: ls2)%list evs →
    Interleaving (ls1 ++ (l ++ [x]) :: ls2)%list (evs ++ [x])%list.


(** The tasks that have come to their end: the wait for the second
    stream is the last thing a task does before it settles and leaves
    the gate. *)
Definition finishes (evs : list Event) : list nat :=
  omap (λ ev, match ev with AwaitEnd i Stderr => Some i | _ => None end) evs.

(** The number of tasks in flight after [evs]. *)
Definition load (evs : list Event) : nat :=
  length (spawns evs) - length (finishes evs).

(** At every point of [evs] no more tasks have ended than were
    started, and the tasks in flight are within the limit of the
    gate. *)
Definition Bounded (o : ForeachOptions) (e : Env) (evs : list Event) : Prop :=
  ∀ before after, evs = (before ++ after)%list →
    length (finishes before) ≤ length (spawns before) ∧
    (inject_Z (Z.of_nat (load before)) <= limit o (cpus e))%Q.

(** The tasks that the promises stand for, once started, with their
    command indices. *)
Definition started_tasks (promises : list Entry) : list (nat * Workspace) :=
  omap (λ en : Entry,
          match en.2 with
          | Queued => None
          | InFlight i _ | Fulfilled i _ | Rejected i _ => Some (i, en.1.2)
          end) promises.

(** The entries of the pending map and of the processing set that the
    fulfilled promises have removed. *)
Definition fulfilled (promises : list Entry) : list (LocatorHash * Workspace) :=
  omap (λ en : Entry, match en.2 with Fulfilled _ _ => Some en.1 | _ => None end) promises.

(** The invariant of the pending map and of the tasks started so far:
    keys are distinct and are the locator hash of their workspace, no
    workspace was started twice, and none that was started is pending. *)
Definition once (st : State) : Prop :=
  NoDup (needsProcessing st).*1 ∧
  (∀ k w, (k, w) ∈ needsProcessing st → k = anchoredLocator_locatorHash w) ∧
  NoDup (anchoredLocator_locatorHash <$> (spawns (events st)).*2) ∧
  (∀ s, s ∈ spawns (events st) →
        anchoredLocator_locatorHash s.2 ∉ (needsProcessing st).*1).


(** The value the action returns is the exit code of the report of the
    run. *)
Definition returns_report_exit_code (o : ForeachOptions) (e : Env) (fuel : nat) : Prop :=
  ∃ st', action o e fuel initial = (Returns (exitCode (report st')), st').

(** With the all flag, no current workspace and the requested name equal
    to the running script, the selection loop raises. *)
Definition absent_workspace_raises (o : ForeachOptions) (e : Env) : Prop :=
  all o = true → cwdWorkspace e = None →
  npm_lifecycle_event e = Some (requested o e) →
  ∃ fuel st', action o e fuel initial = (Throws TypeError, st').

(** The state that the round loop starts from. *)
Definition seeded (workspaces : list Workspace) : State :=
  mkState (seed workspaces []) ∅ 0 (mkReport [] []) [].

(** ** The trace of a run *)

(** The info line that a task leaves in the report, if any. *)
Definition task_infos (o : ForeachOptions) (e : Env) (w : Workspace) (i : nat)
    : list string :=
  match exec_result (clipanion_run e i w) with
  | Exited code =>
      if verbose o && negb (wrote_stdout (clipanion_run e i w))
                   && negb (wrote_stderr (clipanion_run e i w))
      then [prefix_text (getPrefix o e w i)
              +:+ " Process exited without output (exit code "
              +:+ pretty (or_zero code) +:+ ")"]
      else []
  | Raised _ => []
  end.

(** The tasks of a round with the command indices they are given:
    the gate admits them in the order of the scan. *)
Definition numbered (count : nat) (ds : list (LocatorHash * Workspace))
    : list (nat * Workspace) :=
  zip (seq (S count) (length ds)) ds.*2.

(** The entries of a round whose task is fulfilled: those whose
    executor returns. *)
Fixpoint returning (e : Env) (count : nat) (ds : list (LocatorHash * Workspace))
    : list (LocatorHash * Workspace) :=
  match ds with
  | [] => []
  | (k, w) :: ds' =>
      match exec_result (clipanion_run e (S count) w) with
      | Exited _ => (k, w) :: returning e (S count) ds'
      | Raised _ => returning e (S count) ds'
      end
  end.

Definition is_separator (ev : Event) : bool :=
  match ev with Separator => true | _ => false end.

(** The tasks of [l] were started in an order that respects the
    dependencies: each workspace that resolves a relevant descriptor of
    a task and whose locator hash is in [scope] was started before it. *)
Definition dependencies_first (o : ForeachOptions) (e : Env)
    (scope : list LocatorHash) (l : list (nat * Workspace)) : Prop :=
  ∀ l1 s l2, l = (l1 ++ s :: l2)%list →
    ∀ d w', d ∈ (resolvedSet o s.2).*2 →
            w' ∈ findWorkspacesByDescriptor (project e) d →
            anchoredLocator_locatorHash w' ∈ scope →
            anchoredLocator_locatorHash w' ∈ anchoredLocator_locatorHash <$> l1.*2.

(** The task was started, its executor returned, and it has come to
    its end. *)
Definition completed (e : Env) (evs : list Event) (s : nat * Workspace) : Prop :=
  s ∈ spawns evs ∧ AwaitEnd s.1 Stderr ∈ evs ∧ returned e s.

(** When a task is started, the task of each workspace that resolves a
    relevant descriptor of it and whose locator hash is in [scope] has
    completed. *)
Definition completed_first (o : ForeachOptions) (e : Env)
    (scope : list LocatorHash) (evs : list Event) : Prop :=
  ∀ before i w after, evs = (before ++ Spawn i w :: after)%list →
    ∀ d w', d ∈ (resolvedSet o w).*2 →
            w' ∈ findWorkspacesByDescriptor (project e) d →
            anchoredLocator_locatorHash w' ∈ scope →
            ∃ s, anchoredLocator_locatorHash s.2 = anchoredLocator_locatorHash w' ∧
                 completed e before s.

(** Every workspace of [scope] is pending or was started. *)
Definition covered (scope : list LocatorHash) (st : State) : Prop :=
  ∀ k, k ∈ scope →
       k ∈ (needsProcessing st).*1 ∨
       k ∈ anchoredLocator_locatorHash <$> (spawns (events st)).*2.

(** The workspace of a pending entry waits for a pending workspace. *)
Definition blocked (o : ForeachOptions) (e : Env)
    (needs : list (LocatorHash * Workspace)) (w : Workspace) : Prop :=
  ∃ d w', d ∈ (resolvedSet o w).*2 ∧
          w' ∈ findWorkspacesByDescriptor (project e) d ∧
          anchoredLocator_locatorHash w' ∈ needs.*1.

(** What a round that was awaited has added to the trace: its tasks
    were started in the order of the scan, with the command indices
    that follow [count]; the events of each task are in their own
    order, those of different tasks are put together in any way; every
    task started has ended, and the gate was never over its limit. *)
Definition settled_trace (o : ForeachOptions) (e : Env) (count : nat)
    (ds : list (LocatorHash * Workspace)) (evs : list Event) : Prop :=
  spawns evs = numbered count ds ∧
  Interleaving ((λ s, task_events o e s.2 s.1) <$> numbered count ds) evs ∧
  length (finishes evs) = length (spawns evs) ∧
  Bounded o e evs.


(** What holds of the trace and of the info messages between rounds:
    the tasks started carry the command indices 1, 2, 3 and so on, the
    trace is made of their events, all of them have ended, the gate was
    never over its limit, and the info messages are theirs. *)
Definition traced (o : ForeachOptions) (e : Env) (st : State) : Prop :=
  commandCount st = length (spawns (events st)) ∧
  (spawns (events st)).*1 = seq 1 (length (spawns (events st))) ∧
  Interleaving ((λ s, task_events o e s.2 s.1) <$> spawns (events st)) (events st) ∧
  length (finishes (events st)) = length (spawns (events st)) ∧
  Bounded o e (events st) ∧
  report_infos (report st) ≡ₚ
    flat_map (λ s, task_infos o e s.2 s.1) (spawns (events st)).

(** ** A round in progress *)

(** The promise that a task in flight becomes when it goes on. *)
Definition resumed (e : Env) (w : Workspace) (i : nat) (at_ : Await) : Promise :=
  match at_ with
  | AwaitRun => InFlight i AwaitStdoutEnd
  | AwaitStdoutEnd => InFlight i (AwaitStderrEnd (negb (wrote_stdout (clipanion_run e i w))))
  | AwaitStderrEnd _ =>
      match exec_result (clipanion_run e i w) with
      | Exited code => Fulfilled i (or_zero code)
      | Raised err => Rejected i (ExecutorError err)
      end
  end.

(** The events it adds to the trace in doing so. *)
Definition resumed_events (i : nat) (at_ : Await) : list Event :=
  match at_ with
  | AwaitRun => [End i Stdout; End i Stderr]
  | AwaitStdoutEnd => [AwaitEnd i Stdout]
  | AwaitStderrEnd _ => [AwaitEnd i Stderr]
  end.

(** The state of a round in progress, from the state [st0] in which
    the round began, the promises, and what the round has added to the
    trace and to the info messages. *)
Definition view (st0 : State) (promises : list Entry) (evs : list Event)
    (infos : list string) : State :=
  mkState (filter (λ kv, kv.1 ∉ (fulfilled promises).*1) (needsProcessing st0))
          (processing st0 ∖
             list_to_set (anchoredDescriptor_descriptorHash <$> (fulfilled promises).*2))
          (commandCount st0 + length (started_tasks promises))
          (mkReport (report_errors (report st0)) (report_infos (report st0) ++ infos))
          (events st0 ++ evs).

(** The promises of the tasks started come first and carry the command
    indices that follow [count], in order; the tasks of the others wait
    at the gate. *)
Fixpoint in_order (count : nat) (promises : list Entry) : Prop :=
  match promises with
  | [] => True
  | (_, _, Queued) :: promises' => Forall (λ en : Entry, en.2 = Queued) promises'
  | (_, _, InFlight i _) :: promises'
  | (_, _, Fulfilled i _) :: promises'
  | (_, _, Rejected i _) :: promises' => i = S count ∧ in_order (S count) promises'
  end.

(** What a promise holds agrees with what the executor did. *)
Definition sound (e : Env) (en : Entry) : Prop :=
  match en.2 with
  | Queued | InFlight _ AwaitRun | InFlight _ AwaitStdoutEnd => True
  | InFlight i (AwaitStderrEnd emptyStdout) =>
      emptyStdout = negb (wrote_stdout (clipanion_run e i en.1.2))
  | Fulfilled i exitCode =>
      ∃ code, exec_result (clipanion_run e i en.1.2) = Exited code ∧ exitCode = or_zero code
  | Rejected i err =>
      ∃ x, exec_result (clipanion_run e i en.1.2) = Raised x ∧ err = ExecutorError x
  end.

Definition promise_infos (o : ForeachOptions) (e : Env) (en : Entry) : list string :=
  match en.2 with
  | Fulfilled i _ => task_infos o e en.1.2 i
  | _ => []
  end.

(** What holds of a round in progress. *)
Record Good (o : ForeachOptions) (e : Env) (count : nat) (promises : list Entry)
    (evs : list Event) (infos : list string) : Prop := mkGood {
  good_order : in_order count promises;
  good_sound : Forall (sound e) promises;
  good_trace : Interleaving (promise_events o e <$> promises) evs;
  good_spawns : spawns evs = started_tasks promises;
  good_infos : infos ≡ₚ flat_map (promise_infos o e) promises;
  good_load : length (finishes evs) + in_flight promises = length (spawns evs);
  good_bound : Bounded o e evs
}.

(** The steps that the task of a promise has yet to take. *)
Definition remaining (p : Promise) : nat :=
  match p with
  | Queued | InFlight _ AwaitRun => 3
  | InFlight _ AwaitStdoutEnd => 2
  | InFlight _ (AwaitStderrEnd _) => 1
  | Fulfilled _ _ | Rejected _ _ => 0
  end.

Fixpoint steps_left (promises : list Entry) : nat :=
  match promises with
  | [] => 0
  | en :: promises' => remaining en.2 + steps_left promises'
  end.

(** The promise of a task that has been started keeps its command
    index. *)
Definition index_of (p : Promise) : option nat :=
  match p with
  | Queued => None
  | InFlight i _ | Fulfilled i _ | Rejected i _ => Some i
  end.

(** The gate has admitted what it has room for. *)
Definition greedy (o : ForeachOptions) (e : Env) (promises : list Entry) : Prop :=
  (∃ en : Entry, en ∈ promises ∧ en.2 = Queued) → admits o e (in_flight promises) = false.

(** What the gate does to a promise: nothing, or it starts its task. *)
Definition admitted (en en' : Entry) : Prop :=
  en' = en ∨ (en.2 = Queued ∧ en'.1 = en.1 ∧ ∃ i, en'.2 = InFlight i AwaitRun).

(** [rejection] is the error of a promise that was rejected, if any
    was. *)
Definition rejection_of (promises : list Entry) (rejection : option Error) : Prop :=
  match rejection with
  | None => rejected promises = None
  | Some err => ∃ k w i, (k, w, Rejected i err) ∈ promises
  end.

(** ** Concrete projects *)

Module Scenarios.

Definition workspace_at (dir name : string) (children : list PortablePath)
    (scripts : list string) (deps : list Descriptor) : Workspace :=
  mkWorkspace dir name ("locator:" +:+ name) ("descriptor:" +:+ name)
              children (list_to_set scripts) (map (λ d, (d, d)) deps) [].

Definition project_of (top : Workspace) (others : list Workspace) : Project :=
  mkProject (list_to_map (map (λ w, (cwd w, w)) (top :: others))) top
            (λ d, filter (λ w, locator_name w = d) (top :: others)).

Definition options (cmd : string) (everything par topo : bool) : ForeachOptions :=
  mkOptions cmd [] "/" [] [] everything false None par false topo false.

Definition env_of (pr : Project) (here : option Workspace) (path args : list string)
    (lifecycle : option string) (exec : nat → Workspace → ExecOutcome) : Env :=
  mkEnv pr here path args lifecycle locator_name locator_name (λ text _, text) exec
        4 (λ _, 0).

Definition exits (code : Z) : ExecOutcome := mkOutcome true false (Exited (Some code)).

(** Two workspaces that depend on each other. *)
Definition X : Workspace := workspace_at "/x" "X" ["/x/y"] ["build"] ["Y"].
Definition Y : Workspace := workspace_at "/x/y" "Y" [] ["build"] ["X"].
Definition cycle_project : Project := project_of X [Y].
Definition cycle_env (exec : nat → Workspace → ExecOutcome) : Env :=
  env_of cycle_project (Some X) ["run"] ["build"] None exec.

(** [B] depends on [A], and the command fails in [A]. *)
Definition A : Workspace := workspace_at "/a" "A" ["/a/b"] ["build"] [].
Definition B : Workspace := workspace_at "/a/b" "B" [] ["build"] ["A"].
Definition failing_project : Project := project_of A [B].
Definition failing_exec (inB : ExecOutcome) : nat → Workspace → ExecOutcome :=
  λ _ w, if bool_decide (cwd w = "/a") then exits 1 else inB.
Definition failing_env (inB : ExecOutcome) : Env :=
  env_of failing_project (Some A) ["run"] ["build"] None (failing_exec inB).

(** A diamond: [D] is declared as a child by both [L] and [R]. *)
Definition D : Workspace := workspace_at "/d" "D" [] ["build"] [].
Definition L : Workspace := workspace_at "/l" "L" ["/d"] ["build"] [].
Definition R : Workspace := workspace_at "/r" "R" ["/d"] ["build"] [].
Definition T : Workspace := workspace_at "/" "T" ["/l"; "/r"] ["build"] [].
Definition diamond_project : Project := project_of T [L; R; D].
Definition diamond_env : Env :=
  env_of diamond_project (Some T) ["run"] ["build"] None (λ _ _, exits 0).

(** No subcommand could be parsed. *)
Definition usage_env : Env :=
  env_of diamond_project (Some T) [] [] None (λ _ _, exits 0).

(** A run from outside any workspace, inside a [build] script, in a
    project where no workspace declares [build]. *)
Definition N : Workspace := workspace_at "/" "N" [] ["test"] [].
Definition noscript_project : Project := project_of N [].
Definition noscript_env : Env :=
  env_of noscript_project None ["run"] ["build"] (Some "build") (λ _ _, exits 0).

(** The same run in a project whose top-level workspace declares [build]. *)
Definition outside_env : Env :=
  env_of diamond_project None ["run"] ["build"] (Some "build") (λ _ _, exits 0).

(** The command fails in [D]; nothing orders the workspaces. *)
Definition unordered_env : Env :=
  env_of diamond_project (Some T) ["run"] ["build"] None
         (λ _ w, if bool_decide (cwd w = "/d") then exits 2 else exits 0).

(** [H1] and [H2] depend on [G]; [K] depends on [G] and, for its
    development, on [H1]. *)
Definition G : Workspace := workspace_at "/g" "G" ["/g/h1"; "/g/h2"] ["build"] [].
Definition H1 : Workspace := workspace_at "/g/h1" "H1" [] ["build"] ["G"].
Definition H2 : Workspace := workspace_at "/g/h2" "H2" [] ["build"] ["G"].
Definition K : Workspace :=
  mkWorkspace "/g/k" "K" "locator:K" "descriptor:K" [] {["build"]}
              [("G", "G")] [("H1", "H1")].
Definition fan_project : Project := project_of G [H1; H2; K].
Definition fan_env : Env :=
  env_of fan_project (Some G) ["run"] ["build"] None (λ _ _, exits 0).

(** The same project on a machine with [n] processing units, the tasks
    in flight taking turns. *)
Definition busy_env (n : nat) : Env :=
  mkEnv fan_project (Some G) ["run"] ["build"] None locator_name locator_name
        (λ text _, text) (λ _ _, exits 0) n (λ evs, length evs).


End Scenarios.

(** * Properties *)

(** ** The walk over the child workspaces *)

Lemma children_loop_sound p rec cwds l :
  (∀ w below, rec w = Some below → Descendants p (workspacesCwds w) below) →
  children_loop p rec cwds = Some l →
  Descendants p cwds l.
Proof.
  intros Hrec. revert l.
  induction cwds as [|c cs IH]; intros l; simpl.
  - intros [= <-]. constructor.
  - destruct (workspacesByCwd p !! c) as [w|] eqn:Hc.
    + destruct (rec w) as [below|] eqn:Hw; simpl; [|done].
      destruct (children_loop p rec cs) as [later|] eqn:Hcs; simpl; [|done].
      intros [= <-]. apply Desc_child; auto.
    + intros H. apply Desc_skip; auto.
Qed.

Lemma getWorkspaceChildrenRecursive_sound p fuel w l :
  getWorkspaceChildrenRecursive p fuel w = Some l →
  Descendants p (workspacesCwds w) l.
Proof.
  revert w l. induction fuel as [|fuel IH]; intros w l; simpl; [done|].
  apply children_loop_sound. exact IH.
Qed.

Lemma children_loop_complete p cwds l :
  Descendants p cwds l →
  ∃ n, ∀ m, n ≤ m →
    children_loop p (getWorkspaceChildrenRecursive p m) cwds = Some l.
Proof.
  induction 1 as [|c cs l Hc _ [n IH]|c cs w below later Hc _ [n1 IH1] _ [n2 IH2]].
  - exists 0. done.
  - exists n. intros m Hm. simpl. rewrite Hc. auto.
  - exists (S n1 `max` n2). intros m Hm.
    assert (Hw : getWorkspaceChildrenRecursive p m w = Some below).
    { destruct m as [|m]; [lia|]. simpl. apply IH1. lia. }
    assert (Hcs : children_loop p (getWorkspaceChildrenRecursive p m) cs = Some later)
      by (apply IH2; lia).
    cbn [children_loop]. rewrite Hc, Hw. cbn [mbind option_bind].
    rewrite Hcs. done.
Qed.

Lemma getWorkspaceChildrenRecursive_complete p w l :
  Descendants p (workspacesCwds w) l →
  ∃ n, ∀ m, n ≤ m → getWorkspaceChildrenRecursive p m w = Some l.
Proof.
  intros [n Hn]%children_loop_complete.
  exists (S n). intros [|m] Hm; [lia|]. simpl. apply Hn. lia.
Qed.

(** ** The selection loop *)

Section Selection.
Variable o : ForeachOptions.
Variable e : Env.

Lemma truthy_declares w :
  (truthy (scriptName e) &&
     negb (bool_decide (default "" (scriptName e) ∈ manifest_scripts w)))
  = negb (declares_script e w).
Proof.
  unfold declares_script. destruct (scriptName e) as [s|]; simpl; [|done].
  destruct (bool_decide (s = "")); simpl; done.
Qed.

Lemma include_test w :
  (bool_decide (0 < length (include o)) &&
     negb (bool_decide (locator_name w ∈ include o)))
  = negb (included o w).
Proof.
  unfold included. destruct (include o) as [|i l]; simpl; done.
Qed.

Lemma exclude_test w :
  (bool_decide (0 < length (exclude o)) &&
     bool_decide (locator_name w ∈ exclude o))
  = negb (not_excluded o w).
Proof.
  unfold not_excluded. destruct (exclude o) as [|i l]; simpl; [done|].
  by rewrite negb_involutive.
Qed.

(** The guard, when it does not read an absent workspace. *)
Lemma guard_safe w :
  (cwdWorkspace e = None → npm_lifecycle_event e ≠ Some (requested o e)) →
  guard o e w = Returns (is_originating o e w).
Proof.
  intros Hsafe. unfold guard, is_originating, cwdWorkspace_cwd.
  destruct (cwdWorkspace e) as [cw|].
  - destruct (bool_decide _); done.
  - rewrite bool_decide_eq_false_2; auto.
Qed.

Lemma select_loop_safe candidates workspaces :
  (cwdWorkspace e = None → npm_lifecycle_event e ≠ Some (requested o e)) →
  select_loop o e candidates workspaces
  = Returns (workspaces ++ selected_spec o e candidates)%list.
Proof.
  intros Hsafe. unfold selected_spec. revert workspaces.
  induction candidates as [|w ws IH]; intros acc; simpl.
  - by rewrite app_nil_r.
  - rewrite truthy_declares, (guard_safe w Hsafe), include_test, exclude_test.
    destruct (declares_script e w) eqn:Hd; simpl.
    2:{ rewrite (filter_cons_False _ w) by congruence. apply IH. }
    rewrite (filter_cons_True _ w) by done.
    destruct (is_originating o e w) eqn:Ho; simpl.
    { rewrite (filter_cons_False _ w) by congruence. apply IH. }
    rewrite (filter_cons_True _ w) by done.
    destruct (included o w) eqn:Hi; simpl.
    2:{ rewrite (filter_cons_False _ w) by congruence. apply IH. }
    rewrite (filter_cons_True _ w) by done.
    destruct (not_excluded o w) eqn:Hx; simpl.
    2:{ rewrite (filter_cons_False _ w) by congruence. apply IH. }
    rewrite (filter_cons_True _ w) by done.
    rewrite IH, <- app_assoc. done.
Qed.

(** The guard reads the absent workspace at the first candidate that
    passes the script test. *)
Lemma select_loop_absent candidates workspaces :
  cwdWorkspace e = None →
  npm_lifecycle_event e = Some (requested o e) →
  (∃ w, w ∈ candidates ∧ declares_script e w = true) →
  select_loop o e candidates workspaces = Throws TypeError.
Proof.
  intros Hnone Hev. revert workspaces.
  induction candidates as [|w ws IH]; intros acc [w' [Hin Hdecl]].
  - by apply elem_of_nil in Hin.
  - simpl. rewrite truthy_declares.
    destruct (declares_script e w) eqn:Hw; simpl.
    + unfold guard, cwdWorkspace_cwd. rewrite Hnone.
      by rewrite bool_decide_eq_true_2.
    + apply IH. exists w'. split; [|done].
      apply elem_of_cons in Hin as [->|]; [congruence|done].
Qed.



End Selection.

(** ** The task runner *)

Lemma Closed_app evs evs' : Closed evs → Closed evs' → Closed (evs ++ evs').
Proof.
  induction 1; intros H'; simpl; [done| |].
  - apply Closed_other; auto.
  - apply (Closed_task i w). auto.
Qed.

Lemma spawns_app evs evs' : spawns (evs ++ evs') = (spawns evs ++ spawns evs')%list.
Proof. apply omap_app. Qed.

Section Runner.
Variable o : ForeachOptions.
Variable e : Env.

Lemma task_events_closed w i : Closed (task_events o e w i).
Proof.
  unfold task_events.
  apply Closed_app.
  { destruct (_ && _); repeat constructor; done. }
  apply Closed_other; [done|]. apply Closed_other; [done|].
  rewrite <- (app_nil_r (closing i)). apply Closed_task. constructor.
Qed.

Lemma task_events_spawns w i : spawns (task_events o e w i) = [(i, w)].
Proof. unfold task_events. destruct (_ && _); reflexivity. Qed.

(** Both exits of [runCommand]: whatever the executor does, the trace
    grows by the events of the task, streams closed, and nothing but
    the report's info messages changes besides. *)
Lemma runCommand_spec w i st :
  ∃ infos,
    runCommand o e w i st
    = (task_outcome e w i, with_report st infos (task_events o e w i)).
Proof.
  unfold runCommand, task_outcome, task_events, with_report, run_executor, await_end,
    try_catch, bind, emit, reportInfo, modify, ret, throw.
  destruct st as [needs proc count [errs infos] evs]. simpl.
  destruct (negb (parallel o) && verbose o && bool_decide (1 < i)); simpl;
    (destruct (exec_result (clipanion_run e i w)) as [code|err]; simpl;
     [destruct (verbose o && negb (wrote_stdout (clipanion_run e i w)) &&
                negb (wrote_stderr (clipanion_run e i w))); simpl|]);
    eexists; rewrite <- ?app_assoc; simpl; reflexivity.
Qed.
End Runner.

(** ** One round *)

Section Round.
Variable o : ForeachOptions.
Variable e : Env.

Local Abbreviation dh := anchoredDescriptor_descriptorHash.
Local Abbreviation lh := anchoredLocator_locatorHash.

Lemma task_spec k w st :
  ∃ infos,
    task o e k w st =
    match exec_result (clipanion_run e (S (commandCount st)) w) with
    | Exited code =>
        (Returns (or_zero code),
         mkState (map_delete k (needsProcessing st)) (processing st ∖ {[dh w]})
                 (S (commandCount st)) (mkReport (report_errors (report st)) infos)
                 (events st ++ task_events o e w (S (commandCount st))))
    | Raised err =>
        (Throws (ExecutorError err),
         mkState (needsProcessing st) (processing st)
                 (S (commandCount st)) (mkReport (report_errors (report st)) infos)
                 (events st ++ task_events o e w (S (commandCount st))))
    end.
Proof.
  unfold task, bind, next_commandIndex.
  match goal with
  | |- context [runCommand o e w ?i ?s] =>
      destruct (runCommand_spec o e w i s) as [infos ->]
  end.
  exists infos. unfold task_outcome, with_report. simpl.
  destruct (exec_result _); reflexivity.
Qed.

End Round.

(** ** Interleavings *)

Section Interleavings.
Context {A : Type}.
Implicit Types (l evs : list A) (ls : list (list A)).

Lemma Interleaving_grow ls1 l ls2 xs evs :
  Interleaving (ls1 ++ l :: ls2)%list evs →
  Interleaving (ls1 ++ (l ++ xs) :: ls2)%list (evs ++ xs)%list.
Proof.
  revert l evs. induction xs as [|x xs IH]; intros l evs H.
  - by rewrite !app_nil_r.
  - rewrite (cons_middle x l xs), (cons_middle x evs xs), !app_assoc.
    apply IH. by constructor.
Qed.

Lemma Interleaving_idle ls ls' evs :
  Interleaving ls evs → Forall (λ l, l = []) ls' → Interleaving (ls ++ ls')%list evs.
Proof.
  intros H Hnil. induction H as [ls Hls|ls1 l ls2 x evs _ IH].
  - constructor. by apply Forall_app.
  - rewrite <- app_assoc in *. simpl in *. by constructor.
Qed.

Lemma Interleaving_app ls ls' evs evs' :
  Interleaving ls evs → Interleaving ls' evs' →
  Interleaving (ls ++ ls')%list (evs ++ evs')%list.
Proof.
  intros H H'. induction H' as [ls' Hls|ls1 l ls2 x evs' _ IH].
  - rewrite app_nil_r. by apply Interleaving_idle.
  - rewrite !app_assoc in *. by constructor.
Qed.

Lemma Interleaving_Permutation ls evs : Interleaving ls evs → evs ≡ₚ concat ls.
Proof.
  induction 1 as [ls Hls|ls1 l ls2 x evs _ IH].
  - induction Hls as [|l ls -> _ IH]; [done|]. simpl. done.
  - rewrite IH, !concat_app. simpl. rewrite <- !app_assoc.
    do 2 f_equiv. apply Permutation_app_comm.
Qed.


(** An interleaving of lists all of which are empty but one is that
    one. *)
Lemma Interleaving_only ls evs :
  Interleaving ls evs →
  ∀ ls1 l ls2, ls = (ls1 ++ l :: ls2)%list →
    Forall (λ l, l = []) ls1 → Forall (λ l, l = []) ls2 → evs = l.
Proof.
  induction 1 as [ls Hls|ls1' l' ls2' x evs _ IH]; intros ls1 l ls2 Heq H1 H2.
  - subst ls. apply Forall_app in Hls as [_ Hls]. by inversion Hls.
  - assert (Hlen : length ls1' = length ls1).
    { destruct (decide (length ls1' = length ls1)) as [|Hne]; [done|]. exfalso.
      assert (Hat : (ls1 ++ l :: ls2)%list !! length ls1' = Some (l' ++ [x])%list).
      { rewrite <- Heq. by rewrite list_lookup_middle. }
      destruct (decide (length ls1' < length ls1)) as [Hlt|Hge].
      - rewrite lookup_app_l in Hat by done.
        rewrite Forall_lookup in H1. apply H1 in Hat. by destruct l'.
      - rewrite lookup_app_r in Hat by lia.
        destruct (length ls1' - length ls1) as [|n] eqn:Hn; [lia|].
        simpl in Hat. rewrite Forall_lookup in H2. apply H2 in Hat. by destruct l'. }
    apply app_inj_1 in Heq as [-> Heq]; [|done]. injection Heq as <- <-.
    f_equal. by apply (IH ls1 l' ls2').
Qed.

End Interleavings.

(** ** A round in progress *)

Lemma finishes_app evs evs' : finishes (evs ++ evs') = (finishes evs ++ finishes evs')%list.
Proof. unfold finishes. by rewrite omap_app. Qed.

Lemma limit_at_least_one o n : (1 <= limit o n)%Q.
Proof.
  unfold limit, concurrency.
  destruct (jobs o) as [[|j]|]; try (destruct (parallel o); [apply Q.le_max_l|apply Qle_refl]).
  unfold Qle. simpl. lia.
Qed.

Section Gate.
Variable o : ForeachOptions.
Variable e : Env.

Local Abbreviation dh := anchoredDescriptor_descriptorHash.

Lemma admits_none : admits o e 0 = true.
Proof. unfold admits. apply Qle_bool_iff. apply limit_at_least_one. Qed.

Lemma admits_within active :
  admits o e active = true →
  (inject_Z (Z.of_nat (S active)) <= limit o (cpus e))%Q.
Proof. unfold admits. apply Qle_bool_iff. Qed.

(** *** The trace *)

Lemma begin_events_spawns w i : spawns (begin_events o e w i) = [(i, w)].
Proof. unfold begin_events. by destruct (_ && _). Qed.

Lemma begin_events_finishes w i : finishes (begin_events o e w i) = [].
Proof. unfold begin_events. by destruct (_ && _). Qed.

Lemma task_events_begin w i :
  task_events o e w i = (begin_events o e w i ++ closing i)%list.
Proof. unfold task_events, begin_events. by rewrite <- !app_assoc. Qed.

Lemma Bounded_nil : Bounded o e [].
Proof.
  intros before after Heq. symmetry in Heq. apply app_eq_nil in Heq as [-> _].
  split; [done|]. unfold load. simpl.
  eapply Qle_trans; [|apply limit_at_least_one]. done.
Qed.

(** Events that neither start nor end a task leave the load as it is. *)
Lemma Bounded_quiet evs new :
  Bounded o e evs → spawns new = [] → finishes new = [] → Bounded o e (evs ++ new).
Proof.
  intros Hb Hs Hf before after Heq.
  apply app_eq_inv in Heq as [(k & -> & _)|(k & -> & Hk)].
  - by apply (Hb before k).
  - assert (spawns k = [] ∧ finishes k = []) as [Hsk Hfk].
    { rewrite Hk, spawns_app, finishes_app in *.
      apply app_eq_nil in Hs as [-> _]. by apply app_eq_nil in Hf as [-> _]. }
    unfold load. rewrite spawns_app, finishes_app, Hsk, Hfk, !app_nil_r.
    apply (Hb evs []). by rewrite app_nil_r.
Qed.

Lemma Bounded_snoc evs ev :
  Bounded o e evs →
  length (finishes (evs ++ [ev])) ≤ length (spawns (evs ++ [ev])) →
  (inject_Z (Z.of_nat (load (evs ++ [ev]))) <= limit o (cpus e))%Q →
  Bounded o e (evs ++ [ev]).
Proof.
  intros Hb Hle Hq before after Heq.
  apply app_eq_inv in Heq as [(k & -> & _)|(k & -> & Hk)].
  - by apply (Hb before k).
  - destruct k as [|x k].
    + rewrite app_nil_r. apply (Hb evs []). by rewrite app_nil_r.
    + destruct k; [|by destruct k]. simpl in Hk. injection Hk as <- _.
      by destruct after.
Qed.

(** *** The steps *)

Lemma begin_spec w st :
  begin o e w st =
  (Returns (S (commandCount st)),
   mkState (needsProcessing st) (processing st) (S (commandCount st)) (report st)
           (events st ++ begin_events o e w (S (commandCount st)))).
Proof.
  unfold begin, begin_events, bind, next_commandIndex, emit, modify, ret.
  destruct st as [needs proc count rep evs]. simpl.
  destruct (negb (parallel o) && verbose o && bool_decide (1 < S count)); simpl;
    rewrite <- ?app_assoc; reflexivity.
Qed.

Lemma resume_spec k w i at_ st :
  resume o e k w i at_ st =
  (Returns (resumed e w i at_),
   match at_ with
   | AwaitStderrEnd emptyStdout =>
       match exec_result (clipanion_run e i w) with
       | Exited code =>
           mkState (map_delete k (needsProcessing st)) (processing st ∖ {[dh w]})
                   (commandCount st)
                   (mkReport (report_errors (report st))
                      (report_infos (report st) ++
                       if verbose o && emptyStdout && negb (wrote_stderr (clipanion_run e i w))
                       then [prefix_text (getPrefix o e w i)
                               +:+ " Process exited without output (exit code "
                               +:+ pretty (or_zero code) +:+ ")"]
                       else []))
                   (events st ++ resumed_events i at_)
       | Raised _ =>
           mkState (needsProcessing st) (processing st) (commandCount st) (report st)
                   (events st ++ resumed_events i at_)
       end
   | _ =>
       mkState (needsProcessing st) (processing st) (commandCount st) (report st)
               (events st ++ resumed_events i at_)
   end).
Proof.
  unfold resume, resumed, resumed_events, await_end, bind, emit, reportInfo,
    set_needsProcessing, set_processing, modify, get, ret.
  destruct st as [needs proc count [errs infos] evs].
  destruct at_ as [| |emptyStdout]; simpl; rewrite <- ?app_assoc; try reflexivity.
  destruct (exec_result (clipanion_run e i w)); simpl; [|reflexivity].
  destruct (verbose o && emptyStdout && negb (wrote_stderr (clipanion_run e i w)));
    simpl; rewrite ?app_nil_r; reflexivity.
Qed.

(** *** One task alone *)

Lemma task_exact k w st :
  task o e k w st =
  (task_outcome e w (S (commandCount st)),
   match exec_result (clipanion_run e (S (commandCount st)) w) with
   | Exited _ =>
       mkState (map_delete k (needsProcessing st))
               (processing st ∖ {[dh w]})
               (S (commandCount st))
               (mkReport (report_errors (report st))
                         (report_infos (report st) ++ task_infos o e w (S (commandCount st))))
               (events st ++ task_events o e w (S (commandCount st)))
   | Raised _ =>
       mkState (needsProcessing st) (processing st) (S (commandCount st)) (report st)
               (events st ++ task_events o e w (S (commandCount st)))
   end).
Proof.
  unfold task, runCommand, task_outcome, task_events, task_infos, run_executor, await_end,
    try_catch, bind, next_commandIndex, emit, reportInfo, set_needsProcessing,
    set_processing, modify, get, ret, throw.
  destruct st as [needs proc count [errs infos] evs]. simpl.
  destruct (negb (parallel o) && verbose o && bool_decide (1 < S count)); simpl;
    (destruct (exec_result (clipanion_run e (S count) w)) as [code|err]; simpl;
     [destruct (verbose o && negb (wrote_stdout (clipanion_run e (S count) w)) &&
                negb (wrote_stderr (clipanion_run e (S count) w))); simpl|]);
    rewrite <- ?app_assoc, ?app_nil_r; simpl; reflexivity.
Qed.

Lemma resume_nth_alone n k w i at_ st :
  resume_nth o e (n mod 1) [(k, w, InFlight i at_)] st
  = (Returns [(k, w, resumed e w i at_)], (resume o e k w i at_ st).2).
Proof.
  rewrite Nat.mod_1_r. cbn [resume_nth]. unfold bind. by rewrite resume_spec.
Qed.

Lemma settle_alone fuel k w i at_ rejection st :
  settle o e (S fuel) [(k, w, InFlight i at_)] rejection st
  = settle o e fuel [(k, w, resumed e w i at_)]
           (match rejection with
            | Some _ => rejection
            | None => rejected [(k, w, resumed e w i at_)]
            end)
           (resume o e k w i at_ st).2.
Proof.
  cbn [settle forallb is_settled snd andb]. unfold bind at 1, get at 1.
  change (in_flight [(k, w, InFlight i at_)]) with 1.
  unfold bind at 1. rewrite resume_nth_alone. unfold bind at 1.
  assert (Hadmit : ∀ n st', dequeue o e n [(k, w, resumed e w i at_)] st'
                            = (Returns [(k, w, resumed e w i at_)], st')).
  { intros n st'. unfold resumed.
    destruct at_; [done|done|]. by destruct (exec_result _). }
  by rewrite Hadmit.
Qed.

(** A task that goes through the gate alone is [task]: cut at the three
    points where it waits and put together again, the steps are the
    body of the task and [runCommand] as the source has them. *)
Lemma awaitAll_alone k w st :
  awaitAll o e [(k, w)] st
  = (match (task o e k w st).1 with
     | Returns exitCode => Returns [exitCode]
     | Throws err => Throws err
     | OutOfFuel => OutOfFuel
     end, (task o e k w st).2).
Proof.
  rewrite task_exact. unfold awaitAll, task_outcome. cbn [fst snd map length Nat.mul Nat.add].
  unfold bind at 1. cbn [dequeue]. rewrite admits_none. unfold bind at 1.
  rewrite begin_spec. cbn [dequeue]. unfold bind at 1, ret at 1 2.
  rewrite settle_alone. cbn [resumed]. rewrite settle_alone. cbn [resumed].
  rewrite settle_alone. rewrite !resume_spec.
  cbn [snd resumed rejected commandCount events needsProcessing processing report].
  rewrite task_events_begin. unfold task_infos, closing, resumed_events.
  destruct (exec_result (clipanion_run e (S (commandCount st)) w)) as [code|err].
  - cbn. rewrite <- !app_assoc. simpl. reflexivity.
  - cbn. rewrite <- !app_assoc. simpl. reflexivity.
Qed.

(** *** Promises *)

Implicit Types (promises ps : list Entry) (en : Entry).

Lemma started_tasks_app ps ps' :
  started_tasks (ps ++ ps') = (started_tasks ps ++ started_tasks ps')%list.
Proof. unfold started_tasks. by rewrite omap_app. Qed.

Lemma fulfilled_app ps ps' : fulfilled (ps ++ ps') = (fulfilled ps ++ fulfilled ps')%list.
Proof. unfold fulfilled. by rewrite omap_app. Qed.

Lemma started_tasks_middle ps1 k w p ps2 :
  started_tasks (ps1 ++ (k, w, p) :: ps2) =
  (started_tasks ps1 ++
   match index_of p with Some i => [(i, w)] | None => [] end ++ started_tasks ps2)%list.
Proof. rewrite started_tasks_app. f_equal. by destruct p. Qed.

Lemma fulfilled_middle ps1 k w p ps2 :
  fulfilled (ps1 ++ (k, w, p) :: ps2) =
  (fulfilled ps1 ++
   match p with Fulfilled _ _ => [(k, w)] | _ => [] end ++ fulfilled ps2)%list.
Proof. rewrite fulfilled_app. f_equal. by destruct p. Qed.

Lemma in_flight_app ps ps' : in_flight (ps ++ ps') = in_flight ps + in_flight ps'.
Proof.
  induction ps as [|[[k w] p] ps IH]; [done|]. simpl. rewrite IH. lia.
Qed.

Lemma in_flight_middle ps1 k w p ps2 :
  in_flight (ps1 ++ (k, w, p) :: ps2) =
  in_flight ps1 + (if is_in_flight p then 1 else 0) + in_flight ps2.
Proof. rewrite in_flight_app. simpl. lia. Qed.

Lemma steps_left_app ps ps' : steps_left (ps ++ ps') = steps_left ps + steps_left ps'.
Proof. induction ps as [|en ps IH]; [done|]. simpl. rewrite IH. lia. Qed.

Lemma started_tasks_queued ps :
  Forall (λ en, en.2 = Queued) ps → started_tasks ps = [].
Proof.
  induction 1 as [|[[k w] p] ps Hp _ IH]; [done|]. simpl in Hp. subst p. done.
Qed.

Lemma started_tasks_length ps :
  Forall (λ en, en.2 ≠ Queued) ps → length (started_tasks ps) = length ps.
Proof.
  induction 1 as [|[[k w] p] ps Hp _ IH]; [done|].
  destruct p; simpl in *; try done; by rewrite IH.
Qed.

Lemma in_order_update count ps1 k w p p' ps2 :
  index_of p' = index_of p → p ≠ Queued →
  in_order count (ps1 ++ (k, w, p) :: ps2) →
  in_order count (ps1 ++ (k, w, p') :: ps2).
Proof.
  intros Hi Hp. revert count. induction ps1 as [|[[k1 w1] p1] ps1 IH]; intros count.
  - simpl. destruct p, p'; simpl in *; try done; by injection Hi as ->.
  - simpl. destruct p1.
    + intros H. apply Forall_app in H as [H1 H2]. inversion H2 as [|?? Hq]. done.
    + intros [-> H]. split; [done|]. by apply IH.
    + intros [-> H]. split; [done|]. by apply IH.
    + intros [-> H]. split; [done|]. by apply IH.
Qed.

Lemma in_order_begin count ps1 k w ps2 :
  Forall (λ en, en.2 ≠ Queued) ps1 →
  in_order count (ps1 ++ (k, w, Queued) :: ps2) →
  Forall (λ en, en.2 = Queued) ps2 ∧
  in_order count (ps1 ++ (k, w, InFlight (S (count + length ps1)) AwaitRun) :: ps2).
Proof.
  intros Hps1. revert count.
  induction Hps1 as [|[[k1 w1] p1] ps1 Hp1 _ IH]; intros count.
  - simpl. intros H. split; [done|]. rewrite Nat.add_0_r. split; [done|].
    destruct ps2 as [|[[k2 w2] p2] ps2]; [done|].
    inversion H as [|?? Hq Hrest]. simpl in Hq. subst p2. done.
  - simpl in *. destruct p1; [done|..]; intros [-> H]; destruct (IH _ H) as [Hq Ho];
      (split; [done|]); (split; [done|]);
      by replace (S (count + S (length ps1))) with (S (S count + length ps1)) by lia.
Qed.

Lemma in_order_started count ps :
  in_order count ps → Forall (λ en, is_settled en.2 = true) ps →
  started_tasks ps = zip (seq (S count) (length ps)) ps.*1.*2.
Proof.
  revert count. induction ps as [|[[k w] p] ps IH]; intros count; [done|].
  intros Ho Hs. inversion Hs as [|?? Hp Hs']. subst.
  destruct p; simpl in *; try done; destruct Ho as [-> Ho]; by rewrite (IH _ Ho Hs').
Qed.

Lemma fulfilled_returning count ps :
  in_order count ps → Forall (λ en, is_settled en.2 = true) ps → Forall (sound e) ps →
  fulfilled ps = returning e count ps.*1.
Proof.
  revert count. induction ps as [|[[k w] p] ps IH]; intros count; [done|].
  intros Ho Hs Hg. inversion Hs as [|?? Hp Hs']. inversion Hg as [|?? Hsound Hg']. subst.
  unfold sound in Hsound.
  destruct p; simpl in *; try done; destruct Ho as [-> Ho].
  - destruct Hsound as (code & -> & _). unfold fulfilled in *. simpl.
    by rewrite (IH _ Ho Hs' Hg').
  - destruct Hsound as (x & -> & _). unfold fulfilled in *. simpl.
    by rewrite (IH _ Ho Hs' Hg').
Qed.

Lemma rejected_None ps :
  rejected ps = None ↔ ∀ k w i err, (k, w, Rejected i err) ∉ ps.
Proof.
  induction ps as [|[[k w] p] ps IH].
  - split; [|done]. intros _ k w i err. apply not_elem_of_nil.
  - destruct p; simpl; rewrite ?IH;
      try (split; [intros H k' w' i' err'; rewrite not_elem_of_cons; split; [done|apply H]
                  |intros H k' w' i' err'; specialize (H k' w' i' err');
                   rewrite not_elem_of_cons in H; tauto]).
    split; [done|]. intros H. exfalso. eapply H. left.
Qed.

Lemma rejected_Some ps err :
  rejected ps = Some err → ∃ k w i, (k, w, Rejected i err) ∈ ps.
Proof.
  induction ps as [|[[k w] p] ps IH]; [done|].
  destruct p; simpl; try (intros H; destruct (IH H) as (k' & w' & i' & Hin);
                          exists k', w', i'; by right).
  intros [= ->]. exists k, w, commandIndex. left.
Qed.

Lemma steps_left_settled ps :
  steps_left ps = 0 → forallb (λ en : Entry, is_settled en.2) ps = true.
Proof.
  induction ps as [|[[k w] p] ps IH]; [done|].
  simpl. intros H.
  destruct p as [|i []| |]; simpl in *; try lia; apply IH; lia.
Qed.

Lemma forallb_settled ps :
  forallb (λ en : Entry, is_settled en.2) ps = true ↔
  Forall (λ en, is_settled en.2 = true) ps.
Proof.
  rewrite forallb_forall, Forall_forall. split; intros H x Hx; apply H;
    by apply list_elem_of_In.
Qed.

Lemma within_le n m :
  n ≤ m →
  (inject_Z (Z.of_nat m) <= limit o (cpus e))%Q →
  (inject_Z (Z.of_nat n) <= limit o (cpus e))%Q.
Proof.
  intros Hle. apply Qle_trans. rewrite <- Zle_Qle. lia.
Qed.

Lemma Bounded_load evs :
  Bounded o e evs → (inject_Z (Z.of_nat (load evs)) <= limit o (cpus e))%Q.
Proof. intros Hb. apply (Hb evs []). by rewrite app_nil_r. Qed.

(** *** One step of the gate *)

(** The gate admits the first task that waits. *)
Lemma begin_step st0 ps1 k w ps2 evs infos :
  Good o e (commandCount st0) (ps1 ++ (k, w, Queued) :: ps2) evs infos →
  Forall (λ en, en.2 ≠ Queued) ps1 →
  admits o e (in_flight (ps1 ++ (k, w, Queued) :: ps2)) = true →
  ∃ i,
    begin o e w (view st0 (ps1 ++ (k, w, Queued) :: ps2) evs infos) =
      (Returns i,
       view st0 (ps1 ++ (k, w, InFlight i AwaitRun) :: ps2)
            (evs ++ begin_events o e w i) infos) ∧
    Good o e (commandCount st0) (ps1 ++ (k, w, InFlight i AwaitRun) :: ps2)
         (evs ++ begin_events o e w i) infos.
Proof.
  intros [Ho Hs Ht Hsp Hin Hl Hb] Hps1 Hadm.
  destruct (in_order_begin _ _ _ _ _ Hps1 Ho) as [Hq Ho'].
  assert (Hstarted : started_tasks (ps1 ++ (k, w, Queued) :: ps2) = started_tasks ps1).
  { rewrite started_tasks_middle. cbn [index_of].
    by rewrite (started_tasks_queued ps2 Hq), !app_nil_r. }
  rewrite begin_spec. cbn [view commandCount].
  rewrite Hstarted, (started_tasks_length ps1 Hps1).
  set (i := S (commandCount st0 + length ps1)).
  assert (Hstarted' : started_tasks (ps1 ++ (k, w, InFlight i AwaitRun) :: ps2)
                      = (started_tasks ps1 ++ [(i, w)])%list).
  { rewrite started_tasks_middle. cbn [index_of].
    by rewrite (started_tasks_queued ps2 Hq), !app_nil_r. }
  exists i. split.
  - unfold view. cbn [needsProcessing processing report events commandCount].
    rewrite !fulfilled_middle, Hstarted', length_app, (started_tasks_length ps1 Hps1).
    cbn [length]. rewrite <- (app_assoc (events st0)). do 2 f_equal. subst i. lia.
  - split.
    + exact Ho'.
    + apply Forall_app in Hs as [Hs1 Hs2]. inversion Hs2; subst.
      apply Forall_app. split; [done|]. by constructor.
    + rewrite fmap_app, fmap_cons in *.
      apply (Interleaving_grow _ [] _ (begin_events o e w i)) in Ht. exact Ht.
    + by rewrite spawns_app, begin_events_spawns, Hsp, Hstarted, Hstarted'.
    + rewrite Hin, !flat_map_app. done.
    + rewrite finishes_app, begin_events_finishes, app_nil_r, spawns_app,
        begin_events_spawns, length_app. rewrite !in_flight_middle in *. simpl in *. lia.
    + assert (Hsplit : ∃ quiet, begin_events o e w i = (quiet ++ [Spawn i w])%list ∧
                                spawns quiet = [] ∧ finishes quiet = []).
      { unfold begin_events. destruct (_ && _).
        - by exists [Separator; CreateStream i Stdout (getPrefix o e w i) (interlaced' o);
                     CreateStream i Stderr (getPrefix o e w i) (interlaced' o)].
        - by exists [CreateStream i Stdout (getPrefix o e w i) (interlaced' o);
                     CreateStream i Stderr (getPrefix o e w i) (interlaced' o)]. }
      destruct Hsplit as (quiet & -> & Hqs & Hqf). rewrite app_assoc.
      apply Bounded_snoc; [by apply Bounded_quiet|..].
      * rewrite !finishes_app, !spawns_app, Hqs, Hqf, !length_app. simpl. lia.
      * unfold load. rewrite !finishes_app, !spawns_app, Hqs, Hqf, !length_app. simpl.
        rewrite !Nat.add_0_r.
        replace (length (spawns evs) + 1 - length (finishes evs))
          with (S (in_flight (ps1 ++ (k, w, Queued) :: ps2))) by lia.
        by apply admits_within.
Qed.

Lemma map_delete_filter k (l l' : list LocatorHash) (m : list (LocatorHash * Workspace)) :
  (∀ x, x ∈ l' ↔ x ∈ l ∨ x = k) →
  map_delete k (filter (λ kv, kv.1 ∉ l) m) = filter (λ kv, kv.1 ∉ l') m.
Proof.
  intros Hl. unfold map_delete. rewrite list_filter_filter.
  apply list_filter_iff. intros kv. rewrite Hl. tauto.
Qed.

(** A task in flight goes on. *)
Lemma resume_step st0 ps1 k w i at_ ps2 evs infos :
  Good o e (commandCount st0) (ps1 ++ (k, w, InFlight i at_) :: ps2) evs infos →
  ∃ infos',
    resume o e k w i at_ (view st0 (ps1 ++ (k, w, InFlight i at_) :: ps2) evs infos) =
      (Returns (resumed e w i at_),
       view st0 (ps1 ++ (k, w, resumed e w i at_) :: ps2)
            (evs ++ resumed_events i at_) infos') ∧
    Good o e (commandCount st0) (ps1 ++ (k, w, resumed e w i at_) :: ps2)
         (evs ++ resumed_events i at_) infos'.
Proof.
  intros [Ho Hs Ht Hsp Hin Hl Hb].
  assert (Hsound : sound e (k, w, InFlight i at_)).
  { apply Forall_app in Hs as [_ Hs2]. by inversion Hs2. }
  assert (Hs' : ∀ p, sound e (k, w, p) → Forall (sound e) (ps1 ++ (k, w, p) :: ps2)).
  { intros p Hp. apply Forall_app in Hs as [Hs1 Hs2]. inversion Hs2; subst.
    apply Forall_app. split; [done|]. by constructor. }
  assert (Hload : 1 ≤ in_flight (ps1 ++ (k, w, InFlight i at_) :: ps2)).
  { rewrite in_flight_middle. simpl. lia. }
  rewrite resume_spec. rewrite fmap_app, fmap_cons in Ht.
  destruct at_ as [| |emptyStdout].
  - (* the executor has settled *)
    exists infos. split; [|split].
    + unfold view. cbn [needsProcessing processing report events commandCount].
      rewrite !fulfilled_middle, !started_tasks_middle. cbn [resumed index_of].
      by rewrite <- (app_assoc (events st0)).
    + by apply (in_order_update _ _ _ _ (InFlight i AwaitRun)).
    + by apply Hs'.
    + rewrite fmap_app, fmap_cons.
      by apply (Interleaving_grow _ _ _ [End i Stdout; End i Stderr]) in Ht.
    + rewrite spawns_app, app_nil_r, Hsp, !started_tasks_middle. done.
    + rewrite Hin, !flat_map_app. done.
    + rewrite finishes_app, spawns_app, !app_nil_r. rewrite !in_flight_middle in *. done.
    + by apply Bounded_quiet.
  - (* the first stream has finished *)
    exists infos. split; [|split].
    + unfold view. cbn [needsProcessing processing report events commandCount].
      rewrite !fulfilled_middle, !started_tasks_middle. cbn [resumed index_of].
      by rewrite <- (app_assoc (events st0)).
    + by apply (in_order_update _ _ _ _ (InFlight i AwaitStdoutEnd)).
    + by apply Hs'.
    + rewrite fmap_app, fmap_cons.
      apply (Interleaving_grow _ _ _ [AwaitEnd i Stdout]) in Ht.
      unfold promise_events in *. cbn [fst snd resumed] in *.
      by rewrite <- app_assoc in Ht.
    + rewrite spawns_app, app_nil_r, Hsp, !started_tasks_middle. done.
    + rewrite Hin, !flat_map_app. done.
    + rewrite finishes_app, spawns_app, !app_nil_r. rewrite !in_flight_middle in *. done.
    + by apply Bounded_quiet.
  - (* the second stream has finished: the task settles *)
    unfold sound in Hsound. cbn [fst snd] in Hsound. subst emptyStdout.
    assert (Htrace : Interleaving
              (promise_events o e <$> (ps1 ++ (k, w, resumed e w i (AwaitStderrEnd
                 (negb (wrote_stdout (clipanion_run e i w))))) :: ps2)%list)
              (evs ++ [AwaitEnd i Stderr])%list).
    { rewrite fmap_app, fmap_cons.
      apply (Interleaving_grow _ _ _ [AwaitEnd i Stderr]) in Ht.
      unfold promise_events in *. cbn [fst snd] in *.
      rewrite <- app_assoc in Ht. unfold resumed.
      destruct (exec_result (clipanion_run e i w)); cbn [snd];
        by rewrite task_events_begin. }
    assert (Hbound : Bounded o e (evs ++ [AwaitEnd i Stderr])).
    { apply Bounded_snoc; [done|..].
      - rewrite finishes_app, spawns_app, app_nil_r, length_app. simpl. lia.
      - unfold load. rewrite finishes_app, spawns_app, app_nil_r, length_app. simpl.
        apply (within_le _ (load evs)); [unfold load; lia|by apply Bounded_load]. }
    unfold resumed, resumed_events. unfold resumed in Htrace.
    destruct (exec_result (clipanion_run e i w)) as [code|x] eqn:Hx.
    + exists (infos ++ task_infos o e w i)%list. split; [|split].
      * unfold view. cbn [needsProcessing processing report events commandCount
                          report_errors report_infos].
        rewrite !fulfilled_middle, !started_tasks_middle. cbn [index_of].
        rewrite !fmap_app, !fmap_cons. cbn [fst snd app fmap list_fmap].
        f_equal. f_equal.
        -- apply map_delete_filter.
           intros x. rewrite !elem_of_app, elem_of_cons. tauto.
        -- rewrite list_to_set_app_L, (list_to_set_app_L _ (_ :: _)), list_to_set_cons.
           set_solver.
        -- unfold task_infos. rewrite Hx, <- app_assoc. done.
        -- by rewrite <- app_assoc.
      * by apply (in_order_update _ _ _ _ (InFlight i (AwaitStderrEnd
                    (negb (wrote_stdout (clipanion_run e i w)))))).
      * apply Hs'. unfold sound. cbn [fst snd]. by exists code.
      * done.
      * rewrite spawns_app, app_nil_r, Hsp, !started_tasks_middle. done.
      * rewrite Hin, !flat_map_app. cbn [flat_map]. unfold promise_infos at 3 5.
        cbn [fst snd]. rewrite app_nil_l, <- !app_assoc. f_equiv.
        apply Permutation_app_comm.
      * rewrite finishes_app, spawns_app, app_nil_r, length_app.
        rewrite !in_flight_middle in *. simpl in *. lia.
      * done.
    + exists infos. split; [|split].
      * unfold view. cbn [needsProcessing processing report events commandCount].
        rewrite !fulfilled_middle, !started_tasks_middle. cbn [resumed index_of].
        by rewrite <- (app_assoc (events st0)).
      * by apply (in_order_update _ _ _ _ (InFlight i (AwaitStderrEnd
                    (negb (wrote_stdout (clipanion_run e i w)))))).
      * apply Hs'. unfold sound. cbn [fst snd]. by exists x.
      * done.
      * rewrite spawns_app, app_nil_r, Hsp, !started_tasks_middle. done.
      * rewrite Hin, !flat_map_app. done.
      * rewrite finishes_app, spawns_app, app_nil_r, length_app.
        rewrite !in_flight_middle in *. simpl in *. lia.
      * done.
Qed.

(** *** The gate admits what it has room for *)

Lemma admitted_refl ps : Forall2 admitted ps ps.
Proof. induction ps; constructor; [by left|done]. Qed.

Lemma admitted_keys ps ps' : Forall2 admitted ps ps' → ps'.*1 = ps.*1.
Proof.
  induction 1 as [|en en' ps ps' [->|(_ & Hk & _)] _ IH]; [done|..];
    rewrite !fmap_cons; by f_equal.
Qed.

Lemma admitted_steps_left ps ps' : Forall2 admitted ps ps' → steps_left ps' = steps_left ps.
Proof.
  induction 1 as [|en en' ps ps' [->|(Hq & _ & i & Hi)] _ IH]; [done|..]; simpl.
  - by rewrite IH.
  - by rewrite Hq, Hi, IH.
Qed.

Lemma admitted_rejected ps ps' k w i err :
  Forall2 admitted ps ps' → (k, w, Rejected i err) ∈ ps → (k, w, Rejected i err) ∈ ps'.
Proof.
  induction 1 as [|en en' ps ps' Hadm _ IH]; [done|].
  rewrite !elem_of_cons. intros [<-|Hin]; [|right; by apply IH].
  left. by destruct Hadm as [->|(Hq & _)].
Qed.

Lemma dequeue_spec st0 infos promises :
  ∀ pre evs active,
    Good o e (commandCount st0) (pre ++ promises) evs infos →
    Forall (λ en, en.2 ≠ Queued) pre →
    active = in_flight (pre ++ promises) →
    ∃ promises' evs',
      dequeue o e active promises (view st0 (pre ++ promises) evs infos)
        = (Returns promises', view st0 (pre ++ promises') evs' infos) ∧
      Good o e (commandCount st0) (pre ++ promises') evs' infos ∧
      Forall2 admitted promises promises' ∧
      greedy o e (pre ++ promises').
Proof.
  induction promises as [|[[k w] p] promises IH]; intros pre evs active Hgood Hpre Hactive.
  - exists [], evs. split; [done|]. split; [done|]. split; [constructor|].
    intros (en & Hin & Hq). rewrite app_nil_r in Hin.
    rewrite Forall_forall in Hpre. by apply Hpre in Hin.
  - assert (Hsnoc : ∀ (x : Entry) rest, (pre ++ x :: rest = (pre ++ [x]) ++ rest)%list).
    { intros x rest. by rewrite <- app_assoc. }
    destruct p as [|i at_|i c|i err].
    + cbn [dequeue]. destruct (admits o e active) eqn:Hadm.
      * subst active.
        destruct (begin_step st0 pre k w promises evs infos Hgood Hpre Hadm)
          as (i & Hbegin & Hgood').
        rewrite Hsnoc in Hgood'.
        destruct (IH (pre ++ [(k, w, InFlight i AwaitRun)])%list
                     (evs ++ begin_events o e w i)%list
                     (S (in_flight (pre ++ (k, w, Queued) :: promises))) Hgood')
          as (promises' & evs' & Hadmit & Hgood'' & Hall & Hgreedy).
        { apply Forall_app. split; [done|]. by constructor. }
        { rewrite <- Hsnoc, !in_flight_middle. simpl. lia. }
        exists ((k, w, InFlight i AwaitRun) :: promises'), evs'.
        rewrite (Hsnoc (k, w, InFlight i AwaitRun) promises').
        split; [|split; [done|]; split; [|done]].
        { unfold bind. rewrite Hbegin. cbv beta iota.
          rewrite (Hsnoc (k, w, InFlight i AwaitRun) promises), Hadmit. done. }
        constructor; [|done]. right. split; [done|]. split; [done|]. by exists i.
      * exists ((k, w, Queued) :: promises), evs. split; [done|]. split; [done|].
        split; [apply admitted_refl|]. intros _. by subst active.
    + cbn [dequeue]. rewrite Hsnoc in Hgood.
      destruct (IH (pre ++ [(k, w, InFlight i at_)])%list evs active Hgood)
        as (promises' & evs' & Hadmit & Hgood' & Hall & Hgreedy).
      { apply Forall_app. split; [done|]. by constructor. }
      { by rewrite <- Hsnoc. }
      exists ((k, w, InFlight i at_) :: promises'), evs'.
      rewrite (Hsnoc _ promises), (Hsnoc _ promises').
      split; [|split; [done|]; split; [|done]].
      { unfold bind. rewrite Hadmit. done. }
      constructor; [by left|done].
    + cbn [dequeue]. rewrite Hsnoc in Hgood.
      destruct (IH (pre ++ [(k, w, Fulfilled i c)])%list evs active Hgood)
        as (promises' & evs' & Hadmit & Hgood' & Hall & Hgreedy).
      { apply Forall_app. split; [done|]. by constructor. }
      { by rewrite <- Hsnoc. }
      exists ((k, w, Fulfilled i c) :: promises'), evs'.
      rewrite (Hsnoc _ promises), (Hsnoc _ promises').
      split; [|split; [done|]; split; [|done]].
      { unfold bind. rewrite Hadmit. done. }
      constructor; [by left|done].
    + cbn [dequeue]. rewrite Hsnoc in Hgood.
      destruct (IH (pre ++ [(k, w, Rejected i err)])%list evs active Hgood)
        as (promises' & evs' & Hadmit & Hgood' & Hall & Hgreedy).
      { apply Forall_app. split; [done|]. by constructor. }
      { by rewrite <- Hsnoc. }
      exists ((k, w, Rejected i err) :: promises'), evs'.
      rewrite (Hsnoc _ promises), (Hsnoc _ promises').
      split; [|split; [done|]; split; [|done]].
      { unfold bind. rewrite Hadmit. done. }
      constructor; [by left|done].
Qed.

(** *** A task in flight goes on *)

Lemma resume_nth_spec promises :
  ∀ n, n < in_flight promises →
    ∃ ps1 k w i at_ ps2,
      promises = (ps1 ++ (k, w, InFlight i at_) :: ps2)%list ∧
      ∀ st, resume_nth o e n promises st =
            (Returns (ps1 ++ (k, w, resumed e w i at_) :: ps2)%list,
             (resume o e k w i at_ st).2).
Proof.
  induction promises as [|[[k w] p] promises IH]; intros n Hn; [simpl in Hn; lia|].
  assert (Hrest : ∀ m, m < in_flight promises →
            (∀ st, resume_nth o e n ((k, w, p) :: promises) st =
                   match resume_nth o e m promises st with
                   | (Returns ps, st') => (Returns ((k, w, p) :: ps), st')
                   | (Throws err, st') => (Throws err, st')
                   | (OutOfFuel, st') => (OutOfFuel, st')
                   end) →
            ∃ ps1 k' w' i at_ ps2,
              ((k, w, p) :: promises = ps1 ++ (k', w', InFlight i at_) :: ps2)%list ∧
              ∀ st, resume_nth o e n ((k, w, p) :: promises) st =
                    (Returns (ps1 ++ (k', w', resumed e w' i at_) :: ps2)%list,
                     (resume o e k' w' i at_ st).2)).
  { intros m Hm Heq.
    destruct (IH m Hm) as (ps1 & k' & w' & i' & at' & ps2 & -> & Hres).
    exists ((k, w, p) :: ps1), k', w', i', at', ps2. split; [done|]. intros st.
    by rewrite Heq, Hres. }
  destruct p as [|i at_|i c|i err]; simpl in Hn.
  - apply (Hrest n); [lia|]. intros st. cbn [resume_nth]. unfold bind, ret.
    by destruct (resume_nth o e n promises st) as [[]].
  - destruct n as [|n].
    + exists [], k, w, i, at_, promises. split; [done|]. intros st.
      cbn [resume_nth]. unfold bind. rewrite resume_spec. done.
    + apply (Hrest n); [lia|]. intros st. cbn [resume_nth]. unfold bind, ret.
      by destruct (resume_nth o e n promises st) as [[]].
  - apply (Hrest n); [lia|]. intros st. cbn [resume_nth]. unfold bind, ret.
    by destruct (resume_nth o e n promises st) as [[]].
  - apply (Hrest n); [lia|]. intros st. cbn [resume_nth]. unfold bind, ret.
    by destruct (resume_nth o e n promises st) as [[]].
Qed.

Lemma remaining_resumed w i at_ :
  S (remaining (resumed e w i at_)) = remaining (InFlight i at_).
Proof. destruct at_; simpl; [done..|]. by destruct (exec_result _). Qed.

Lemma steps_left_middle ps1 k w p ps2 :
  steps_left (ps1 ++ (k, w, p) :: ps2) = steps_left ps1 + remaining p + steps_left ps2.
Proof. rewrite steps_left_app. simpl. lia. Qed.

Lemma not_settled_in_flight ps :
  forallb (λ en : Entry, is_settled en.2) ps = false →
  in_flight ps = 0 →
  ∃ en, en ∈ ps ∧ en.2 = Queued.
Proof.
  induction ps as [|[[k w] p] ps IH]; [done|]. simpl.
  destruct p; simpl; try lia.
  - intros _ _. eexists. split; [left|done].
  - intros H1 H2. destruct (IH H1 H2) as (en & Hin & Hq). exists en. split; [by right|done].
  - intros H1 H2. destruct (IH H1 H2) as (en & Hin & Hq). exists en. split; [by right|done].
Qed.

Lemma rejection_step ps ps' rejection :
  rejection_of ps rejection →
  (∀ k w i err, (k, w, Rejected i err) ∈ ps → (k, w, Rejected i err) ∈ ps') →
  rejection_of ps' (match rejection with Some _ => rejection | None => rejected ps' end).
Proof.
  intros Hrej Hmono. destruct rejection as [err|]; simpl in *.
  - destruct Hrej as (k & w & i & Hin). exists k, w, i. by apply Hmono.
  - destruct (rejected ps') as [err|] eqn:Hr; simpl; [by apply rejected_Some|done].
Qed.

(** *** Until every promise has settled *)

Lemma settle_spec st0 fuel :
  ∀ promises rejection evs infos,
    Good o e (commandCount st0) promises evs infos →
    greedy o e promises →
    steps_left promises ≤ fuel →
    rejection_of promises rejection →
    ∃ promises' evs' infos',
      (settle o e fuel promises rejection (view st0 promises evs infos)).2
        = view st0 promises' evs' infos' ∧
      Good o e (commandCount st0) promises' evs' infos' ∧
      promises'.*1 = promises.*1 ∧
      Forall (λ en, is_settled en.2 = true) promises' ∧
      match (settle o e fuel promises rejection (view st0 promises evs infos)).1 with
      | Returns codes => rejected promises' = None ∧ codes = exitCodes promises'
      | Throws err => ∃ k w i, (k, w, Rejected i err) ∈ promises'
      | OutOfFuel => False
      end.
Proof.
  induction fuel as [|fuel IH]; intros promises rejection evs infos Hgood Hgreedy Hsteps Hrej.
  - assert (Hall : forallb (λ en : Entry, is_settled en.2) promises = true)
      by (apply steps_left_settled; lia).
    cbn [settle]. rewrite Hall. exists promises, evs, infos.
    destruct rejection as [err|]; simpl; repeat (split; [by rewrite <- ?forallb_settled|]);
      done.
  - destruct (forallb (λ en : Entry, is_settled en.2) promises) eqn:Hall.
    { cbn [settle]. rewrite Hall. exists promises, evs, infos.
      destruct rejection as [err|]; simpl; repeat (split; [by rewrite <- ?forallb_settled|]);
        done. }
    assert (Hflight : in_flight promises ≠ 0).
    { intros Hzero. pose proof (not_settled_in_flight _ Hall Hzero) as Hq.
      apply Hgreedy in Hq. rewrite Hzero, admits_none in Hq. done. }
    destruct (resume_nth_spec promises
                (settles e (events (view st0 promises evs infos)) mod in_flight promises))
      as (ps1 & k & w & i & at_ & ps2 & Hsplit & Hres).
    { by apply Nat.mod_upper_bound. }
    rewrite Hsplit in Hgood.
    destruct (resume_step st0 ps1 k w i at_ ps2 evs infos Hgood) as (infos1 & Hresume & Hgood1).
    destruct (dequeue_spec st0 infos1 (ps1 ++ (k, w, resumed e w i at_) :: ps2)%list []
                (evs ++ resumed_events i at_)%list
                (in_flight (ps1 ++ (k, w, resumed e w i at_) :: ps2)) Hgood1)
      as (promises2 & evs2 & Hadmit & Hgood2 & Hadm & Hgreedy2); [done|done|].
    cbn [app] in Hadmit, Hgood2, Hgreedy2.
    assert (Heq : settle o e (S fuel) promises rejection (view st0 promises evs infos) =
                  settle o e fuel promises2
                    (match rejection with Some _ => rejection | None => rejected promises2 end)
                    (view st0 promises2 evs2 infos1)).
    { cbn [settle]. rewrite Hall. unfold bind, get. rewrite Hres.
      rewrite Hsplit, Hresume. cbn [snd]. rewrite Hadmit. done. }
    rewrite Heq.
    destruct (IH promises2
                 (match rejection with Some _ => rejection | None => rejected promises2 end)
                 evs2 infos1 Hgood2 Hgreedy2)
      as (promises' & evs' & infos' & Hst & Hgood' & Hkeys & Hsettled & Hout).
    { rewrite (admitted_steps_left _ _ Hadm), steps_left_middle.
      rewrite Hsplit, steps_left_middle in Hsteps.
      pose proof (remaining_resumed w i at_). lia. }
    { apply (rejection_step _ _ _ Hrej). intros k' w' i' err' Hin.
      apply (admitted_rejected _ _ _ _ _ _ Hadm).
      rewrite Hsplit in Hin. rewrite elem_of_app, elem_of_cons in *.
      destruct Hin as [?|[[=]|?]]; auto. }
    exists promises', evs', infos'. split; [done|]. split; [done|]. split; [|done].
    rewrite Hkeys, (admitted_keys _ _ Hadm), Hsplit, !fmap_app, !fmap_cons. done.
Qed.

(** *** A round that has been awaited *)

Lemma filter_all {A} (P : A → Prop) `{∀ x, Decision (P x)} (l : list A) :
  (∀ x, x ∈ l → P x) → filter P l = l.
Proof.
  induction l as [|x l IH]; intros Hall; [done|].
  rewrite filter_cons_True by (apply Hall; left).
  f_equal. apply IH. intros y Hy. apply Hall. by right.
Qed.

Lemma queued_started (ds : list (LocatorHash * Workspace)) :
  started_tasks (map (λ kw, (kw.1, kw.2, Queued)) ds) = [] ∧
  fulfilled (map (λ kw, (kw.1, kw.2, Queued)) ds) = [] ∧
  in_flight (map (λ kw, (kw.1, kw.2, Queued)) ds) = 0 ∧
  steps_left (map (λ kw, (kw.1, kw.2, Queued)) ds) = 3 * length ds ∧
  (map (λ kw, (kw.1, kw.2, Queued)) ds).*1 = ds ∧
  Forall (λ en : Entry, en.2 = Queued) (map (λ kw, (kw.1, kw.2, Queued)) ds).
Proof.
  induction ds as [|[k w] ds (IH1 & IH2 & IH3 & IH4 & IH5 & IH6)]; [done|].
  split; [|split; [|split; [|split; [|split]]]].
  - unfold started_tasks in *. simpl. exact IH1.
  - unfold fulfilled in *. simpl. exact IH2.
  - simpl. exact IH3.
  - cbn [map steps_left snd remaining length]. rewrite IH4. lia.
  - cbn [map]. rewrite fmap_cons. cbn [fst snd]. by rewrite IH5.
  - by constructor.
Qed.

Lemma view_initial st (ds : list (LocatorHash * Workspace)) :
  view st (map (λ kw, (kw.1, kw.2, Queued)) ds) [] [] = st.
Proof.
  destruct (queued_started ds) as (Hs & Hf & _).
  unfold view. rewrite Hs, Hf. destruct st as [needs proc count [errs infos] evs].
  cbn [needsProcessing processing commandCount report events report_errors report_infos
       fmap list_fmap length].
  rewrite !app_nil_r, Nat.add_0_r. f_equal.
  - apply filter_all. intros kv _. apply not_elem_of_nil.
  - set_solver.
Qed.

Lemma queued_infos ps :
  Forall (λ en : Entry, en.2 = Queued) ps → flat_map (promise_infos o e) ps = [].
Proof.
  induction 1 as [|[[k w] p] ps Hp _ IH]; [done|]. simpl in Hp. subst p. done.
Qed.

Lemma Good_initial count (ds : list (LocatorHash * Workspace)) :
  Good o e count (map (λ kw, (kw.1, kw.2, Queued)) ds) [] [].
Proof.
  destruct (queued_started ds) as (Hs & Hf & Hi & _ & _ & Hq).
  split.
  - destruct ds as [|[k w] ds]; [done|]. simpl. by inversion Hq.
  - eapply Forall_impl; [exact Hq|]. intros [[k w] p]. simpl. by intros ->.
  - constructor. apply Forall_fmap. eapply Forall_impl; [exact Hq|].
    intros [[k w] p]. simpl. by intros ->.
  - by rewrite Hs.
  - by rewrite queued_infos.
  - by rewrite Hi.
  - apply Bounded_nil.
Qed.

Lemma admitted_not_rejected ps ps' :
  Forall (λ en : Entry, en.2 = Queued) ps → Forall2 admitted ps ps' → rejected ps' = None.
Proof.
  intros Hq Hadm. induction Hadm as [|[[k w] p] [[k' w'] p'] ps ps' Hen _ IH]; [done|].
  inversion Hq as [|?? Hp Hq']. simpl in Hp. subst.
  destruct Hen as [[= -> -> ->]|(_ & _ & i & Hi)]; simpl in *; [by apply IH|].
  subst p'. by apply IH.
Qed.

Lemma settled_in_flight ps :
  Forall (λ en : Entry, is_settled en.2 = true) ps → in_flight ps = 0.
Proof.
  induction 1 as [|[[k w] p] ps Hp _ IH]; [done|].
  destruct p; simpl in *; try done; exact IH.
Qed.

Lemma settled_events ps :
  Forall (λ en : Entry, is_settled en.2 = true) ps →
  promise_events o e <$> ps = (λ s, task_events o e s.2 s.1) <$> started_tasks ps.
Proof.
  induction 1 as [|[[k w] p] ps Hp _ IH]; [done|].
  rewrite fmap_cons, IH. by destruct p.
Qed.

Lemma settled_infos ps :
  Forall (λ en : Entry, is_settled en.2 = true) ps → Forall (sound e) ps →
  flat_map (promise_infos o e) ps
  = flat_map (λ s, task_infos o e s.2 s.1) (started_tasks ps).
Proof.
  induction 1 as [|[[k w] p] ps Hp _ IH]; [done|].
  intros Hs. inversion Hs as [|?? Hen Hs']. subst.
  unfold sound in Hen. cbn [flat_map]. rewrite (IH Hs').
  destruct p; simpl in *; try done.
  destruct Hen as (x & Hx & _). unfold task_infos. by rewrite Hx.
Qed.

Lemma settled_fulfilled ps :
  Forall (λ en : Entry, is_settled en.2 = true) ps → Forall (sound e) ps →
  rejected ps = None →
  exitCodes ps = exit_of e <$> started_tasks ps ∧
  Forall (returned e) (started_tasks ps) ∧
  fulfilled ps = ps.*1.
Proof.
  induction 1 as [|[[k w] p] ps Hp _ IH]; [done|].
  intros Hs Hrej. inversion Hs as [|?? Hen Hs']. subst.
  unfold sound in Hen. destruct p; simpl in *; try done.
  destruct (IH Hs' Hrej) as (IH1 & IH2 & IH3).
  destruct Hen as (code & Hx & ->).
  unfold exitCodes, started_tasks, fulfilled in *. cbn [omap fst snd fmap list_fmap].
  rewrite IH1, IH3. split; [|split; [|done]].
  - f_equal. unfold exit_of. simpl. by rewrite Hx.
  - constructor; [|done]. by exists code.
Qed.

Lemma settled_rejected ps k w i err :
  Forall (sound e) ps →
  (k, w, Rejected i err) ∈ ps →
  ∃ x, (i, w) ∈ started_tasks ps ∧
       exec_result (clipanion_run e i w) = Raised x ∧ err = ExecutorError x.
Proof.
  intros Hsound Hin. rewrite Forall_forall in Hsound.
  destruct (Hsound _ Hin) as (x & Hx & ->).
  exists x. split; [|done]. unfold started_tasks. apply list_elem_of_omap.
  by exists (k, w, Rejected i (ExecutorError x)).
Qed.

(** What a round that was awaited has done. The state it leaves does
    not depend on the order in which the tasks moved, but for the order
    of the events of different tasks, that of the info messages, and
    which error is thrown when more than one executor raised. *)
Lemma awaitAll_settles (ds : list (LocatorHash * Workspace)) st :
  ∃ evs infos,
    (awaitAll o e ds st).2 =
      mkState (filter (λ kv, kv.1 ∉ (returning e (commandCount st) ds).*1)
                      (needsProcessing st))
              (processing st ∖
                 list_to_set (dh <$> (returning e (commandCount st) ds).*2))
              (commandCount st + length ds)
              (mkReport (report_errors (report st)) (report_infos (report st) ++ infos))
              (events st ++ evs) ∧
    spawns evs = numbered (commandCount st) ds ∧
    Interleaving ((λ s, task_events o e s.2 s.1) <$> numbered (commandCount st) ds) evs ∧
    infos ≡ₚ flat_map (λ s, task_infos o e s.2 s.1) (numbered (commandCount st) ds) ∧
    length (finishes evs) = length (spawns evs) ∧
    Bounded o e evs ∧
    match (awaitAll o e ds st).1 with
    | Returns codes =>
        returning e (commandCount st) ds = ds ∧
        codes = exit_of e <$> numbered (commandCount st) ds ∧
        Forall (returned e) (numbered (commandCount st) ds)
    | Throws err =>
        ∃ s x, s ∈ numbered (commandCount st) ds ∧
               exec_result (clipanion_run e s.1 s.2) = Raised x ∧
               err = ExecutorError x
    | OutOfFuel => False
    end.
Proof.
  destruct (queued_started ds) as (_ & _ & Hflight & Hsteps & Hkeys & Hq).
  set (queued := map (λ kw, (kw.1, kw.2, Queued)) ds) in *.
  destruct (dequeue_spec st [] queued [] [] 0 (Good_initial _ ds))
    as (promises1 & evs1 & Hadmit & Hgood1 & Hadm & Hgreedy1); [done|done|].
  cbn [app] in Hadmit, Hgood1, Hgreedy1. subst queued. rewrite view_initial in Hadmit.
  assert (Heq : awaitAll o e ds st =
                settle o e (3 * length ds) promises1 None (view st promises1 evs1 [])).
  { unfold awaitAll, bind. by rewrite Hadmit. }
  rewrite Heq.
  destruct (settle_spec st (3 * length ds) promises1 None evs1 [] Hgood1 Hgreedy1)
    as (promises' & evs & infos & Hst & Hgood & Hkeys' & Hsettled & Hout).
  { by rewrite (admitted_steps_left _ _ Hadm), Hsteps. }
  { by apply (admitted_not_rejected _ _ Hq). }
  rewrite (admitted_keys _ _ Hadm), Hkeys in Hkeys'.
  destruct Hgood as [Ho Hs Ht Hsp Hin Hl Hb].
  assert (Hstarted : started_tasks promises' = numbered (commandCount st) ds).
  { rewrite (in_order_started _ _ Ho Hsettled), Hkeys'. unfold numbered.
    by rewrite <- Hkeys', !length_fmap. }
  exists evs, infos. rewrite Hst. split; [|split; [|split; [|split; [|split; [|split]]]]].
  - unfold view. rewrite (fulfilled_returning _ _ Ho Hsettled Hs), Hkeys', Hstarted.
    unfold numbered. by rewrite length_zip, length_seq, length_fmap, Nat.min_id.
  - by rewrite Hsp.
  - by rewrite <- Hstarted, <- settled_events.
  - by rewrite Hin, settled_infos, Hstarted.
  - rewrite settled_in_flight in Hl by done. lia.
  - done.
  - destruct (settle o e (3 * length ds) promises1 None (view st promises1 evs1 [])).1
      as [codes|err|]; [| |done].
    + destruct Hout as [Hrej ->].
      destruct (settled_fulfilled _ Hsettled Hs Hrej) as (Hcodes & Hret & Hful).
      rewrite <- Hstarted. split; [|done].
      pose proof (fulfilled_returning _ _ Ho Hsettled Hs) as Hfr.
      rewrite Hful, Hkeys' in Hfr. done.
    + destruct Hout as (k & w & i & Hin').
      destruct (settled_rejected _ _ _ _ _ Hs Hin') as (x & Hi & Hx & ->).
      exists (i, w), x. by rewrite <- Hstarted.
Qed.
End Gate.


Section Pending.
Variable o : ForeachOptions.
Variable e : Env.

Local Abbreviation dh := anchoredDescriptor_descriptorHash.
Local Abbreviation lh := anchoredLocator_locatorHash.

Lemma elem_of_map_delete kw k (m : list (LocatorHash * Workspace)) :
  kw ∈ map_delete k m ↔ kw ∈ m ∧ kw.1 ≠ k.
Proof. unfold map_delete. rewrite list_elem_of_filter. tauto. Qed.

Lemma map_delete_sublist k (m : list (LocatorHash * Workspace)) :
  map_delete k m `sublist_of` m.
Proof. apply sublist_filter. Qed.

(** ** The scan *)

Lemma deps_loop_spec needs resolved :
  deps_loop e needs resolved true = true ↔
  ∀ d w, d ∈ resolved.*2 → w ∈ findWorkspacesByDescriptor (project e) d →
         lh w ∉ needs.*1.
Proof.
  induction resolved as [|[i d] resolved IH]; simpl.
  - split; [|done]. intros _ d w Hd. by apply elem_of_nil in Hd.
  - destruct (existsb _ _) eqn:Hex; simpl.
    + split; [done|]. intros H.
      apply existsb_exists in Hex as (w & Hw & Hhas).
      unfold map_has in Hhas. apply bool_decide_eq_true in Hhas.
      exfalso. eapply H; [left|apply list_elem_of_In; exact Hw|exact Hhas].
    + rewrite IH. split.
      * intros H d' w [->|Hd]%elem_of_cons Hw; [|eauto].
        intros Hin. apply not_true_iff_false in Hex. apply Hex.
        apply existsb_exists. exists w. split; [by apply list_elem_of_In|].
        unfold map_has. by apply bool_decide_eq_true.
      * intros H d' w Hd. apply H. by right.
Qed.

(** Runnable, as the specification words it: in a topological mode no
    workspace that resolves one of the relevant descriptors is pending. *)
Lemma isRunnable_spec needs w :
  isRunnable o e needs w = true ↔
  (topological_mode o = true →
   ∀ d w', d ∈ (resolvedSet o w).*2 →
           w' ∈ findWorkspacesByDescriptor (project e) d →
           lh w' ∉ needs.*1).
Proof.
  unfold isRunnable, topological_mode.
  destruct (topological o || topologicalDev o).
  - rewrite deps_loop_spec. split; [intros H _; exact H|intros H; by apply H].
  - split; [done|auto].
Qed.

Lemma scan_sublist needs entries proc :
  (scan o e needs entries proc).1 `sublist_of` entries.
Proof.
  revert proc. induction entries as [|[k w] entries IH]; intros proc; simpl.
  - done.
  - destruct (bool_decide _); [by apply sublist_cons|].
    destruct (negb _); [by apply sublist_cons|].
    destruct (negb (parallel o)).
    + simpl. apply sublist_skip, sublist_nil_l.
    + specialize (IH (proc ∪ {[dh w]})).
      destruct (scan o e needs entries _) as [ds proc']. simpl in *.
      by apply sublist_skip.
Qed.

Lemma scan_processing needs entries proc :
  (scan o e needs entries proc).2
  = proc ∪ list_to_set (dh <$> (scan o e needs entries proc).1.*2).
Proof.
  revert proc. induction entries as [|[k w] entries IH]; intros proc; simpl.
  - set_solver.
  - destruct (bool_decide _); [apply IH|].
    destruct (negb _); [apply IH|].
    destruct (negb (parallel o)).
    + simpl. set_solver.
    + specialize (IH (proc ∪ {[dh w]})).
      destruct (scan o e needs entries _) as [ds proc']. simpl in *.
      rewrite IH. set_solver.
Qed.

Lemma scan_runnable needs entries proc kw :
  kw ∈ (scan o e needs entries proc).1 → isRunnable o e needs kw.2 = true.
Proof.
  revert proc. induction entries as [|[k w] entries IH]; intros proc; simpl.
  - intros H. by apply elem_of_nil in H.
  - destruct (bool_decide _); [apply IH|].
    destruct (isRunnable o e needs w) eqn:Hr; simpl; [|apply IH].
    destruct (negb (parallel o)).
    + simpl. intros ->%list_elem_of_singleton. done.
    + specialize (IH (proc ∪ {[dh w]})).
      destruct (scan o e needs entries _) as [ds proc']. simpl in *.
      intros [->|H]%elem_of_cons; auto.
Qed.

(** A pending entry that a scan passes over is being processed or not
    runnable, unless the scan stopped before it. *)
Lemma scan_finds needs entries proc kw :
  kw ∈ entries → eligible o e needs proc kw →
  (scan o e needs entries proc).1 ≠ [].
Proof.
  revert proc. induction entries as [|[k w] entries IH]; intros proc Hin [Hp Hr].
  - by apply elem_of_nil in Hin.
  - simpl. destruct (bool_decide (dh w ∈ proc)) eqn:Hw.
    + apply bool_decide_eq_true in Hw.
      apply elem_of_cons in Hin as [->|Hin]; [done|]. by apply IH.
    + destruct (isRunnable o e needs w) eqn:Hrw; simpl.
      * destruct (negb (parallel o)); [done|].
        destruct (scan o e needs entries _) as [ds proc']. done.
      * apply elem_of_cons in Hin as [->|Hin]; [simpl in Hr; congruence|]. by apply IH.
Qed.

Lemma scan_sequential needs entries proc :
  parallel o = false →
  (scan o e needs entries proc).1 = take 1 (filter (eligible o e needs proc) entries).
Proof.
  intros Hpar. induction entries as [|[k w] entries IH]; simpl; [done|].
  unfold eligible at 1. rewrite filter_cons. simpl.
  destruct (bool_decide (dh w ∈ proc)) eqn:Hw.
  - apply bool_decide_eq_true in Hw. rewrite decide_False by tauto. apply IH.
  - apply bool_decide_eq_false in Hw.
    destruct (isRunnable o e needs w) eqn:Hr; simpl.
    + rewrite decide_True by done. rewrite Hpar. done.
    + rewrite decide_False by (intros [_ ?]; congruence). apply IH.
Qed.
End Pending.

(** ** The round loop *)

Lemma sublist_missing_length {A} (l1 l2 : list A) x :
  l1 `sublist_of` l2 → x ∈ l2 → x ∉ l1 → length l1 < length l2.
Proof.
  induction 1 as [|y l1 l2 Hs IH|y l1 l2 Hs IH]; intros Hin Hnot; simpl.
  - by apply elem_of_nil in Hin.
  - apply not_elem_of_cons in Hnot as [Hne Hnot].
    apply elem_of_cons in Hin as [->|Hin]; [done|]. specialize (IH Hin Hnot). lia.
  - apply sublist_length in Hs. lia.
Qed.

Section Rounds.
Variable o : ForeachOptions.
Variable e : Env.

Local Abbreviation dh := anchoredDescriptor_descriptorHash.
Local Abbreviation lh := anchoredLocator_locatorHash.
Local Abbreviation scanned st :=
  (scan o e (needsProcessing st) (needsProcessing st) (processing st)).

Lemma round_eq st :
  round o e st =
  let st1 := (set_processing (scanned st).2 st).2 in
  match (scanned st).1 with
  | [] => (Returns false,
           (reportError CYCLIC_DEPENDENCIES (cycle_message e (needsProcessing st)) st1).2)
  | _ =>
      match awaitAll o e (scanned st).1 st1 with
      | (Returns codes, st2) =>
          (Returns true,
           if topological_mode o && any_nonzero codes
           then (reportError UNNAMED propagation_message st2).2 else st2)
      | (Throws err, st2) => (Throws err, st2)
      | (OutOfFuel, st2) => (OutOfFuel, st2)
      end
  end.
Proof.
  unfold round, bind, get, topological_mode. cbn beta iota.
  destruct (scanned st) as [[|d ds] proc]; cbn beta iota; [done|].
  unfold set_processing, modify. cbn [fst snd].
  match goal with |- context [awaitAll o e (d :: ds) ?s] =>
    destruct (awaitAll o e (d :: ds) s) as [[codes|err|] st2] end; [|done..].
  destruct (_ && _); done.
Qed.

Lemma rounds_eq fuel st :
  rounds o e fuel st =
  match needsProcessing st with
  | [] => (Returns (), st)
  | _ =>
      if hasErrors (report st) then (Returns (), st)
      else
        match fuel with
        | O => (OutOfFuel, st)
        | S fuel' =>
            match round o e st with
            | (Returns true, st') => rounds o e fuel' st'
            | (Returns false, st') => (Returns (), st')
            | (Throws err, st') => (Throws err, st')
            | (OutOfFuel, st') => (OutOfFuel, st')
            end
        end
  end.
Proof.
  destruct fuel; simpl; [done|].
  destruct (needsProcessing st); [done|].
  destruct (hasErrors (report st)); [done|].
  unfold bind. destruct (round o e st) as [[[]|err|] st']; done.
Qed.

(** The loop either stops at one of its two tests or goes through a
    round. *)
Lemma rounds_cases fuel st :
  ((needsProcessing st = [] ∨ hasErrors (report st) = true) ∧
   rounds o e fuel st = (Returns (), st)) ∨
  (needsProcessing st ≠ [] ∧ hasErrors (report st) = false ∧
   rounds o e fuel st =
   match fuel with
   | O => (OutOfFuel, st)
   | S fuel' =>
       match round o e st with
       | (Returns true, st') => rounds o e fuel' st'
       | (Returns false, st') => (Returns (), st')
       | (Throws err, st') => (Throws err, st')
       | (OutOfFuel, st') => (OutOfFuel, st')
       end
   end).
Proof.
  rewrite rounds_eq.
  destruct (needsProcessing st) as [|kw needs]; [left; auto|].
  destruct (hasErrors (report st)); [left; auto|].
  right. done.
Qed.

(** A round whose scan hands nothing to the gate reports the cycle and
    returns, leaving everything else as it was. *)
Lemma round_cycle st :
  (scanned st).1 = [] →
  round o e st =
  (Returns false,
   mkState (needsProcessing st) (processing st) (commandCount st)
           (mkReport (report_errors (report st) ++
                        [(CYCLIC_DEPENDENCIES, cycle_message e (needsProcessing st))])
                     (report_infos (report st)))
           (events st)).
Proof.
  intros Hnil. rewrite round_eq.
  pose proof (scan_processing o e (needsProcessing st) (needsProcessing st) (processing st)) as Hp.
  rewrite Hnil in *. simpl in *. rewrite Hp.
  unfold reportError, set_processing, modify. simpl.
  do 2 f_equal. set_solver.
Qed.

Lemma returning_sublist count (ds : list (LocatorHash * Workspace)) :
  returning e count ds `sublist_of` ds.
Proof.
  revert count. induction ds as [|[k w] ds IH]; intros count; [done|]. simpl.
  destruct (exec_result _); [by apply sublist_skip|by apply sublist_cons].
Qed.

Lemma numbered_workspaces count (ds : list (LocatorHash * Workspace)) :
  (numbered count ds).*2 = ds.*2 ∧
  (numbered count ds).*1 = seq (S count) (length ds) ∧
  length (numbered count ds) = length ds.
Proof.
  unfold numbered. split; [|split].
  - apply snd_zip. by rewrite length_seq, length_fmap.
  - apply fst_zip. by rewrite length_seq, length_fmap.
  - by rewrite length_zip, length_seq, length_fmap, Nat.min_id.
Qed.

(** The state in which a round whose scan hands tasks to the gate ends. *)
Lemma round_settles st :
  (scanned st).1 ≠ [] →
  ∃ evs infos,
    settled_trace o e (commandCount st) (scanned st).1 evs ∧
    infos ≡ₚ flat_map (λ s, task_infos o e s.2 s.1)
                      (numbered (commandCount st) (scanned st).1) ∧
    (round o e st).2 =
      mkState (filter (λ kv, kv.1 ∉ (returning e (commandCount st) (scanned st).1).*1)
                      (needsProcessing st))
              ((scanned st).2 ∖
                 list_to_set (dh <$> (returning e (commandCount st) (scanned st).1).*2))
              (commandCount st + length (scanned st).1)
              (mkReport
                 (report_errors (report st) ++
                  match (round o e st).1 with
                  | Returns _ =>
                      if topological_mode o &&
                         any_nonzero (exit_of e <$> numbered (commandCount st) (scanned st).1)
                      then [(UNNAMED, propagation_message)] else []
                  | _ => []
                  end)
                 (report_infos (report st) ++ infos))
              (events st ++ evs) ∧
    match (round o e st).1 with
    | Returns again =>
        again = true ∧
        returning e (commandCount st) (scanned st).1 = (scanned st).1 ∧
        Forall (returned e) (numbered (commandCount st) (scanned st).1)
    | Throws err =>
        ∃ s x, s ∈ numbered (commandCount st) (scanned st).1 ∧
               exec_result (clipanion_run e s.1 s.2) = Raised x ∧
               err = ExecutorError x
    | OutOfFuel => False
    end.
Proof.
  intros Hds. rewrite round_eq.
  destruct (scanned st) as [ds proc] eqn:Hscan. cbn [fst snd] in *.
  destruct ds as [|d ds]; [done|]. clear Hds.
  set (st1 := (set_processing proc st).2).
  destruct (awaitAll_settles o e (d :: ds) st1)
    as (evs & infos & Hst & Hsp & Hint & Hperm & Hfin & Hb & Hout).
  exists evs, infos. split; [done|]. split; [done|].
  destruct (awaitAll o e (d :: ds) st1) as [[codes|err|] st2]; cbn [fst snd] in *; [| |done].
  - destruct Hout as (Hret & -> & Hall). split; [|done].
    rewrite Hst. subst st1. unfold set_processing, modify. cbn [snd].
    destruct (topological_mode o && any_nonzero _); cbn; rewrite ?app_nil_r; done.
  - split; [|done]. rewrite Hst. subst st1. unfold set_processing, modify. cbn [snd].
    destruct st as [needs proc0 count [errs infos0] evs0]. cbn. by rewrite app_nil_r.
Qed.

(** A round whose scan hands tasks to the gate. *)
Lemma round_dispatch st :
  (scanned st).1 ≠ [] →
  ∃ evs (done : list LocatorHash),
    events (round o e st).2 = (events st ++ evs)%list ∧
    settled_trace o e (commandCount st) (scanned st).1 evs ∧
    done ⊆ (scanned st).1.*1 ∧
    (∀ kw, kw ∈ needsProcessing (round o e st).2 ↔
           kw ∈ needsProcessing st ∧ kw.1 ∉ done) ∧
    needsProcessing (round o e st).2 `sublist_of` needsProcessing st ∧
    match (round o e st).1 with
    | Returns again =>
        again = true ∧ done = (scanned st).1.*1 ∧
        (spawns evs).*2 = (scanned st).1.*2 ∧
        processing (round o e st).2 = processing st ∖ list_to_set (dh <$> (scanned st).1.*2) ∧
        report_errors (report (round o e st).2) =
          (report_errors (report st) ++
           if topological_mode o && any_nonzero (exit_of e <$> spawns evs)
           then [(UNNAMED, propagation_message)] else [])%list ∧
        Forall (returned e) (spawns evs)
    | Throws err =>
        report_errors (report (round o e st).2) = report_errors (report st) ∧
        ∃ i w x,
          (i, w) ∈ spawns evs ∧
          err = ExecutorError x ∧
          exec_result (clipanion_run e i w) = Raised x ∧
          (spawns evs).*2 = (scanned st).1.*2
    | OutOfFuel => False
    end.
Proof.
  intros Hds.
  pose proof (scan_processing o e (needsProcessing st) (needsProcessing st) (processing st)) as Hp.
  destruct (round_settles st Hds) as (evs & infos & Htrace & _ & Hst & Hout).
  pose proof Htrace as (Hsp & _).
  destruct (numbered_workspaces (commandCount st) (scanned st).1) as (Hws & _ & _).
  exists evs, (returning e (commandCount st) (scanned st).1).*1.
  rewrite Hst. cbn [events needsProcessing processing report report_errors].
  split; [done|]. split; [done|]. split.
  { intros k Hk. eapply elem_of_sublist; [exact Hk|].
    apply fmap_sublist, returning_sublist. }
  split. { intros kw. rewrite list_elem_of_filter. tauto. }
  split; [apply sublist_filter|].
  destruct (round o e st).1 as [again|err|]; [| |done].
  - destruct Hout as (-> & Hret & Hall). rewrite Hret, Hsp, Hws, Hp.
    repeat (split; [done|]). split; [set_solver|]. done.
  - destruct Hout as ([i w] & x & Hin & Hx & ->). rewrite app_nil_r. split; [done|].
    exists i, w, x. by rewrite Hsp, Hws.
Qed.

(** An invariant [I] of the rounds that go on yields [Q] at the end of
    the loop, whichever way it is left. *)
Lemma rounds_rule (I : State → Prop) (Q : Outcome unit → State → Prop) :
  (∀ st, I st →
         needsProcessing st = [] ∨ hasErrors (report st) = true →
         Q (Returns ()) st) →
  (∀ st, I st → needsProcessing st ≠ [] → hasErrors (report st) = false →
         match (round o e st).1 with
         | Returns true => I (round o e st).2
         | Returns false => Q (Returns ()) (round o e st).2
         | Throws err => Q (Throws err) (round o e st).2
         | OutOfFuel => True
         end) →
  ∀ fuel st, I st →
    match (rounds o e fuel st).1 with
    | OutOfFuel => True
    | out => Q out (rounds o e fuel st).2
    end.
Proof.
  intros Hexit Hstep. induction fuel as [|fuel IH]; intros st HI; rewrite rounds_eq.
  - destruct (needsProcessing st) eqn:Hn; [apply Hexit; auto|].
    destruct (hasErrors (report st)) eqn:He; [apply Hexit; auto|]. done.
  - destruct (needsProcessing st) eqn:Hn; [apply Hexit; auto|].
    destruct (hasErrors (report st)) eqn:He; [apply Hexit; auto|].
    specialize (Hstep st HI). rewrite Hn in Hstep. specialize (Hstep ltac:(done) He).
    destruct (round o e st) as [[[]|err|] st']; cbn [fst snd] in *; [by apply IH|done..].
Qed.

(** The loop ends within as many rounds as there are pending entries. *)
Lemma rounds_terminate fuel st :
  length (needsProcessing st) ≤ fuel →
  (rounds o e fuel st).1 ≠ OutOfFuel.
Proof.
  revert st. induction fuel as [|fuel IH]; intros st Hlen; rewrite rounds_eq.
  - destruct (needsProcessing st); simpl in *; [done|lia].
  - destruct (needsProcessing st) as [|kw needs] eqn:Hn; [done|].
    destruct (hasErrors (report st)); [done|].
    destruct (decide ((scanned st).1 = [])) as [Hnil|Hds].
    + by rewrite (round_cycle st Hnil).
    + destruct (round_dispatch st Hds) as (evs & done & _ & _ & _ & Hin & Hsl & Hout).
      destruct (round o e st) as [[again|err|] st']; simpl in *; [|done..].
      destruct Hout as (-> & -> & _). apply IH.
      assert (length (needsProcessing st') < length (needsProcessing st)); [|rewrite Hn in *; simpl in *; lia].
      destruct (scanned st).1 as [|[k w] ds] eqn:Hscan; [done|].
      assert (Hk : (k, w) ∈ needsProcessing st).
      { eapply elem_of_sublist; [|apply (scan_sublist o e (needsProcessing st))].
        rewrite Hscan. left. }
      apply (sublist_missing_length _ _ (k, w) Hsl Hk).
      rewrite Hin. intros [_ Hk']. apply Hk'. simpl. left.
Qed.
End Rounds.

(** ** Messages *)

Lemma append_assoc (s1 s2 s3 : string) : (s1 +:+ s2) +:+ s3 = s1 +:+ s2 +:+ s3.
Proof.
  induction s1 as [|c s1 IH]; [done|].
  change (String c ((s1 +:+ s2) +:+ s3) = String c (s1 +:+ s2 +:+ s3)).
  by rewrite IH.
Qed.

Lemma append_nil_r (s : string) : s +:+ "" = s.
Proof.
  induction s as [|c s IH]; [done|].
  change (String c (s +:+ "") = String c s). by rewrite IH.
Qed.

Lemma mentions_wrap text part before after :
  mentions text part → mentions (before +:+ text +:+ after) part.
Proof.
  intros (b & a & ->). exists (before +:+ b), (a +:+ after).
  by rewrite !append_assoc.
Qed.

Lemma mentions_concat {A} (f : A → string) sep (l : list A) x :
  x ∈ l → mentions (String.concat sep (map f l)) (f x).
Proof.
  induction l as [|y l IH]; intros Hin; [by apply elem_of_nil in Hin|].
  apply elem_of_cons in Hin as [->|Hin].
  - destruct l as [|z l]; simpl.
    + exists "", "". by rewrite append_nil_r.
    + exists "", (sep +:+ String.concat sep (f z :: map f l)). done.
  - destruct l as [|z l]; [by apply elem_of_nil in Hin|].
    change (String.concat sep (map f (y :: z :: l)))
      with (f y +:+ sep +:+ String.concat sep (map f (z :: l))).
    specialize (IH Hin).
    apply (mentions_wrap _ _ (f y +:+ sep) "") in IH.
    by rewrite append_nil_r, append_assoc in IH.
Qed.

Lemma cycle_message_mentions e needs kw :
  kw ∈ needs → mentions (cycle_message e needs) (prettyLocator e kw.2).
Proof.
  intros Hin. unfold cycle_message. apply mentions_wrap.
  apply (mentions_concat (prettyLocator e)). by apply list_elem_of_fmap_2.
Qed.

(** ** The action, once the selection is known *)

Lemma action_selected o e fuel workspaces :
  negb (all o) && negb (bool_decide (is_Some (cwdWorkspace e))) = false →
  commandPath e ≠ [] →
  selectWorkspaces o e fuel = Returns workspaces →
  action o e fuel initial =
  match rounds o e (length (seed workspaces [])) (seeded workspaces) with
  | (Returns _, st') => (Returns (exitCode (report st')), st')
  | (Throws err, st') => (Throws err, st')
  | (OutOfFuel, st') => (OutOfFuel, st')
  end.
Proof.
  intros Hctx Hpath Hsel. unfold action. rewrite Hctx, Hsel.
  destruct (commandPath e) as [|c cs]; [done|].
  unfold StreamReport_start, schedule, bind, get, set_needsProcessing, modify, ret.
  unfold seeded, initial.
  cbn beta iota delta [needsProcessing processing commandCount report events].
  destruct (rounds o e _ _) as [[[]|err|] st']; done.
Qed.

(** ** Eligibility under topological ordering *)

Lemma pending_value_unique (m : list (LocatorHash * Workspace)) k w w' :
  NoDup m.*1 → (k, w) ∈ m → (k, w') ∈ m → w = w'.
Proof.
  induction m as [|[k0 w0] m IH]; simpl; intros Hnd Hin Hin'.
  - by apply elem_of_nil in Hin.
  - apply NoDup_cons in Hnd as [Hk0 Hnd].
    apply elem_of_cons in Hin as [Heq|Hin];
      apply elem_of_cons in Hin' as [Heq'|Hin']; simplify_eq; auto.
    + exfalso. apply Hk0. by apply (list_elem_of_fmap_2 fst _ (k0, w')).
    + exfalso. apply Hk0. by apply (list_elem_of_fmap_2 fst _ (k0, w)).
Qed.

(** Whatever way a round ends, an entry that the scan did not hand to
    the gate is still in the pending map. *)
Lemma round_keeps o e st k w :
  NoDup (needsProcessing st).*1 →
  (k, w) ∈ needsProcessing st →
  (k, w) ∉ (scan o e (needsProcessing st) (needsProcessing st) (processing st)).1 →
  (k, w) ∈ needsProcessing (round o e st).2.
Proof.
  intros Hnd Hin Hnot.
  destruct (decide ((scan o e (needsProcessing st) (needsProcessing st) (processing st)).1 = []))
    as [Hnil|Hds].
  - by rewrite (round_cycle o e st Hnil).
  - destruct (round_dispatch o e st Hds) as (evs & done & _ & _ & Hsub & Hkeep & _).
    apply Hkeep. split; [done|]. simpl. intros Hk%Hsub.
    apply list_elem_of_fmap in Hk as ([k' w'] & Heq & Hd). simpl in Heq. subst k'.
    assert ((k, w') ∈ needsProcessing st) as Hin'
      by (eapply elem_of_sublist; [exact Hd|apply scan_sublist]).
    rewrite (pending_value_unique _ _ _ _ Hnd Hin Hin') in Hnot. done.
Qed.

(** C1: in a topological mode the scan hands a pending workspace to the
    gate, adding it to the processing set, only if no workspace that the
    resolver returns for a descriptor of the relevant set (the
    dependencies, with the devDependencies under topologicalDev) is in
    the pending map; a workspace with such a pending dependency is
    passed over and is still pending when the round is over. *)
Theorem C1_topological_eligibility o e st k w :
  topological_mode o = true →
  NoDup (needsProcessing st).*1 →
  (k, w) ∈ needsProcessing st →
  let scanned := scan o e (needsProcessing st) (needsProcessing st) (processing st) in
  resolvedSet o w =
    (if topologicalDev o
     then manifest_dependencies w ++ manifest_devDependencies w
     else manifest_dependencies w)%list ∧
  ((k, w) ∈ scanned.1 →
     anchoredDescriptor_descriptorHash w ∈ scanned.2 ∧
     ∀ d w', d ∈ (resolvedSet o w).*2 →
             w' ∈ findWorkspacesByDescriptor (project e) d →
             anchoredLocator_locatorHash w' ∉ (needsProcessing st).*1) ∧
  ((∃ d w', d ∈ (resolvedSet o w).*2 ∧
            w' ∈ findWorkspacesByDescriptor (project e) d ∧
            anchoredLocator_locatorHash w' ∈ (needsProcessing st).*1) →
     ((k, w) ∉ scanned.1) ∧ (k, w) ∈ needsProcessing (round o e st).2).
Proof.
  intros Htopo Hnd Hin scanned. split; [done|]. split.
  - intros Hd. split.
    + unfold scanned. rewrite scan_processing. apply elem_of_union_r.
      apply elem_of_list_to_set. apply list_elem_of_fmap_2.
      by apply (list_elem_of_fmap_2 snd _ (k, w)).
    + apply (scan_runnable o e _ _ _ (k, w)) in Hd. simpl in Hd.
      exact (proj1 (isRunnable_spec o e _ _) Hd Htopo).
  - intros (d & w' & Hd & Hw' & Hpend).
    assert ((k, w) ∉ scanned.1) as Hnot.
    { intros Hdisp. apply (scan_runnable o e _ _ _ (k, w)) in Hdisp. simpl in Hdisp.
      exact (proj1 (isRunnable_spec o e _ _) Hdisp Htopo d w' Hd Hw' Hpend). }
    split; [done|]. by apply round_keeps.
Qed.

Lemma C1_topological_eligibility_witness :
  let o := Scenarios.options "run" false true true in
  let e := Scenarios.failing_env (Scenarios.exits 0) in
  let st := seeded [Scenarios.A; Scenarios.B] in
  (("locator:B", Scenarios.B) ∉
    (scan o e (needsProcessing st) (needsProcessing st) (processing st)).1) ∧
  ("locator:B", Scenarios.B) ∈ needsProcessing (round o e st).2.
Proof.
  intros o e st.
  assert (Htopo : topological_mode o = true) by reflexivity.
  assert (Hnd : NoDup (needsProcessing st).*1)
    by (apply (bool_decide_unpack _); vm_compute; exact I).
  assert (Hin : ("locator:B", Scenarios.B) ∈ needsProcessing st)
    by (vm_compute; right; left).
  destruct (C1_topological_eligibility o e st "locator:B" Scenarios.B Htopo Hnd Hin)
    as (_ & _ & Hblocked).
  apply Hblocked. exists "A", Scenarios.A. vm_compute. repeat split; left.
Defined.

(** ** Cycles *)

(** C2: when the scan of a round hands nothing to the gate while the
    pending map is not empty, the loop reports the cyclic-dependency
    error, whose message names every pending workspace, and returns at
    once: the trace and the pending map are as they were, and the exit
    code of the report is not zero. For two workspaces that depend on
    each other, under topological ordering, the first scan is empty, the
    message names both, the action returns 1 and nothing was started. *)
Theorem C2_cycle_is_fatal :
  (∀ o e st fuel,
     needsProcessing st ≠ [] →
     hasErrors (report st) = false →
     (scan o e (needsProcessing st) (needsProcessing st) (processing st)).1 = [] →
     let end_ := rounds o e (S fuel) st in
     end_.1 = Returns () ∧
     report_errors (report end_.2) =
       [(CYCLIC_DEPENDENCIES, cycle_message e (needsProcessing st))] ∧
     (∀ kw, kw ∈ needsProcessing st →
            mentions (cycle_message e (needsProcessing st)) (prettyLocator e kw.2)) ∧
     events end_.2 = events st ∧
     needsProcessing end_.2 = needsProcessing st ∧
     exitCode (report end_.2) ≠ 0%Z) ∧
  (∀ par exec fuel,
     let o := Scenarios.options "run" false par true in
     let e := Scenarios.cycle_env exec in
     let st := seeded [Scenarios.X; Scenarios.Y] in
     let end_ := action o e (S (S fuel)) initial in
     (needsProcessing st).*2 = [Scenarios.X; Scenarios.Y] ∧
     (scan o e (needsProcessing st) (needsProcessing st) (processing st)).1 = [] ∧
     end_.1 = Returns 1%Z ∧
     report_errors (report end_.2) =
       [(CYCLIC_DEPENDENCIES, "Dependency cycle detected (X, Y)")] ∧
     spawns (events end_.2) = []).
Proof.
  split.
  - intros o e st fuel Hne Herr Hscan end_. subst end_.
    pose proof (round_cycle o e st Hscan) as Hround.
    rewrite rounds_eq, Herr, Hround.
    unfold hasErrors in Herr.
    destruct (needsProcessing st) as [|kw needs] eqn:Hn; [done|]. simpl.
    destruct (report_errors (report st)); [|done]. simpl.
    repeat split; try done.
    intros kw' Hin. by apply cycle_message_mentions.
  - intros [] exec fuel; vm_compute; repeat split.
Qed.

Lemma C2_cycle_is_fatal_witness :
  let o := Scenarios.options "run" false false true in
  let e := Scenarios.cycle_env (λ _ _, Scenarios.exits 0) in
  let st := seeded [Scenarios.X; Scenarios.Y] in
  (rounds o e 1 st).1 = Returns () ∧
  report_errors (report (rounds o e 1 st).2) =
    [(CYCLIC_DEPENDENCIES, cycle_message e (needsProcessing st))] ∧
  (∀ kw, kw ∈ needsProcessing st →
         mentions (cycle_message e (needsProcessing st)) (prettyLocator e kw.2)) ∧
  events (rounds o e 1 st).2 = events st ∧
  needsProcessing (rounds o e 1 st).2 = needsProcessing st ∧
  exitCode (report (rounds o e 1 st).2) ≠ 0%Z.
Proof.
  intros o e st.
  apply (proj1 C2_cycle_is_fatal o e st 0); vm_compute; [discriminate|reflexivity..].
Defined.

(** ** Sequential rounds *)

Lemma round_single o e st k w :
  (scan o e (needsProcessing st) (needsProcessing st) (processing st)).1 = [(k, w)] →
  spawns (events (round o e st).2)
    = (spawns (events st) ++ [(S (commandCount st), w)])%list ∧
  ((round o e st).1 = Returns true →
   needsProcessing (round o e st).2 = map_delete k (needsProcessing st)).
Proof.
  intros Hscan.
  destruct (round_settles o e st) as (evs & infos & (Hsp & _) & _ & Hst & Hout);
    [by rewrite Hscan|].
  rewrite Hscan in *. rewrite Hst. cbn [events needsProcessing].
  split; [by rewrite spawns_app, Hsp|].
  intros Hret. rewrite Hret in Hout. destruct Hout as (_ & -> & _).
  unfold map_delete. apply list_filter_iff. intros kv. cbn [fmap list_fmap fst].
  rewrite list_elem_of_singleton. done.
Qed.

(** C6: with parallel mode off, the scan of a round hands at most one
    task to the gate, the first pending entry that is eligible, and
    looks no further; a round starts at most one task, and when the loop
    enters the next round that task has completed and left the pending
    map. *)
Theorem C6_sequential_dispatch o e st :
  parallel o = false →
  let dispatched := (scan o e (needsProcessing st) (needsProcessing st) (processing st)).1 in
  dispatched =
    take 1 (filter (eligible o e (needsProcessing st) (processing st)) (needsProcessing st)) ∧
  length dispatched ≤ 1 ∧
  length (spawns (events (round o e st).2)) ≤ S (length (spawns (events st))) ∧
  (∀ k w, dispatched = [(k, w)] →
     spawns (events (round o e st).2)
       = (spawns (events st) ++ [(S (commandCount st), w)])%list ∧
     ((round o e st).1 = Returns true →
      needsProcessing (round o e st).2 = map_delete k (needsProcessing st))).
Proof.
  intros Hpar dispatched.
  assert (Hd : dispatched =
    take 1 (filter (eligible o e (needsProcessing st) (processing st)) (needsProcessing st)))
    by (by apply scan_sequential).
  assert (Hlen : length dispatched ≤ 1) by (rewrite Hd, length_take; lia).
  split; [done|]. split; [done|]. split.
  - destruct dispatched as [|[k w] [|d ds]] eqn:Heq; simpl in Hlen; [| |lia].
    + rewrite (round_cycle o e st Heq). simpl. lia.
    + destruct (round_single o e st k w Heq) as [-> _].
      rewrite length_app. simpl. lia.
  - intros k w Heq. by apply round_single.
Qed.

Lemma C6_sequential_dispatch_witness :
  let o := Scenarios.options "run" false false true in
  let e := Scenarios.failing_env (Scenarios.exits 0) in
  let st := seeded [Scenarios.A; Scenarios.B] in
  length (scan o e (needsProcessing st) (needsProcessing st) (processing st)).1 ≤ 1.
Proof.
  intros o e st.
  apply (C6_sequential_dispatch o e st). reflexivity.
Defined.

(** ** A failed dependency *)

(** C5: for [A] without dependencies and [B] depending on [A], under
    topological ordering, with the command exiting 1 in [A]: the first
    round starts [A] alone and waits for it, then reports the
    propagation error and leaves [B] pending; from there the loop
    returns at its error test without starting anything, so [B] is never
    started and the action returns 1. *)
Theorem C5_failed_dependency_stops_the_run par inB fuel :
  let o := Scenarios.options "run" false par true in
  let e := Scenarios.failing_env inB in
  let st0 := seeded [Scenarios.A; Scenarios.B] in
  let st1 := (round o e st0).2 in
  let end_ := action o e (S (S fuel)) initial in
  selectWorkspaces o e (S (S fuel)) = Returns [Scenarios.A; Scenarios.B] ∧
  (round o e st0).1 = Returns true ∧
  spawns (events st1) = [(1, Scenarios.A)] ∧
  report_errors (report st1) = [(UNNAMED, propagation_message)] ∧
  (needsProcessing st1).*2 = [Scenarios.B] ∧
  (∀ n, rounds o e n st1 = (Returns (), st1)) ∧
  end_.1 = Returns 1%Z ∧
  end_.2 = st1.
Proof.
  destruct par; cbv zeta; repeat apply conj;
    try (intros [|n]); vm_compute; reflexivity.
Qed.

(** ** The ways the action ends *)

Lemma action_cases o e fuel :
  (all o = false ∧ cwdWorkspace e = None ∧
   action o e fuel initial = (Throws (WorkspaceRequiredError (options_cwd o)), initial)) ∨
  (commandPath e = [] ∧
   action o e fuel initial = (Throws (UsageError invalid_subcommand), initial)) ∨
  (selectWorkspaces o e fuel = OutOfFuel ∧
   action o e fuel initial = (OutOfFuel, initial)) ∨
  (∃ err, selectWorkspaces o e fuel = Throws err ∧
          action o e fuel initial = (Throws err, initial)) ∨
  (∃ workspaces,
     negb (all o) && negb (bool_decide (is_Some (cwdWorkspace e))) = false ∧
     commandPath e ≠ [] ∧
     selectWorkspaces o e fuel = Returns workspaces ∧
     action o e fuel initial =
       match rounds o e (length (seed workspaces [])) (seeded workspaces) with
       | (Returns _, st') => (Returns (exitCode (report st')), st')
       | (Throws err, st') => (Throws err, st')
       | (OutOfFuel, st') => (OutOfFuel, st')
       end).
Proof.
  destruct (negb (all o) && negb (bool_decide (is_Some (cwdWorkspace e)))) eqn:Hctx.
  { left. unfold action. rewrite Hctx.
    apply andb_true_iff in Hctx as [Hall Hcw].
    apply negb_true_iff in Hall. apply negb_true_iff, bool_decide_eq_false in Hcw.
    split; [done|]. split; [|done].
    destruct (cwdWorkspace e); [|done]. exfalso. apply Hcw. by eexists. }
  right. destruct (commandPath e) as [|c cs] eqn:Hpath.
  { left. split; [done|]. unfold action. by rewrite Hctx, Hpath. }
  right. destruct (selectWorkspaces o e fuel) as [workspaces|err|] eqn:Hsel.
  - do 2 right. exists workspaces. split; [done|]. split; [done|]. split; [done|].
    apply action_selected; [done| |done]. by rewrite Hpath.
  - right. left. exists err. split; [done|]. unfold action. by rewrite Hctx, Hpath, Hsel.
  - left. split; [done|]. unfold action. by rewrite Hctx, Hpath, Hsel.
Qed.

(** ** The trace of a run *)

Section Trace.
Variable o : ForeachOptions.
Variable e : Env.

Local Abbreviation scanned st :=
  (scan o e (needsProcessing st) (needsProcessing st) (processing st)).

Lemma Bounded_app evs evs' :
  Bounded o e evs → length (finishes evs) = length (spawns evs) →
  Bounded o e evs' → Bounded o e (evs ++ evs').
Proof.
  intros Hb Hlen Hb' before after Heq.
  apply app_eq_inv in Heq as [(k & -> & _)|(k & -> & Hk)].
  - by apply (Hb before k).
  - destruct (Hb' k after Hk) as [Hle Hq].
    unfold load in *. rewrite spawns_app, finishes_app, !length_app. split; [lia|].
    replace (length (spawns evs) + length (spawns k) -
             (length (finishes evs) + length (finishes k)))
      with (length (spawns k) - length (finishes k)) by lia.
    done.
Qed.

Lemma traced_initial ws : traced o e (seeded ws).
Proof.
  unfold traced. simpl. repeat apply conj; try done.
  - constructor. constructor.
  - apply Bounded_nil.
Qed.

(** A round keeps what holds between rounds. *)
Lemma round_traced st : traced o e st → traced o e (round o e st).2.
Proof.
  intros (Hcount & Hidx & Hint & Hfin & Hb & Hinfos).
  destruct (decide ((scanned st).1 = [])) as [Hnil|Hds].
  { rewrite (round_cycle o e st Hnil). done. }
  destruct (round_settles o e st Hds) as (evs & infos & (Hsp & Hint' & Hfin' & Hb') & Hperm & -> & _).
  destruct (numbered_workspaces (commandCount st) (scanned st).1) as (_ & Hnum & Hlen).
  unfold traced.
  cbn [commandCount events report report_infos].
  rewrite spawns_app, finishes_app, !length_app, Hsp, Hlen, fmap_app, flat_map_app.
  repeat apply conj.
  - lia.
  - by rewrite Hidx, Hnum, Hcount, seq_app.
  - rewrite fmap_app. by apply Interleaving_app.
  - rewrite Hsp, Hlen in Hfin'. lia.
  - by apply Bounded_app.
  - by rewrite Hinfos, Hperm.
Qed.

Lemma rounds_traced fuel st : traced o e st → traced o e (rounds o e fuel st).2.
Proof.
  revert st. induction fuel as [|fuel IH]; intros st Htr;
    (match goal with |- context [rounds o e ?f st] =>
       destruct (rounds_cases o e f st) as [[_ ->]|(_ & _ & ->)] end);
    [done|done|done|].
  pose proof (round_traced st Htr) as Htr'.
  destruct (round o e st) as [[[]|err|] st']; cbn [fst snd] in *; auto.
Qed.

Lemma action_traced fuel : traced o e (action o e fuel initial).2.
Proof.
  destruct (action_cases o e fuel)
    as [(_ & _ & ->)|[(_ & ->)|[(_ & ->)|[(err & _ & ->)|(ws & _ & _ & _ & ->)]]]];
    cbn [fst snd]; try apply (traced_initial []).
  pose proof (rounds_traced (length (seed ws [])) (seeded ws) (traced_initial ws)) as Htr.
  by destruct (rounds o e (length (seed ws [])) (seeded ws)) as [[[]|err|] st'].
Qed.

(** The loop returns when the executors of all the tasks started have
    returned, and throws what the executor of one of them raised. *)
Lemma rounds_outcome fuel st :
  Forall (returned e) (spawns (events st)) →
  match (rounds o e fuel st).1 with
  | Returns _ => Forall (returned e) (spawns (events (rounds o e fuel st).2))
  | Throws err =>
      ∃ i w x, (i, w) ∈ spawns (events (rounds o e fuel st).2) ∧
               err = ExecutorError x ∧
               exec_result (clipanion_run e i w) = Raised x
  | OutOfFuel => True
  end.
Proof.
  intros Hret.
  apply (rounds_rule o e (λ st, Forall (returned e) (spawns (events st)))
           (λ out st,
              match out with
              | Returns _ => Forall (returned e) (spawns (events st))
              | Throws err =>
                  ∃ i w x, (i, w) ∈ spawns (events st) ∧ err = ExecutorError x ∧
                           exec_result (clipanion_run e i w) = Raised x
              | OutOfFuel => True
              end)); [done| |done].
  clear. intros st Hret _ _.
  destruct (decide ((scanned st).1 = [])) as [Hnil|Hds].
  { rewrite (round_cycle o e st Hnil). done. }
  destruct (round_dispatch o e st Hds) as (evs & done & Hev & _ & _ & _ & _ & Hout).
  destruct (round o e st) as [[again|err|] st']; cbn [fst snd] in *; [| |done].
  - destruct Hout as (-> & _ & _ & _ & _ & Hall).
    rewrite Hev, spawns_app. by apply Forall_app.
  - destruct Hout as (_ & i & w & x & Hin & -> & Hx & _).
    exists i, w, x. rewrite Hev, spawns_app, elem_of_app. auto.
Qed.

(** *** One task at a time *)

(** A round with one task adds the events of that task, one after the
    other. *)
Lemma round_alone st k w :
  (scanned st).1 = [(k, w)] →
  events (round o e st).2 = (events st ++ task_events o e w (S (commandCount st)))%list ∧
  ∀ err, (round o e st).1 = Throws err →
         ∃ x, err = ExecutorError x ∧
              exec_result (clipanion_run e (S (commandCount st)) w) = Raised x.
Proof.
  intros Hscan.
  destruct (round_settles o e st) as (evs & infos & (_ & Hint & _) & _ & Hst & Hout);
    [by rewrite Hscan|].
  rewrite Hscan in *. rewrite Hst. cbn [events]. split.
  - f_equal. by apply (Interleaving_only _ _ Hint [] _ []).
  - intros err Herr. rewrite Herr in Hout. destruct Hout as (s & x & Hin & Hx & ->).
    apply list_elem_of_singleton in Hin as ->. by exists x.
Qed.

Lemma rounds_sequential fuel st :
  parallel o = false →
  Closed (events st) →
  Closed (events (rounds o e fuel st).2) ∧
  ∀ x, (rounds o e fuel st).1 = Throws (ExecutorError x) →
       ∃ before i w,
         events (rounds o e fuel st).2 = (before ++ Spawn i w :: closing i)%list ∧
         exec_result (clipanion_run e i w) = Raised x.
Proof.
  intros Hpar. revert st. induction fuel as [|fuel IH]; intros st Hcl;
    (match goal with |- context [rounds o e ?f st] =>
       destruct (rounds_cases o e f st) as [[_ ->]|(_ & _ & ->)] end);
    [done|done|done|].
  pose proof (scan_sequential o e (needsProcessing st) (needsProcessing st) (processing st) Hpar)
    as Hscan.
  assert (Hlen : length (scanned st).1 ≤ 1) by (rewrite Hscan, length_take; lia).
  destruct (scanned st).1 as [|[k w] [|d ds]] eqn:Hds; simpl in Hlen; [| |lia].
  { rewrite (round_cycle o e st Hds). done. }
  destruct (round_alone st k w Hds) as [Hev Hthrow].
  assert (Hcl' : Closed (events (round o e st).2)).
  { rewrite Hev. apply Closed_app; [done|apply task_events_closed]. }
  destruct (round o e st) as [[[]|err|] st']; cbn [fst snd] in *; [by apply IH|done| |done].
  split; [done|]. intros x [= ->].
  destruct (Hthrow _ eq_refl) as (x' & [= <-] & Hx).
  rewrite Hev, task_events_begin. unfold begin_events.
  set (i := S (commandCount st)) in *.
  exists (events st ++
          (if negb (parallel o) && verbose o && bool_decide (1 < i)
           then [Separator] else []) ++
          [CreateStream i Stdout (getPrefix o e w i) (interlaced' o);
           CreateStream i Stderr (getPrefix o e w i) (interlaced' o)])%list, i, w.
  split; [|done]. by rewrite <- !app_assoc.
Qed.

(** *** The events of one task *)



End Trace.

(** ** Streams are closed on every exit *)



(** ** The tasks in flight *)

Lemma spawns_cons_other ev evs :
  (∀ i w, ev ≠ Spawn i w) → spawns (ev :: evs) = spawns evs.
Proof.
  intros Hev. unfold spawns. simpl. destruct ev as [| |i w| |]; try done.
  by destruct (Hev i w).
Qed.

(** In a trace where every task is closed at once, no task is started
    while another is in flight. *)
Lemma Closed_load evs :
  Closed evs →
  ∀ before after, evs = (before ++ after)%list →
    length (spawns before) ≤ S (length (finishes before)).
Proof.
  induction 1 as [|ev evs Hev Hcl IH|i w evs Hcl IH]; intros before after Heq.
  - symmetry in Heq. apply app_eq_nil in Heq as [-> _]. simpl. lia.
  - destruct before as [|ev' before]; [simpl; lia|].
    simpl in Heq. injection Heq as <- Heq.
    specialize (IH _ _ Heq). rewrite spawns_cons_other by done.
    change (ev :: before) with ([ev] ++ before)%list.
    rewrite finishes_app, length_app. lia.
  - unfold closing in Heq. simpl in Heq.
    do 5 (destruct before as [|? before];
          [simpl in *; repeat (injection Heq as <- Heq); simpl; lia
          |simpl in Heq; injection Heq as <- Heq]).
    specialize (IH _ _ Heq).
    change (length (spawns ([Spawn i w; End i Stdout; End i Stderr; AwaitEnd i Stdout; AwaitEnd i Stderr] ++ before))
            ≤ S (length (finishes ([Spawn i w; End i Stdout; End i Stderr; AwaitEnd i Stdout; AwaitEnd i Stderr] ++ before)))).
    rewrite spawns_app, finishes_app, !length_app. simpl. lia.
Qed.

Lemma action_sequential o e fuel :
  parallel o = false → Closed (events (action o e fuel initial).2).
Proof.
  intros Hpar.
  destruct (action_cases o e fuel)
    as [(_ & _ & ->)|[(_ & ->)|[(_ & ->)|[(err & _ & ->)|(ws & _ & _ & _ & ->)]]]];
    cbn [fst snd]; try constructor.
  destruct (rounds_sequential o e (length (seed ws [])) (seeded ws) Hpar) as [Hcl _];
    [constructor|].
  by destruct (rounds o e (length (seed ws [])) (seeded ws)) as [[[]|err|] st'].
Qed.

(** C7: the tasks in flight are within the limit of the gate. At every
    point of the trace of a run, as many tasks at most have ended as
    were started, and the number of those started and not ended is at
    most the limit the gate was made with; the one gate is asked by
    every round, and when the run is over no task is in flight. With
    parallel off at most one task is in flight at any point, whatever
    the jobs count. With parallel on the limit is the jobs count when
    there is one other than 0, and otherwise the larger of 1 and half
    the number of processing units. *)
Theorem C7_concurrency_bound o e fuel :
  (∀ before after,
     events (action o e fuel initial).2 = (before ++ after)%list →
     length (finishes before) ≤ length (spawns before) ∧
     (inject_Z (Z.of_nat (load before)) <= limit o (cpus e))%Q) ∧
  load (events (action o e fuel initial).2) = 0 ∧
  (parallel o = false →
   ∀ before after,
     events (action o e fuel initial).2 = (before ++ after)%list →
     load before ≤ 1) ∧
  (parallel o = true →
   limit o (cpus e) = match jobs o with
                      | Some (S j) => inject_Z (Z.of_nat (S j))
                      | _ => Qmax 1 (inject_Z (Z.of_nat (cpus e)) / 2)
                      end).
Proof.
  destruct (action_traced o e fuel) as (_ & _ & _ & Hfin & Hbound & _).
  split; [exact Hbound|]. split; [unfold load; lia|]. split.
  - intros Hpar before after Heq.
    pose proof (Closed_load _ (action_sequential o e fuel Hpar) _ _ Heq).
    unfold load. lia.
  - intros Hpar. unfold limit, concurrency. by rewrite Hpar.
Qed.

Lemma C7_concurrency_bound_witness :
  let o := Scenarios.options "run" false true true in
  let sequential := mkOptions "run" [] "/" [] [] false false (Some 4) false false true false in
  let trace := events (action o (Scenarios.busy_env 4) 3 initial).2 in
  let gated := events (action o (Scenarios.busy_env 2) 3 initial).2 in
  let one_by_one := events (action sequential (Scenarios.busy_env 4) 3 initial).2 in
  (load (take 14 trace) = 2 ∧
   (inject_Z (Z.of_nat (load (take 14 trace))) <= limit o 4)%Q ∧
   limit o 4 = Qmax 1 (inject_Z 4 / 2)) ∧
  (spawns (take 14 gated) = [(1, Scenarios.G); (2, Scenarios.H1)] ∧
   (inject_Z (Z.of_nat (load (take 14 gated))) <= limit o 2)%Q ∧
   (limit o 2 == 1)%Q) ∧
  (limit sequential 4 = inject_Z 4 ∧ load (take 11 one_by_one) = 1 ∧
   load (take 14 one_by_one) ≤ 1).
Proof.
  intros o sequential trace gated one_by_one. split; [|split].
  - split; [vm_compute; reflexivity|]. split.
    + apply (proj1 (C7_concurrency_bound o (Scenarios.busy_env 4) 3)
               (take 14 trace) (drop 14 trace)).
      symmetry. apply take_drop.
    + apply (proj2 (proj2 (proj2 (C7_concurrency_bound o (Scenarios.busy_env 4) 3)))).
      reflexivity.
  - split; [vm_compute; reflexivity|]. split; [|vm_compute; reflexivity].
    apply (proj1 (C7_concurrency_bound o (Scenarios.busy_env 2) 3)
             (take 14 gated) (drop 14 gated)).
    symmetry. apply take_drop.
  - split; [reflexivity|]. split; [vm_compute; reflexivity|].
    apply (proj1 (proj2 (proj2 (C7_concurrency_bound sequential (Scenarios.busy_env 4) 3)))
             eq_refl (take 14 one_by_one) (drop 14 one_by_one)).
    symmetry. apply take_drop.
Defined.

(** ** The pending map holds a workspace once *)

Section Once.
Local Abbreviation lh := anchoredLocator_locatorHash.

Lemma map_set_keys k v (m : list (LocatorHash * Workspace)) k' :
  k' ∈ (map_set k v m).*1 ↔ k' = k ∨ k' ∈ m.*1.
Proof.
  induction m as [|[k0 v0] m IH]; simpl.
  - rewrite list_elem_of_singleton. split; [auto|]. intros [?|H]; [done|].
    by apply elem_of_nil in H.
  - destruct (decide (k = k0)) as [->|Hne]; simpl; rewrite !elem_of_cons.
    + tauto.
    + rewrite IH. tauto.
Qed.

Lemma map_set_NoDup k v (m : list (LocatorHash * Workspace)) :
  NoDup m.*1 → NoDup (map_set k v m).*1.
Proof.
  induction m as [|[k0 v0] m IH]; simpl; intros Hnd.
  - apply NoDup_singleton.
  - apply NoDup_cons in Hnd as [Hk0 Hnd].
    destruct (decide (k = k0)) as [->|Hne]; simpl; apply NoDup_cons.
    + done.
    + split; [|auto]. rewrite map_set_keys. intros [?|?]; [congruence|done].
Qed.

Lemma map_set_elem k v (m : list (LocatorHash * Workspace)) kw :
  kw ∈ map_set k v m → kw = (k, v) ∨ kw ∈ m.
Proof.
  induction m as [|[k0 v0] m IH]; simpl.
  - intros ->%list_elem_of_singleton. by left.
  - destruct (decide (k = k0)) as [->|Hne]; rewrite !elem_of_cons.
    + intros [->|?]; auto.
    + intros [->|H]; [auto|]. apply IH in H as [->|?]; auto.
Qed.

(** Seeding keeps the keys distinct and equal to the locator hash of
    their workspace, and the keys are those of the selection. *)
Lemma seed_spec workspaces needs :
  NoDup needs.*1 →
  (∀ k w, (k, w) ∈ needs → k = lh w) →
  NoDup (seed workspaces needs).*1 ∧
  (∀ k w, (k, w) ∈ seed workspaces needs → k = lh w) ∧
  (∀ k, k ∈ (seed workspaces needs).*1 ↔ k ∈ lh <$> workspaces ∨ k ∈ needs.*1) ∧
  (∀ kw, kw ∈ seed workspaces needs → kw.2 ∈ workspaces ∨ kw ∈ needs).
Proof.
  unfold seed. revert needs.
  induction workspaces as [|w ws IH]; intros needs Hnd Hkey; simpl.
  - split; [done|]. split; [done|]. split; [|auto].
    intros k. split; [auto|]. intros [H|?]; [|done]. by apply elem_of_nil in H.
  - destruct (IH (map_set (lh w) w needs)) as (IH1 & IH2 & IH3 & IH4).
    { by apply map_set_NoDup. }
    { intros k w' [[= -> ->]|?]%map_set_elem; eauto. }
    split; [done|]. split; [done|]. split.
    + intros k. rewrite IH3, map_set_keys, elem_of_cons. tauto.
    + intros kw [?|[->|?]%map_set_elem]%IH4; rewrite elem_of_cons; simpl; auto.
Qed.

Lemma keyed_fmap (ds : list (LocatorHash * Workspace)) :
  (∀ k w, (k, w) ∈ ds → k = lh w) → lh <$> ds.*2 = ds.*1.
Proof.
  induction ds as [|[k w] ds IH]; intros Hkey; [done|].
  rewrite !fmap_cons. cbn [fst snd].
  rewrite IH by (intros k' w' ?; apply Hkey; by right).
  f_equal. symmetry. apply Hkey. left.
Qed.
End Once.

Section RunsOnce.
Variable o : ForeachOptions.
Variable e : Env.
Local Abbreviation lh := anchoredLocator_locatorHash.

(** Tasks started from entries of the scan are new. *)
Lemma spawned_fresh st (ds : list (LocatorHash * Workspace)) (new : list (nat * Workspace)) :
  once st →
  ds `sublist_of` needsProcessing st →
  new.*2 `prefix_of` ds.*2 →
  NoDup (lh <$> (spawns (events st) ++ new)%list.*2) ∧
  (∀ s, s ∈ new → lh s.2 ∈ ds.*1).
Proof.
  intros (Hnd & Hkey & Hsp & Hout) Hsub [rest Hpre].
  assert (Hds : lh <$> ds.*2 = ds.*1).
  { apply keyed_fmap. intros k w Hin. apply Hkey. by eapply elem_of_sublist. }
  assert (Hndds : NoDup ds.*1).
  { eapply sublist_NoDup; [exact Hnd|]. by apply fmap_sublist. }
  rewrite <- Hds, Hpre, fmap_app in Hndds.
  apply NoDup_app in Hndds as (Hnew & _ & _).
  assert (Hin : ∀ s, s ∈ new → lh s.2 ∈ ds.*1).
  { intros s Hs. rewrite <- Hds, Hpre, fmap_app. apply elem_of_app. left.
    apply list_elem_of_fmap_2. by apply (list_elem_of_fmap_2 snd). }
  split; [|done].
  rewrite !fmap_app. apply NoDup_app. split; [done|]. split; [|done].
  intros x Hx Hx'.
  apply list_elem_of_fmap in Hx as (w & -> & Hw).
  apply list_elem_of_fmap in Hw as (s & -> & Hs).
  apply list_elem_of_fmap in Hx' as (w' & Heq & Hw').
  apply list_elem_of_fmap in Hw' as (s' & -> & Hs').
  apply (Hout s Hs). rewrite Heq.
  eapply elem_of_sublist; [apply (Hin s' Hs')|]. by apply fmap_sublist.
Qed.

Lemma rounds_once fuel st :
  once st →
  NoDup (lh <$> (spawns (events (rounds o e fuel st).2)).*2).
Proof.
  revert st. induction fuel as [|fuel IH]; intros st Hst;
    (match goal with |- context [rounds o e ?f st] =>
       destruct (rounds_cases o e f st) as [[_ ->]|(Hne & Herr & ->)] end);
    try apply Hst.
  destruct (decide ((scan o e (needsProcessing st) (needsProcessing st)
                       (processing st)).1 = [])) as [Hnil|Hds].
  { rewrite (round_cycle o e st Hnil). apply Hst. }
  pose proof (scan_sublist o e (needsProcessing st) (needsProcessing st) (processing st))
    as Hsub.
  destruct (round_dispatch o e st Hds) as (evs & done & Hev & _ & _ & Hkeep & Hsl & Hout).
  destruct (round o e st) as [[again|err|] st']; cbn [fst snd] in *; [| |done].
  - destruct Hout as (-> & -> & Hsp & _).
    destruct (spawned_fresh st _ (spawns evs) Hst Hsub) as [Hfresh Hnew];
      [by rewrite Hsp|].
    apply IH. destruct Hst as (Hnd & Hkey & _ & Hout).
    split; [eapply sublist_NoDup; [exact Hnd|by apply fmap_sublist]|].
    split; [intros k w Hin; apply Hkey; by apply Hkeep in Hin as [? _]|].
    rewrite Hev, spawns_app. split; [done|].
    intros s [Hs|Hs]%elem_of_app Hk.
    + apply (Hout s Hs). eapply elem_of_sublist; [exact Hk|by apply fmap_sublist].
    + apply list_elem_of_fmap in Hk as (kw & Heq & Hkw).
      apply Hkeep in Hkw as [_ Hkw]. apply Hkw. rewrite <- Heq. by apply Hnew.
  - destruct Hout as (_ & i & w & x & _ & _ & _ & Hpre).
    rewrite Hev, spawns_app. apply (spawned_fresh st _ (spawns evs) Hst Hsub).
    by rewrite Hpre.
Qed.
End RunsOnce.

(** C9: the pending map is keyed by locator hash, so seeding it from a
    selection that lists a workspace twice gives one entry for it, and
    in every run no workspace is started more than once. In the diamond
    the selection lists [D] twice, the seeded map holds it once and it
    is started once. *)
Theorem C9_each_workspace_runs_once :
  (∀ workspaces,
     NoDup (seed workspaces []).*1 ∧
     ∀ k, k ∈ (seed workspaces []).*1 ↔ k ∈ anchoredLocator_locatorHash <$> workspaces) ∧
  (∀ o e fuel,
     NoDup (anchoredLocator_locatorHash <$> (spawns (events (action o e fuel initial).2)).*2)) ∧
  (let o := Scenarios.options "run" false false false in
   let e := Scenarios.diamond_env in
   selectWorkspaces o e 3
   = Returns [Scenarios.T; Scenarios.L; Scenarios.D; Scenarios.R; Scenarios.D] ∧
   (seed [Scenarios.T; Scenarios.L; Scenarios.D; Scenarios.R; Scenarios.D] []).*2
   = [Scenarios.T; Scenarios.L; Scenarios.D; Scenarios.R] ∧
   (spawns (events (action o e 3 initial).2)).*2
   = [Scenarios.T; Scenarios.L; Scenarios.D; Scenarios.R]).
Proof.
  split; [|split].
  - intros workspaces.
    destruct (seed_spec workspaces []) as (Hnd & _ & Hkeys & _).
    { constructor. } { intros k w H. by apply elem_of_nil in H. }
    split; [done|]. intros k. rewrite Hkeys. split; [|auto].
    intros [?|H]; [done|]. by apply elem_of_nil in H.
  - intros o e fuel.
    destruct (action_cases o e fuel)
      as [(_ & _ & ->)|[(_ & ->)|[(_ & ->)|[(err & Hsel & ->)|(ws & _ & _ & Hsel & ->)]]]];
      cbn [fst snd]; try constructor.
    pose proof (rounds_once o e (length (seed ws [])) (seeded ws)) as Honce.
    destruct (rounds o e (length (seed ws [])) (seeded ws)) as [[[]|err|] st'];
      cbn [fst snd] in *; apply Honce;
      (destruct (seed_spec ws []) as (Hnd & Hkey & _ & _);
         [constructor|intros k w H; by apply elem_of_nil in H|];
       split; [done|]; split; [done|]; split; [constructor|];
       intros s H; by apply elem_of_nil in H).
  - vm_compute. repeat split.
Qed.

(** ** Only selected workspaces are started *)

Lemma rounds_within o e (selection : list Workspace) fuel st :
  (∀ kw, kw ∈ needsProcessing st → kw.2 ∈ selection) →
  (∀ s, s ∈ spawns (events st) → s.2 ∈ selection) →
  ∀ s, s ∈ spawns (events (rounds o e fuel st).2) → s.2 ∈ selection.
Proof.
  revert st. induction fuel as [|fuel IH]; intros st Hneeds Hsp;
    (match goal with |- context [rounds o e ?f st] =>
       destruct (rounds_cases o e f st) as [[_ ->]|(Hne & Herr & ->)] end);
    try done.
  destruct (decide ((scan o e (needsProcessing st) (needsProcessing st)
                       (processing st)).1 = [])) as [Hnil|Hds].
  { by rewrite (round_cycle o e st Hnil). }
  pose proof (scan_sublist o e (needsProcessing st) (needsProcessing st) (processing st))
    as Hsub.
  destruct (round_dispatch o e st Hds) as (evs & done & Hev & _ & _ & Hkeep & _ & Hout).
  assert (Hnew : (spawns evs).*2 `prefix_of`
                 (scan o e (needsProcessing st) (needsProcessing st) (processing st)).1.*2 →
                 ∀ s, s ∈ spawns (events st ++ evs) → s.2 ∈ selection).
  { intros [rest Hpre] s. rewrite spawns_app.
    intros [Hs|Hs]%elem_of_app; [by apply Hsp|].
    assert (s.2 ∈ (scan o e (needsProcessing st) (needsProcessing st) (processing st)).1.*2)
      as Hin.
    { rewrite Hpre. apply elem_of_app. left. by apply (list_elem_of_fmap_2 snd). }
    apply list_elem_of_fmap in Hin as (kw & -> & Hkw).
    apply Hneeds. by eapply elem_of_sublist. }
  destruct (round o e st) as [[again|err|] st']; cbn [fst snd] in *; [| |done].
  - destruct Hout as (-> & _ & Heq & _). apply IH.
    + intros kw Hkw. apply Hneeds. by apply Hkeep in Hkw as [? _].
    + rewrite Hev. apply Hnew. by rewrite Heq.
  - destruct Hout as (_ & i & w & x & _ & _ & _ & Hpre).
    rewrite Hev. apply Hnew. by rewrite Hpre.
Qed.



(** ** The exit code *)

Section ExitCode.
Variable o : ForeachOptions.
Variable e : Env.

Lemma any_nonzero_spec (l : list (nat * Workspace)) :
  any_nonzero (exit_of e <$> l) = true ↔ ∃ s, s ∈ l ∧ exit_of e s ≠ 0%Z.
Proof.
  unfold any_nonzero. rewrite existsb_exists. split.
  - intros (c & Hc & Hnz). apply list_elem_of_In, list_elem_of_fmap in Hc as (s & -> & Hs).
    exists s. split; [done|]. apply negb_true_iff, Z.eqb_neq in Hnz. done.
  - intros (s & Hs & Hnz). exists (exit_of e s). split.
    + apply list_elem_of_In. by apply list_elem_of_fmap_2.
    + by apply negb_true_iff, Z.eqb_neq.
Qed.

Lemma reported_nil name st : report_errors (report st) = [] → ¬ reported name st.
Proof. intros Hnil [text H]. rewrite Hnil in H. by apply elem_of_nil in H. Qed.

Lemma hasErrors_false st : hasErrors (report st) = false → report_errors (report st) = [].
Proof. unfold hasErrors. by destruct (report_errors (report st)). Qed.

(** Outside the topological modes a scan of a pending map that is not
    empty always finds a task, when nothing is being processed. *)
Lemma scan_unordered st :
  topological_mode o = false → processing st = ∅ → needsProcessing st ≠ [] →
  (scan o e (needsProcessing st) (needsProcessing st) (processing st)).1 ≠ [].
Proof.
  intros Htopo Hproc Hne.
  destruct (needsProcessing st) as [|kw needs] eqn:Hn; [done|].
  apply (scan_finds o e _ _ _ kw); [left|].
  split; [rewrite Hproc; set_solver|].
  apply isRunnable_spec. rewrite Htopo. done.
Qed.

(** What the report says when the loop returns. *)
Lemma rounds_report fuel st :
  processing st = ∅ →
  ¬ reported CYCLIC_DEPENDENCIES st →
  (reported UNNAMED st ↔ topological_mode o = true ∧ task_failed e st) →
  match (rounds o e fuel st).1 with
  | Returns _ =>
      (reported UNNAMED (rounds o e fuel st).2
       ↔ topological_mode o = true ∧ task_failed e (rounds o e fuel st).2) ∧
      (reported CYCLIC_DEPENDENCIES (rounds o e fuel st).2 → topological_mode o = true)
  | _ => True
  end.
Proof.
  intros Hproc Hcyc Hun.
  pose (I := λ st, processing st = ∅ ∧ ¬ reported CYCLIC_DEPENDENCIES st ∧
                   (reported UNNAMED st ↔ topological_mode o = true ∧ task_failed e st)).
  pose (Q := λ (out : Outcome unit) st,
    match out with
    | Returns _ =>
        (reported UNNAMED st ↔ topological_mode o = true ∧ task_failed e st) ∧
        (reported CYCLIC_DEPENDENCIES st → topological_mode o = true)
    | _ => True
    end).
  assert (Hrule : match (rounds o e fuel st).1 with
                  | OutOfFuel => True
                  | out => Q out (rounds o e fuel st).2
                  end).
  { apply (rounds_rule o e I Q); [|clear|done].
    { intros st0 (_ & Hc & Hu) _. split; [done|]. intros H. by apply Hc in H. }
    intros st (Hproc & Hcyc & Hun) Hne Herr.
    apply hasErrors_false in Herr.
    assert (Hnone : ¬ (topological_mode o = true ∧ task_failed e st)).
    { rewrite <- Hun. by apply reported_nil. }
    destruct (decide ((scan o e (needsProcessing st) (needsProcessing st)
                         (processing st)).1 = [])) as [Hnil|Hds].
    { rewrite (round_cycle o e st Hnil). cbn [fst snd]. unfold Q. split.
      - unfold reported, task_failed. simpl. rewrite Herr. simpl. split.
        + intros [text Hin]. apply list_elem_of_singleton in Hin. done.
        + intros H. by apply Hnone in H.
      - intros _. destruct (topological_mode o) eqn:Htopo; [done|].
        exfalso. by apply (scan_unordered st). }
    destruct (round_dispatch o e st Hds) as (evs & done & Hev & _ & _ & _ & _ & Hout).
    destruct (round o e st) as [[again|err|] st']; cbn [fst snd] in *; [|done..].
    destruct Hout as (-> & _ & _ & Hproc' & Herr' & _).
    rewrite Herr in Herr'. simpl in Herr'.
    split; [rewrite Hproc', Hproc; set_solver|].
    assert (Hfail : task_failed e st' ↔
                    task_failed e st ∨ ∃ s, s ∈ spawns evs ∧ exit_of e s ≠ 0%Z).
    { unfold task_failed. rewrite Hev, spawns_app. setoid_rewrite elem_of_app.
      naive_solver. }
    destruct (topological_mode o) eqn:Htopo; cbn [andb] in Herr'.
    - destruct (any_nonzero (exit_of e <$> spawns evs)) eqn:Hany.
      + apply any_nonzero_spec in Hany. split.
        * intros [text Hin]. rewrite Herr' in Hin.
          apply list_elem_of_singleton in Hin. done.
        * split.
          { intros _. split; [done|]. apply Hfail. by right. }
          { intros _. exists propagation_message. rewrite Herr'. left. }
      + split; [by apply reported_nil|]. split; [by intros ?%reported_nil|].
        intros [_ [?|Hex]%Hfail]; exfalso; [by apply Hnone|].
        apply any_nonzero_spec in Hex. congruence.
    - split; [by apply reported_nil|]. split; [by intros ?%reported_nil|].
      by intros [? _]. }
  destruct (rounds o e fuel st) as [[[]|err|] st']; cbn [fst snd] in *; done.
Qed.
End ExitCode.

Lemma exitCode_nonzero st :
  exitCode (report st) ≠ 0%Z ↔ reported CYCLIC_DEPENDENCIES st ∨ reported UNNAMED st.
Proof.
  unfold exitCode, hasErrors, reported.
  destruct (report_errors (report st)) as [|[[] text] errs]; split; try done.
  - intros [[t H]|[t H]]; by apply elem_of_nil in H.
  - intros _. left. exists text. left.
  - intros _. right. exists text. left.
Qed.

(** C4, as amended: when the action returns, what it returns is the exit
    code of the report, which is not zero exactly when the cycle error
    was reported or, in a topological mode, a task that was started
    returned a non-zero exit code; outside the topological modes it is
    zero whatever the tasks returned. A missing current workspace
    without the all flag and an empty command path make the action
    throw before any report exists. When the selection returns and no
    executor raises, the action does return. *)
Theorem C4_exit_code o e fuel :
  (∀ c st', action o e fuel initial = (Returns c, st') →
     c = exitCode (report st') ∧
     (c ≠ 0%Z ↔ reported CYCLIC_DEPENDENCIES st' ∨
                (topological_mode o = true ∧ task_failed e st')) ∧
     (topological_mode o = false → c = 0%Z)) ∧
  (all o = false → cwdWorkspace e = None →
   action o e fuel initial = (Throws (WorkspaceRequiredError (options_cwd o)), initial)) ∧
  ((all o = true ∨ is_Some (cwdWorkspace e)) → commandPath e = [] →
   action o e fuel initial = (Throws (UsageError invalid_subcommand), initial)) ∧
  (∀ workspaces,
     (all o = true ∨ is_Some (cwdWorkspace e)) → commandPath e ≠ [] →
     selectWorkspaces o e fuel = Returns workspaces →
     (∀ s, s ∈ spawns (events (action o e fuel initial).2) → returned e s) →
     ∃ c, (action o e fuel initial).1 = Returns c).
Proof.
  assert (Hctx : all o = true ∨ is_Some (cwdWorkspace e) →
                 negb (all o) && negb (bool_decide (is_Some (cwdWorkspace e))) = false).
  { intros [->|Hcw]; [done|]. rewrite (bool_decide_eq_true_2 _ Hcw).
    by destruct (all o). }
  split; [|split; [|split]].
  - intros c st' Hact.
    destruct (action_cases o e fuel)
      as [(_ & _ & Heq)|[(_ & Heq)|[(_ & Heq)|[(err & _ & Heq)|(ws & _ & _ & _ & Heq)]]]];
      rewrite Heq in Hact; try done.
    pose proof (rounds_report o e (length (seed ws [])) (seeded ws)) as Hrep.
    destruct (rounds o e (length (seed ws [])) (seeded ws)) as [[[]|err|] st1];
      cbn [fst snd] in *; [|done..].
    injection Hact as <- <-.
    destruct Hrep as [Hun Hcyc].
    { done. }
    { intros [t H]. by apply elem_of_nil in H. }
    { split; [intros [t H]; by apply elem_of_nil in H|].
      intros [_ (s & H & _)]. by apply elem_of_nil in H. }
    split; [done|]. split.
    + rewrite exitCode_nonzero, Hun. done.
    + intros Htopo. destruct (decide (exitCode (report st1) = 0%Z)) as [|Hnz]; [done|].
      apply exitCode_nonzero in Hnz as [Hc|Hu].
      * apply Hcyc in Hc. congruence.
      * apply Hun in Hu as [? _]. congruence.
  - intros Hall Hcw. unfold action. rewrite Hall, Hcw. done.
  - intros Hc Hpath. unfold action. rewrite (Hctx Hc), Hpath. done.
  - intros ws Hc Hpath Hsel.
    rewrite (action_selected o e fuel ws (Hctx Hc) Hpath Hsel).
    pose proof (rounds_terminate o e (length (seed ws [])) (seeded ws) ltac:(done)) as Hfuel.
    pose proof (rounds_outcome o e (length (seed ws [])) (seeded ws) ltac:(constructor))
      as Hout.
    destruct (rounds o e (length (seed ws [])) (seeded ws)) as [[[]|err|] st1];
      cbn [fst snd] in *; [eauto| |done].
    intros Hall. exfalso.
    destruct Hout as (i & w & x & Hin & _ & Hx).
    destruct (Hall (i, w) Hin) as [code Hcode]. simpl in Hcode. congruence.
Qed.

Lemma C4_exit_code_witness :
  let o := Scenarios.options "run" false true false in
  let e := Scenarios.unordered_env in
  let st' := (action o e 3 initial).2 in
  task_failed e st' ∧
  (0%Z ≠ 0%Z ↔ reported CYCLIC_DEPENDENCIES st' ∨
               (topological_mode o = true ∧ task_failed e st')).
Proof.
  intros o e st'.
  assert (Hact : action o e 3 initial = (Returns 0%Z, st')) by (vm_compute; reflexivity).
  destruct (proj1 (C4_exit_code o e 3) _ _ Hact) as (_ & Hiff & _).
  split; [|exact Hiff].
  exists (3, Scenarios.D). split; [vm_compute; right; right; left|vm_compute; discriminate].
Defined.

(** The action does not return the exit code of a report when no
    subcommand could be parsed: it throws, and no report was made. *)
Lemma C4_usage_error_is_thrown :
  ¬ ∃ fuel,
      returns_report_exit_code (Scenarios.options "" false false false)
                               Scenarios.usage_env fuel.
Proof.
  intros (fuel & st' & Hact).
  destruct fuel; vm_compute in Hact; discriminate.
Qed.

(** ** The guard and the absent workspace *)

(** C10, as amended: with the all flag, no current workspace, the
    requested name equal to the running script, a command path that is
    not empty, a walk that ends and a candidate that passes the script
    test, the guard reads the directory of the absent workspace: the
    action throws a [TypeError] with nothing reported, nothing pending
    and nothing started. *)
Theorem C10_absent_workspace_is_dereferenced o e descendants :
  all o = true →
  cwdWorkspace e = None →
  npm_lifecycle_event e = Some (requested o e) →
  commandPath e ≠ [] →
  Descendants (project e) (workspacesCwds (topLevelWorkspace (project e))) descendants →
  (∃ w, w ∈ topLevelWorkspace (project e) :: descendants ∧ declares_script e w = true) →
  ∃ n, ∀ fuel, n ≤ fuel → action o e fuel initial = (Throws TypeError, initial).
Proof.
  intros Hall Hcw Hev Hpath Hwalk Hcand.
  assert (Hroot : rootWorkspace o e = topLevelWorkspace (project e))
    by (unfold rootWorkspace; by rewrite Hall).
  rewrite <- Hroot in Hwalk.
  destruct (getWorkspaceChildrenRecursive_complete _ _ _ Hwalk) as [n Hn].
  exists n. intros fuel Hfuel. unfold action. rewrite Hall. cbn [negb andb].
  destruct (commandPath e) as [|c cs]; [done|].
  unfold selectWorkspaces. rewrite (Hn fuel Hfuel), Hroot.
  by rewrite (select_loop_absent o e _ [] Hcw Hev Hcand).
Qed.

Lemma C10_absent_workspace_is_dereferenced_witness :
  ∃ n, ∀ fuel, n ≤ fuel →
    action (Scenarios.options "run" true true false) Scenarios.outside_env fuel initial
    = (Throws TypeError, initial).
Proof.
  apply (C10_absent_workspace_is_dereferenced
           (Scenarios.options "run" true true false) Scenarios.outside_env
           [Scenarios.L; Scenarios.D; Scenarios.R; Scenarios.D]).
  - reflexivity.
  - reflexivity.
  - vm_compute. reflexivity.
  - vm_compute. discriminate.
  - apply (getWorkspaceChildrenRecursive_sound _ 3). vm_compute. reflexivity.
  - exists Scenarios.T. split; [left|]. vm_compute. reflexivity.
Defined.


(** When no candidate declares the script, the loop never reaches the
    guard: the run ends without an error. *)
Lemma C10_no_candidate_reaches_the_guard :
  ¬ absent_workspace_raises (Scenarios.options "run" true true false)
                            Scenarios.noscript_env.
Proof.
  intros Hclaim.
  destruct Hclaim as (fuel & st' & Hact);
    [reflexivity|reflexivity|vm_compute; reflexivity|].
  destruct fuel; vm_compute in Hact; discriminate.
Qed.


(** * Further properties of the command *)

(** ** The walk over the child workspaces *)

Section Walk.
Variable p : Project.

(** [w'] is registered under a directory that [w] declares as a child. *)
Local Abbreviation child w w' :=
  (∃ c, c ∈ workspacesCwds w ∧ workspacesByCwd p !! c = Some w').

Lemma children_loop_stuck rec cwds c w :
  c ∈ cwds → workspacesByCwd p !! c = Some w → rec w = None →
  children_loop p rec cwds = None.
Proof.
  intros Hin Hc Hrec. induction cwds as [|c' cs IH]; [by apply elem_of_nil in Hin|].
  cbn [children_loop].
  apply elem_of_cons in Hin as [<-|Hin].
  - by rewrite Hc, Hrec.
  - destruct (workspacesByCwd p !! c') as [w'|]; [|by apply IH].
    destruct (rec w'); [|done]. cbn [mbind option_bind]. by rewrite (IH Hin).
Qed.

(** X1: the walk has no protection against a loop among the child
    declarations. When every workspace of a set has a child in the set
    (a workspace that lists its own directory is such a set), the walk
    from any of them does not end: it has no result for any amount of
    fuel, and there is no list of descendants for it. *)
Theorem X1_walk_never_ends_on_a_loop (P : Workspace → Prop) w :
  (∀ w, P w → ∃ w', (∃ c, c ∈ workspacesCwds w ∧ workspacesByCwd p !! c = Some w') ∧ P w') →
  P w →
  (∀ fuel, getWorkspaceChildrenRecursive p fuel w = None) ∧
  ¬ ∃ l, Descendants p (workspacesCwds w) l.
Proof.
  intros Hclosed Hw.
  assert (Hnone : ∀ fuel w, P w → getWorkspaceChildrenRecursive p fuel w = None).
  { induction fuel as [|fuel IH]; intros w0 Hw0; [done|].
    destruct (Hclosed w0 Hw0) as (w' & (c & Hc & Hreg) & Hw').
    cbn [getWorkspaceChildrenRecursive].
    apply (children_loop_stuck _ _ c w'); auto. }
  split; [intros fuel; by apply Hnone|].
  intros [l Hl]. destruct (getWorkspaceChildrenRecursive_complete _ _ _ Hl) as [n Hn].
  specialize (Hn n ltac:(lia)). rewrite (Hnone n w Hw) in Hn. done.
Qed.

Lemma Descendants_registered cwds l :
  Descendants p cwds l →
  ∀ w, w ∈ l →
    (∃ c, c ∈ cwds ∧ workspacesByCwd p !! c = Some w) ∨
    (∃ parent, parent ∈ l ∧ child parent w).
Proof.
  induction 1 as [|c cs l Hc _ IH|c cs w0 below later Hc _ IH1 _ IH2]; intros w Hw.
  - by apply elem_of_nil in Hw.
  - destruct (IH w Hw) as [(c' & Hin & Hreg)|Hpar]; [left|by right].
    exists c'. split; [by right|done].
  - apply elem_of_cons in Hw as [->|Hw].
    { left. exists c. split; [left|done]. }
    apply elem_of_app in Hw as [Hw|Hw].
    + right. destruct (IH1 w Hw) as [(c' & Hin & Hreg)|(parent & Hp & Hch)].
      * exists w0. split; [left|]. by exists c'.
      * exists parent. split; [|done]. right. apply elem_of_app. by left.
    + destruct (IH2 w Hw) as [(c' & Hin & Hreg)|(parent & Hp & Hch)].
      * left. exists c'. split; [by right|done].
      * right. exists parent. split; [|done]. right. apply elem_of_app. by right.
Qed.

(** X2: every workspace that the walk lists is registered in the project
    under a directory that the root or another listed workspace declares
    as a child; a declared directory that is not registered is passed
    over without an error, so a root none of whose child directories is
    registered has no descendants. *)
Theorem X2_walk_lists_registered_children fuel root l :
  getWorkspaceChildrenRecursive p fuel root = Some l →
  (∀ w, w ∈ l →
     ∃ parent c, (parent = root ∨ parent ∈ l) ∧
                 c ∈ workspacesCwds parent ∧ workspacesByCwd p !! c = Some w) ∧
  ((∀ c, c ∈ workspacesCwds root → workspacesByCwd p !! c = None) → l = []).
Proof.
  intros Hwalk. apply getWorkspaceChildrenRecursive_sound in Hwalk. split.
  - intros w Hw.
    destruct (Descendants_registered _ _ Hwalk w Hw) as [(c & Hin & Hreg)|(parent & Hp & c & Hin & Hreg)].
    + exists root, c. auto.
    + exists parent, c. auto.
  - intros Hnone. destruct l as [|w l]; [done|]. exfalso.
    assert (∀ l', Descendants p (workspacesCwds root) l' → l' = []) as Hempty.
    { clear Hwalk. revert Hnone. generalize (workspacesCwds root).
      intros cwds Hnone l' Hd. induction Hd as [|c cs l0 Hc _ IH|c cs w0 below later Hc _ _ _ _].
      - done.
      - apply IH. intros c' Hc'. apply Hnone. by right.
      - rewrite Hnone in Hc; [done|left]. }
    by apply Hempty in Hwalk.
Qed.
End Walk.

Lemma X1_walk_never_ends_on_a_loop_witness :
  getWorkspaceChildrenRecursive
    (Scenarios.project_of (Scenarios.workspace_at "/s" "S" ["/s"] [] []) [])
    1000 (Scenarios.workspace_at "/s" "S" ["/s"] [] []) = None.
Proof.
  apply (X1_walk_never_ends_on_a_loop _
           (λ w, w = Scenarios.workspace_at "/s" "S" ["/s"] [] [])); [|reflexivity].
  intros w ->. exists (Scenarios.workspace_at "/s" "S" ["/s"] [] []).
  split; [|reflexivity]. exists "/s". split; [left|]. vm_compute. reflexivity.
Defined.

Lemma X2_walk_lists_registered_children_witness :
  ∃ parent c,
    (parent = Scenarios.T ∨ parent ∈ [Scenarios.L; Scenarios.D; Scenarios.R; Scenarios.D]) ∧
    c ∈ workspacesCwds parent ∧
    workspacesByCwd Scenarios.diamond_project !! c = Some Scenarios.D.
Proof.
  apply (X2_walk_lists_registered_children Scenarios.diamond_project 3 Scenarios.T).
  - vm_compute. reflexivity.
  - right. left.
Defined.

(** ** The selection *)

Section SelectionErrors.
Variable o : ForeachOptions.
Variable e : Env.

Lemma select_loop_undeclared candidates workspaces :
  (∀ w, w ∈ candidates → declares_script e w = false) →
  select_loop o e candidates workspaces = Returns workspaces.
Proof.
  revert workspaces. induction candidates as [|w ws IH]; intros acc Hnone; [done|].
  cbn [select_loop]. rewrite truthy_declares, (Hnone w) by left. cbn [negb].
  apply IH. intros w' Hw'. apply Hnone. by right.
Qed.

(** X3: the selection loop fails in one way only. Whatever the
    candidates, it returns a list or throws a [TypeError], and it throws
    exactly when there is no current workspace, the requested name is
    the one of the running script, and some candidate passes the script
    test. *)
Theorem X3_selection_fails_only_at_the_guard candidates workspaces :
  (select_loop o e candidates workspaces = Throws TypeError ↔
   cwdWorkspace e = None ∧
   npm_lifecycle_event e = Some (requested o e) ∧
   ∃ w, w ∈ candidates ∧ declares_script e w = true) ∧
  (∀ err, select_loop o e candidates workspaces = Throws err → err = TypeError) ∧
  select_loop o e candidates workspaces ≠ OutOfFuel.
Proof.
  destruct (cwdWorkspace e) as [cw|] eqn:Hcw.
  { rewrite select_loop_safe by (rewrite Hcw; done).
    split; [|done]. split; [done|]. by intros [? _]. }
  destruct (decide (npm_lifecycle_event e = Some (requested o e))) as [Hev|Hev].
  2:{ rewrite select_loop_safe by done. split; [|done]. split; [done|]. by intros (_ & ? & _). }
  destruct (decide (Exists (λ w, declares_script e w = true) candidates)) as [Hex|Hno].
  - apply Exists_exists in Hex.
    rewrite (select_loop_absent o e candidates workspaces Hcw Hev Hex).
    split; [split; [auto|done]|]. split; [|done].
    intros err Heq. congruence.
  - rewrite select_loop_undeclared.
    + split; [|done]. split; [done|]. intros (_ & _ & Hex). exfalso. apply Hno.
      by apply Exists_exists.
    + intros w Hw. destruct (declares_script e w) eqn:Hd; [|done].
      exfalso. apply Hno. apply Exists_exists. eauto.
Qed.

(** X4: only a [run] command with an argument filters by script. For
    any other command path, and for [run] without an argument, no
    script name is derived and the script test drops no workspace. The
    guard then compares the command itself with the running script:
    when there is a current workspace, or the two differ, the selection
    is the candidates filtered by the guard, the include list and the
    exclude list; when there is none and the two are the same, the loop
    raises at its first candidate. *)
Theorem X4_only_run_filters_by_script candidates :
  commandPath e ≠ ["run"] ∨ parsedArgs e = [] →
  scriptName e = None ∧
  requested o e = command o ∧
  ((cwdWorkspace e = None → npm_lifecycle_event e ≠ Some (command o)) →
   select_loop o e candidates [] =
     Returns (filter (λ w, not_excluded o w = true)
               (filter (λ w, included o w = true)
                 (filter (λ w, is_originating o e w = false) candidates)))) ∧
  (cwdWorkspace e = None → npm_lifecycle_event e = Some (command o) →
   candidates ≠ [] →
   select_loop o e candidates [] = Throws TypeError).
Proof.
  intros Hcmd.
  assert (Hname : scriptName e = None).
  { unfold scriptName. destruct (commandPath e) as [|c [|c' cs]]; [done| |done].
    destruct (decide (c = "run")) as [->|]; [|done].
    destruct Hcmd as [?|Hargs]; [done|by rewrite Hargs]. }
  assert (Hreq : requested o e = command o) by (unfold requested; by rewrite Hname).
  split; [done|]. split; [done|]. split.
  - intros Hsafe. rewrite select_loop_safe by (by rewrite Hreq). unfold selected_spec.
    rewrite (filter_all (λ w, declares_script e w = true) candidates); [done|].
    intros w _. unfold declares_script. by rewrite Hname.
  - intros Hcw Hev Hne. apply select_loop_absent; [done|by rewrite Hreq|].
    destruct candidates as [|w ws]; [done|]. exists w. split; [left|].
    unfold declares_script. by rewrite Hname.
Qed.
End SelectionErrors.

Lemma X4_only_run_filters_by_script_witness :
  let o := Scenarios.options "publish" false false false in
  select_loop o (Scenarios.env_of Scenarios.noscript_project (Some Scenarios.N)
                                  ["npm"; "publish"] [] None (λ _ _, Scenarios.exits 0))
              [Scenarios.N] []
  = Returns [Scenarios.N] ∧
  select_loop o (Scenarios.env_of Scenarios.noscript_project None
                                  ["npm"; "publish"] [] (Some "publish")
                                  (λ _ _, Scenarios.exits 0))
              [Scenarios.N] []
  = Throws TypeError.
Proof.
  intros o. split.
  - destruct (X4_only_run_filters_by_script o
                (Scenarios.env_of Scenarios.noscript_project (Some Scenarios.N)
                                  ["npm"; "publish"] [] None (λ _ _, Scenarios.exits 0))
                [Scenarios.N]) as (_ & _ & Hsel & _).
    + left. discriminate.
    + rewrite Hsel by discriminate. vm_compute. reflexivity.
  - destruct (X4_only_run_filters_by_script o
                (Scenarios.env_of Scenarios.noscript_project None
                                  ["npm"; "publish"] [] (Some "publish")
                                  (λ _ _, Scenarios.exits 0))
                [Scenarios.N]) as (_ & _ & _ & Hthrow).
    + left. discriminate.
    + apply Hthrow; [reflexivity|reflexivity|discriminate].
Defined.

(** ** Eligibility *)

Section Eligibility.
Variable o : ForeachOptions.
Variable e : Env.

Local Abbreviation lh := anchoredLocator_locatorHash.

(** X5: the tasks that one scan hands to the gate do not wait for each
    other: in a topological mode no workspace that resolves a relevant
    descriptor of one of them is the workspace of another, or of
    itself. *)
Theorem X5_tasks_of_a_round_are_independent needs proc kw kw' :
  topological_mode o = true →
  kw ∈ (scan o e needs needs proc).1 →
  kw' ∈ (scan o e needs needs proc).1 →
  ∀ d w, d ∈ (resolvedSet o kw.2).*2 →
         w ∈ findWorkspacesByDescriptor (project e) d →
         lh w ≠ kw'.1.
Proof.
  intros Htopo Hkw Hkw' d w Hd Hw Heq.
  apply (scan_runnable o e) in Hkw.
  apply (proj1 (isRunnable_spec o e _ _) Hkw Htopo d w Hd Hw).
  rewrite Heq. apply list_elem_of_fmap_2.
  eapply elem_of_sublist; [exact Hkw'|apply scan_sublist].
Qed.

(** X6: completion only unblocks, and dev dependencies only block more.
    A workspace that is runnable stays runnable when entries leave the
    pending map, and a workspace that is runnable with the dev
    dependencies taken into account is runnable without them. *)
Theorem X6_runnable_is_monotone needs needs' w :
  (∀ k, k ∈ needs'.*1 → k ∈ needs.*1) →
  isRunnable o e needs w = true →
  isRunnable o e needs' w = true ∧
  (topologicalDev o = true →
   deps_loop e needs (manifest_dependencies w) true = true).
Proof.
  intros Hsub Hrun. split.
  - apply isRunnable_spec. intros Htopo d w' Hd Hw' Hin.
    apply (proj1 (isRunnable_spec o e _ _) Hrun Htopo d w' Hd Hw'). auto.
  - intros Hdev. apply deps_loop_spec. intros d w' Hd Hw'.
    assert (Htopo : topological_mode o = true).
    { unfold topological_mode. rewrite Hdev. by destruct (topological o). }
    apply (proj1 (isRunnable_spec o e needs w) Hrun Htopo d w'); [|done].
    unfold resolvedSet. rewrite Hdev, fmap_app. apply elem_of_app. by left.
Qed.

Lemma isRunnable_false needs w :
  isRunnable o e needs w = false →
  topological_mode o = true ∧ blocked o e needs w.
Proof.
  unfold isRunnable, topological_mode, blocked.
  destruct (topological o || topologicalDev o); [|done].
  intros Hloop. split; [done|].
  induction (resolvedSet o w) as [|[i d] resolved IH]; [done|].
  cbn [deps_loop] in Hloop.
  destruct (existsb _ _) eqn:Hex; cbn [negb] in Hloop.
  - apply existsb_exists in Hex as (w' & Hw' & Hhas).
    exists d, w'. split; [left|]. split; [by apply list_elem_of_In|].
    by apply bool_decide_eq_true in Hhas.
  - destruct (IH Hloop) as (d' & w' & Hd' & Hw' & Hin).
    exists d', w'. split; [by right|done].
Qed.
End Eligibility.

Lemma X5_tasks_of_a_round_are_independent_witness :
  let o := Scenarios.options "run" false true true in
  let e := Scenarios.fan_env in
  let needs := [("locator:H1", Scenarios.H1); ("locator:H2", Scenarios.H2)] in
  (scan o e needs needs ∅).1 = needs ∧
  "G" ∈ (resolvedSet o Scenarios.H1).*2 ∧
  Scenarios.G ∈ findWorkspacesByDescriptor (project e) "G" ∧
  ∀ d w, d ∈ (resolvedSet o Scenarios.H1).*2 →
         w ∈ findWorkspacesByDescriptor (project e) d →
         anchoredLocator_locatorHash w ≠ "locator:H2".
Proof.
  intros o e needs.
  split; [vm_compute; reflexivity|]. split; [vm_compute; left|].
  split; [vm_compute; left|].
  apply (X5_tasks_of_a_round_are_independent o e needs ∅
           ("locator:H1", Scenarios.H1) ("locator:H2", Scenarios.H2)).
  - reflexivity.
  - vm_compute. left.
  - vm_compute. right. left.
Defined.

Lemma X6_runnable_is_monotone_witness :
  let o := mkOptions "run" [] "/" [] [] false false None true true false false in
  let e := Scenarios.fan_env in
  let needs := [("locator:H2", Scenarios.H2); ("locator:K", Scenarios.K)] in
  isRunnable o e [("locator:H1", Scenarios.H1)] Scenarios.K = false ∧
  isRunnable o e needs Scenarios.K = true ∧
  isRunnable o e [("locator:K", Scenarios.K)] Scenarios.K = true ∧
  deps_loop e needs (manifest_dependencies Scenarios.K) true = true.
Proof.
  intros o e needs.
  assert (Hsub : ∀ k, k ∈ [("locator:K", Scenarios.K)].*1 → k ∈ needs.*1).
  { intros k Hk. apply list_elem_of_singleton in Hk as ->. vm_compute. right. left. }
  assert (Hrun : isRunnable o e needs Scenarios.K = true) by (vm_compute; reflexivity).
  split; [vm_compute; reflexivity|]. split; [exact Hrun|].
  destruct (X6_runnable_is_monotone o e needs [("locator:K", Scenarios.K)]
              Scenarios.K Hsub Hrun) as [Hless Hdeps].
  split; [exact Hless|]. apply Hdeps. reflexivity.
Defined.

(** ** The prefix of a task *)

(** X7: the prefix of a task is absent unless verbose output is asked
    for. When it is, its colour is always one of the five of the table
    (the index never leaves the table), two tasks whose command indices
    follow each other get different colours, and the colours repeat
    every five tasks. *)
Theorem X7_prefix_colours o e w i :
  (verbose o = false → getPrefix o e w i = None) ∧
  (verbose o = true →
   ∃ colour,
     colors !! (i mod length colors) = Some colour ∧
     getPrefix o e w i = Some (format e ("[" +:+ stringifyIdent e w +:+ "]:") colour)) ∧
  colors !! (i mod length colors) ≠ colors !! (S i mod length colors) ∧
  getPrefix o e w (i + 5) = getPrefix o e w i.
Proof.
  assert (Hlen : length colors = 5) by reflexivity.
  assert (Hr : i mod 5 < 5) by (apply Nat.mod_upper_bound; lia).
  assert (HS : S i mod 5 = S (i mod 5) mod 5).
  { replace (S i) with (1 + i) by lia.
    rewrite Nat.Div0.add_mod. rewrite (Nat.Div0.add_mod 1 (i mod 5)).
    by rewrite Nat.Div0.mod_mod. }
  split; [|split; [|split]].
  - intros Hv. unfold getPrefix. by rewrite Hv.
  - intros Hv. unfold getPrefix. rewrite Hv, Hlen. cbn [negb].
    destruct (colors !! (i mod 5)) as [c|] eqn:Hc.
    + exists c. done.
    + apply lookup_ge_None in Hc. rewrite Hlen in Hc. lia.
  - rewrite Hlen, HS.
    destruct (i mod 5) as [|[|[|[|[|r]]]]]; try lia; vm_compute; discriminate.
  - unfold getPrefix. rewrite Hlen.
    replace ((i + 5) mod 5) with (i mod 5); [done|].
    replace (i + 5) with (i + 1 * 5) by lia. by rewrite Nat.Div0.mod_add.
Qed.

Lemma X7_prefix_colours_witness :
  getPrefix (Scenarios.options "run" false false false)
            Scenarios.diamond_env Scenarios.T 1 = None.
Proof.
  exact (proj1 (X7_prefix_colours (Scenarios.options "run" false false false)
                                  Scenarios.diamond_env Scenarios.T 1) eq_refl).
Defined.

(** ** The limit of the gate *)

Lemma concurrency_at_least_one o cpus : (1 <= concurrency o cpus)%Q.
Proof.
  unfold concurrency. destruct (parallel o); [apply Q.le_max_l|apply Qle_refl].
Qed.

(** X8: the limit handed to the gate is never below 1. A jobs count
    other than 0 is the limit, whatever parallel is; without one (or
    with 0) the limit is 1 when parallel is off, and with parallel on
    it is half the number of processing units, which for an odd number
    of at least 3 is not a whole number. *)
Theorem X8_limit_of_the_gate o cpus :
  (1 <= limit o cpus)%Q ∧
  (∀ j, jobs o = Some j → 0 < j → limit o cpus = inject_Z (Z.of_nat j)) ∧
  (jobs o = None ∨ jobs o = Some 0 → parallel o = false → limit o cpus = 1%Q) ∧
  (jobs o = None ∨ jobs o = Some 0 → parallel o = true → 2 ≤ cpus →
     (limit o cpus == inject_Z (Z.of_nat cpus) / 2)%Q ∧
     (Nat.Odd cpus → ¬ ∃ z, (limit o cpus == inject_Z z)%Q)).
Proof.
  split; [|split; [|split]].
  - unfold limit. destruct (jobs o) as [[|j]|]; try apply concurrency_at_least_one.
    unfold Qle. simpl. lia.
  - unfold limit. intros j -> Hj. destruct j as [|j]; [lia|done].
  - unfold limit, concurrency. intros [->| ->] ->; done.
  - intros Hj Hp Hcpus.
    assert (Hlimit : limit o cpus = Qmax 1 (inject_Z (Z.of_nat cpus) / 2)).
    { unfold limit, concurrency. rewrite Hp. by destruct Hj as [->| ->]. }
    rewrite Hlimit.
    assert (Hmax : (Qmax 1 (inject_Z (Z.of_nat cpus) / 2) == inject_Z (Z.of_nat cpus) / 2)%Q).
    { apply Q.max_r. unfold Qle, Qdiv, Qmult, Qinv, inject_Z. simpl. lia. }
    split; [done|]. intros [n Hodd] [z Hz]. rewrite Hmax in Hz.
    unfold Qeq, Qdiv, Qmult, Qinv, inject_Z in Hz. simpl in Hz. lia.
Qed.

Lemma X8_limit_of_the_gate_witness :
  (limit (mkOptions "run" [] "/" [] [] false false None true false false false) 3
   == inject_Z 3 / 2)%Q ∧
  ¬ ∃ z, (limit (mkOptions "run" [] "/" [] [] false false None true false false false) 3
          == inject_Z z)%Q.
Proof.
  destruct (X8_limit_of_the_gate
              (mkOptions "run" [] "/" [] [] false false None true false false false) 3)
    as (_ & _ & _ & Hhalf).
  destruct (Hhalf (or_introl eq_refl) eq_refl) as [Heq Hodd]; [lia|].
  split; [exact Heq|]. apply Hodd. exists 1. reflexivity.
Defined.

(** ** What a run leaves behind *)

Lemma concat_fmap {A B} (f : A → list B) (l : list A) :
  concat (f <$> l) = flat_map f l.
Proof. induction l as [|x l IH]; [done|]. rewrite fmap_cons. simpl. by rewrite <- IH. Qed.

(** The trace of a run holds the events of the tasks started, and
    nothing else. *)
Lemma action_events o e fuel :
  events (action o e fuel initial).2 ≡ₚ
  flat_map (λ s, task_events o e s.2 s.1) (spawns (events (action o e fuel initial).2)).
Proof.
  destruct (action_traced o e fuel) as (_ & _ & Hint & _).
  by rewrite <- concat_fmap, <- (Interleaving_Permutation _ _ Hint).
Qed.

(** X9: command indices count the tasks in the order they start. In
    every run, the tasks started carry the indices 1, 2, 3 and so on
    without a gap, and the command count at the end is the number of
    tasks started. *)
Theorem X9_command_indices_count_the_tasks o e fuel :
  let end_ := (action o e fuel initial).2 in
  (spawns (events end_)).*1 = seq 1 (length (spawns (events end_))) ∧
  commandCount end_ = length (spawns (events end_)).
Proof.
  destruct (action_traced o e fuel) as (Hcount & Hidx & _). done.
Qed.

Section Separators.
Variable o : ForeachOptions.
Variable e : Env.

Local Abbreviation separators evs :=
  (length (filter (λ ev, is_separator ev = true) evs)).

Lemma task_events_separators w i :
  separators (task_events o e w i)
  = if negb (parallel o) && verbose o && bool_decide (1 < i) then 1 else 0.
Proof. unfold task_events. destruct (_ && _); reflexivity. Qed.

Lemma separators_from count (l : list (nat * Workspace)) :
  1 ≤ count →
  l.*1 = seq (S count) (length l) →
  separators (flat_map (λ s, task_events o e s.2 s.1) l)
  = if negb (parallel o) && verbose o then length l else 0.
Proof.
  revert count. induction l as [|[i w] l IH]; intros count Hc Hidx.
  - by destruct (_ && _).
  - cbn [fmap list_fmap length seq] in Hidx. injection Hidx as Hi Hidx. cbn [fst] in Hi.
    cbn [flat_map]. rewrite filter_app, length_app, task_events_separators.
    rewrite (IH (S count)) by (done || lia). cbn [snd fst length].
    destruct (negb (parallel o) && verbose o); cbn [andb]; [|done].
    rewrite bool_decide_eq_true_2 by lia. done.
Qed.

(** X10: with parallel off and verbose on, a separator is reported
    before every task but the first, so a run reports one separator
    less than it starts tasks; in every other mode no separator is ever
    reported. *)
Theorem X10_separators_between_tasks fuel :
  let end_ := (action o e fuel initial).2 in
  separators (events end_)
  = if negb (parallel o) && verbose o
    then pred (length (spawns (events end_))) else 0.
Proof.
  destruct (action_traced o e fuel) as (_ & Hidx & _).
  cbv zeta. rewrite (action_events o e fuel) at 1.
  destruct (spawns (events (action o e fuel initial).2)) as [|[i w] l].
  { by destruct (_ && _). }
  cbn [fmap list_fmap length seq] in Hidx. injection Hidx as Hi Hidx. cbn [fst] in Hi.
  cbn [flat_map]. rewrite filter_app, length_app, task_events_separators.
  rewrite (separators_from 1) by (done || lia). subst i.
  rewrite (bool_decide_eq_false_2 (1 < 1)) by lia. rewrite andb_false_r. done.
Qed.

(** X11: the lines that the task runner itself hands to [reportInfo]
    (what the stream writers of the report make of the output of the
    tasks is not among them). The runner reports such a line for a task
    exactly when verbose output is asked for, its executor returned, and
    it wrote nothing to either stream; the line carries the prefix of
    the task and the exit code that the scheduler reads from it. The
    runner reports no line for a task whose executor raised, none in a
    run without verbose output, and at most one for each task. *)
Theorem X11_info_lines fuel :
  let end_ := (action o e fuel initial).2 in
  (∀ line, line ∈ report_infos (report end_) ↔
     ∃ i w code,
       (i, w) ∈ spawns (events end_) ∧
       verbose o = true ∧
       exec_result (clipanion_run e i w) = Exited code ∧
       wrote_stdout (clipanion_run e i w) = false ∧
       wrote_stderr (clipanion_run e i w) = false ∧
       line = prefix_text (getPrefix o e w i)
                +:+ " Process exited without output (exit code "
                +:+ pretty (or_zero code) +:+ ")") ∧
  (verbose o = false → report_infos (report end_) = []) ∧
  length (report_infos (report end_)) ≤ length (spawns (events end_)).
Proof.
  destruct (action_traced o e fuel) as (_ & _ & _ & _ & _ & Hinfo). cbv zeta.
  revert Hinfo.
  generalize (report_infos (report (action o e fuel initial).2))
             (spawns (events (action o e fuel initial).2)).
  intros infos l Hinfo.
  assert (Hline : ∀ line i w, line ∈ task_infos o e w i ↔
     ∃ code, verbose o = true ∧
       exec_result (clipanion_run e i w) = Exited code ∧
       wrote_stdout (clipanion_run e i w) = false ∧
       wrote_stderr (clipanion_run e i w) = false ∧
       line = prefix_text (getPrefix o e w i)
                +:+ " Process exited without output (exit code "
                +:+ pretty (or_zero code) +:+ ")").
  { intros line i w. unfold task_infos.
    destruct (exec_result (clipanion_run e i w)) as [code|x].
    - destruct (verbose o), (wrote_stdout (clipanion_run e i w)),
        (wrote_stderr (clipanion_run e i w)); cbn [andb negb];
        rewrite ?list_elem_of_singleton, ?elem_of_nil; split;
        try done; try (by intros (c & ? & ? & ? & ? & ?)).
      + intros ->. by exists code.
      + intros (c & _ & [= <-] & _ & _ & ->). done.
    - rewrite elem_of_nil. split; [done|]. by intros (c & _ & ? & _). }
  split; [|split].
  - intros line. rewrite Hinfo, list_elem_of_In, in_flat_map. split.
    + intros ([i w] & Hin & Hl). apply list_elem_of_In in Hin, Hl.
      apply Hline in Hl as (code & H). exists i, w, code. done.
    + intros (i & w & code & Hin & H). exists (i, w).
      split; apply list_elem_of_In; [done|]. apply Hline. by exists code.
  - intros Hv. apply Permutation_nil_r. rewrite Hinfo. clear Hinfo.
    induction l as [|[i w] l IH]; [done|].
    cbn [flat_map]. rewrite IH, app_nil_r. unfold task_infos. rewrite Hv.
    by destruct (exec_result _).
  - rewrite Hinfo. clear Hinfo. induction l as [|[i w] l IH]; [done|].
    cbn [flat_map]. rewrite length_app. cbn [length].
    assert (length (task_infos o e w i) ≤ 1); [|simpl; lia].
    unfold task_infos. destruct (exec_result _); [|simpl; lia].
    destruct (_ && _); simpl; lia.
Qed.
End Separators.

(** ** Progress of the loop *)

Section Progress.
Variable o : ForeachOptions.
Variable e : Env.

Local Abbreviation lh := anchoredLocator_locatorHash.
Local Abbreviation dh := anchoredDescriptor_descriptorHash.
Local Abbreviation scanned st :=
  (scan o e (needsProcessing st) (needsProcessing st) (processing st)).

Lemma round_progress st :
  (round o e st).1 = Returns true →
  length (needsProcessing (round o e st).2) < length (needsProcessing st).
Proof.
  intros Hret.
  destruct (decide ((scanned st).1 = [])) as [Hnil|Hds].
  { by rewrite (round_cycle o e st Hnil) in Hret. }
  destruct (round_dispatch o e st Hds) as (evs & done & _ & _ & _ & Hin & Hsl & Hout).
  rewrite Hret in Hout. destruct Hout as (_ & -> & _).
  destruct (scanned st).1 as [|[k w] ds] eqn:Hscan; [done|].
  assert (Hk : (k, w) ∈ needsProcessing st).
  { eapply elem_of_sublist; [|apply (scan_sublist o e (needsProcessing st))].
    rewrite Hscan. left. }
  apply (sublist_missing_length _ _ (k, w) Hsl Hk).
  rewrite Hin. intros [_ Hk']. apply Hk'. simpl. left.
Qed.

(** X12: the loop cannot spin. A round after which the loop goes on has
    removed at least one entry from the pending map, so the loop is left
    after at most as many rounds as there are pending entries, and more
    rounds than that are never needed. Rounds are counted, not time:
    each round is awaited. *)
Theorem X12_the_loop_makes_progress :
  (∀ st, (round o e st).1 = Returns true →
         length (needsProcessing (round o e st).2) < length (needsProcessing st)) ∧
  (∀ fuel st, length (needsProcessing st) ≤ fuel →
     (rounds o e fuel st).1 ≠ OutOfFuel ∧
     rounds o e fuel st = rounds o e (length (needsProcessing st)) st).
Proof.
  split; [exact round_progress|].
  - intros fuel st Hlen. split; [by apply rounds_terminate|].
    remember (length (needsProcessing st)) as n eqn:Hn.
    assert (Hle : length (needsProcessing st) ≤ n) by lia. clear Hn.
    revert st fuel Hlen Hle. induction n as [|n IH]; intros st fuel Hlen Hle.
    + destruct (needsProcessing st) eqn:Hneeds; [|simpl in Hle; lia].
      rewrite !rounds_eq, Hneeds. done.
    + destruct fuel as [|fuel]; [lia|].
      destruct (rounds_cases o e (S fuel) st) as [[Hstop ->]|(Hne & Herr & ->)];
        destruct (rounds_cases o e (S n) st) as [[Hstop' ->]|(Hne' & Herr' & ->)];
        try done.
      * destruct Hstop as [?|?]; congruence.
      * destruct Hstop' as [?|?]; congruence.
      * pose proof (round_progress st) as Hprog.
        destruct (round o e st) as [[[]|err|] st1]; cbn [fst snd] in *; try done.
        specialize (Hprog eq_refl). apply IH; lia.
Qed.
End Progress.

Lemma X12_the_loop_makes_progress_witness :
  let o := Scenarios.options "run" false false false in
  let e := Scenarios.diamond_env in
  length (needsProcessing (seeded [Scenarios.T; Scenarios.L])) ≤ 9 ∧
  (rounds o e 9 (seeded [Scenarios.T; Scenarios.L])).1 ≠ OutOfFuel.
Proof.
  intros o e.
  assert (Hfuel : length (needsProcessing (seeded [Scenarios.T; Scenarios.L])) ≤ 9)
    by (vm_compute; lia).
  split; [exact Hfuel|].
  exact (proj1 (proj2 (X12_the_loop_makes_progress o e) 9
                      (seeded [Scenarios.T; Scenarios.L]) Hfuel)).
Defined.

(** ** Every selected workspace, and dependencies first *)

Section Order.
Variable o : ForeachOptions.
Variable e : Env.

Local Abbreviation lh := anchoredLocator_locatorHash.
Local Abbreviation dh := anchoredDescriptor_descriptorHash.
Local Abbreviation scanned st :=
  (scan o e (needsProcessing st) (needsProcessing st) (processing st)).

(** What a round that starts tasks does to the tasks started so far:
    the new ones are entries of the scan, in its order. *)
Lemma round_spawns st :
  (scanned st).1 ≠ [] →
  ∃ new,
    spawns (events (round o e st).2) = (spawns (events st) ++ new)%list ∧
    new.*2 `prefix_of` (scanned st).1.*2 ∧
    ((round o e st).1 = Returns true → new.*2 = (scanned st).1.*2).
Proof.
  intros Hds.
  destruct (round_dispatch o e st Hds) as (evs & done & Hev & _ & _ & _ & _ & Hout).
  exists (spawns evs). rewrite Hev, spawns_app. split; [done|].
  destruct (round o e st) as [[again|err|] st']; cbn [fst snd] in *; [| |done].
  - destruct Hout as (_ & _ & -> & _). split; done.
  - destruct Hout as (_ & i & w & x & _ & _ & _ & Hpre). split; [by rewrite Hpre|].
    intros [=].
Qed.

Lemma round_keeps_once st :
  once st → (round o e st).1 = Returns true → once (round o e st).2.
Proof.
  intros Hst Hret.
  destruct (decide ((scanned st).1 = [])) as [Hnil|Hds].
  { by rewrite (round_cycle o e st Hnil) in Hret. }
  pose proof (scan_sublist o e (needsProcessing st) (needsProcessing st) (processing st))
    as Hsub.
  destruct (round_dispatch o e st Hds) as (evs & done & Hev & _ & _ & Hkeep & Hsl & Hout).
  rewrite Hret in Hout. destruct Hout as (_ & -> & Hsp & _).
  destruct (spawned_fresh st _ (spawns evs) Hst Hsub) as [Hfresh Hnew];
    [by rewrite Hsp|].
  destruct Hst as (Hnd & Hkey & _ & Hout).
  split; [eapply sublist_NoDup; [exact Hnd|by apply fmap_sublist]|].
  split; [intros k w Hin; apply Hkey; by apply Hkeep in Hin as [? _]|].
  rewrite Hev, spawns_app. split; [done|].
  intros s [Hs|Hs]%elem_of_app Hk.
  - apply (Hout s Hs). eapply elem_of_sublist; [exact Hk|by apply fmap_sublist].
  - apply list_elem_of_fmap in Hk as (kw & Heq & Hkw).
    apply Hkeep in Hkw as [_ Hkw]. apply Hkw. rewrite <- Heq. by apply Hnew.
Qed.

Lemma round_keeps_covered scope st :
  once st → covered scope st →
  (round o e st).1 = Returns true → covered scope (round o e st).2.
Proof.
  intros Hst Hcov Hret.
  destruct (decide ((scanned st).1 = [])) as [Hnil|Hds].
  { by rewrite (round_cycle o e st Hnil) in Hret. }
  pose proof (scan_sublist o e (needsProcessing st) (needsProcessing st) (processing st))
    as Hsub.
  destruct (round_dispatch o e st Hds) as (evs & done & Hev & _ & _ & Hkeep & _ & Hout).
  rewrite Hret in Hout. destruct Hout as (_ & -> & Hsp & _).
  assert (Hkeys : lh <$> (scanned st).1.*2 = (scanned st).1.*1).
  { apply keyed_fmap. intros k w Hin. apply Hst. by eapply elem_of_sublist. }
  intros k Hk. rewrite Hev, spawns_app, !fmap_app, elem_of_app.
  destruct (Hcov k Hk) as [Hpend|Hold]; [|auto].
  destruct (decide (k ∈ (scanned st).1.*1)) as [Hd|Hd].
  - right. right. by rewrite Hsp, Hkeys.
  - left. apply list_elem_of_fmap in Hpend as (kw & -> & Hkw).
    apply list_elem_of_fmap_2. apply Hkeep. done.
Qed.

Lemma dependencies_first_app scope (old new : list (nat * Workspace)) :
  dependencies_first o e scope old →
  (∀ s, s ∈ new →
     ∀ d w', d ∈ (resolvedSet o s.2).*2 →
             w' ∈ findWorkspacesByDescriptor (project e) d →
             lh w' ∈ scope → lh w' ∈ lh <$> old.*2) →
  dependencies_first o e scope (old ++ new).
Proof.
  intros Hold Hnew l1 s l2 Heq d w' Hd Hw' Hscope.
  apply app_eq_inv in Heq as [(k & Hold_eq & Hk)|(k & Hl1 & Hk)].
  - destruct k as [|s' k]; simpl in Hk.
    + rewrite app_nil_r in Hold_eq. subst old.
      apply (Hnew s) with (d := d); [|done..]. rewrite <- Hk. left.
    + injection Hk as <- Hk. by apply (Hold l1 s k Hold_eq d w').
  - rewrite Hl1, !fmap_app, elem_of_app. left.
    apply (Hnew s) with (d := d); [|done..]. rewrite Hk. apply elem_of_app. right. left.
Qed.

Lemma rounds_order scope fuel st :
  topological_mode o = true →
  once st → covered scope st →
  dependencies_first o e scope (spawns (events st)) →
  dependencies_first o e scope (spawns (events (rounds o e fuel st).2)).
Proof.
  intros Htopo. revert st. induction fuel as [|fuel IH]; intros st Hst Hcov Hdep;
    (match goal with |- context [rounds o e ?f st] =>
       destruct (rounds_cases o e f st) as [[_ ->]|(Hne & Herr & ->)] end);
    try done.
  destruct (decide ((scanned st).1 = [])) as [Hnil|Hds].
  { by rewrite (round_cycle o e st Hnil). }
  destruct (round_spawns st Hds) as (new & Hsp & [rest Hpre] & _).
  assert (Hnew : dependencies_first o e scope (spawns (events (round o e st).2))).
  { rewrite Hsp. apply dependencies_first_app; [done|].
    intros s Hs d w' Hd Hw' Hscope.
    assert (s.2 ∈ (scanned st).1.*2) as Hin.
    { rewrite Hpre. apply elem_of_app. left. by apply (list_elem_of_fmap_2 snd). }
    apply list_elem_of_fmap in Hin as (kw & Heq & Hkw).
    apply (scan_runnable o e) in Hkw. rewrite <- Heq in Hkw.
    destruct (Hcov _ Hscope) as [Hpend|?]; [|done].
    exfalso. by apply (proj1 (isRunnable_spec o e _ _) Hkw Htopo d w' Hd Hw'). }
  pose proof (round_keeps_once st Hst) as Honce.
  pose proof (round_keeps_covered scope st Hst Hcov) as Hcov'.
  destruct (round o e st) as [[[]|err|] st']; cbn [fst snd] in *; try done.
  apply IH; auto.
Qed.

Lemma seeded_once workspaces : once (seeded workspaces).
Proof.
  destruct (seed_spec workspaces []) as (Hnd & Hkey & _ & _);
    [constructor|intros k w H; by apply elem_of_nil in H|].
  split; [done|]. split; [done|]. split; [constructor|].
  intros s H. by apply elem_of_nil in H.
Qed.

Lemma seeded_covered workspaces : covered (lh <$> workspaces) (seeded workspaces).
Proof.
  destruct (seed_spec workspaces []) as (_ & _ & Hkeys & _);
    [constructor|intros k w H; by apply elem_of_nil in H|].
  intros k Hk. left. apply Hkeys. by left.
Qed.

(** *** Dependencies have completed *)

Lemma completed_app evs evs' s : completed e evs s → completed e (evs ++ evs') s.
Proof.
  intros (Hs & Hend & Hret). split; [|split; [|done]].
  - rewrite spawns_app. apply elem_of_app. by left.
  - apply elem_of_app. by left.
Qed.

(** Every task of a round that was awaited has come to its end. *)
Lemma settled_trace_finished count ds evs s :
  settled_trace o e count ds evs → s ∈ spawns evs → AwaitEnd s.1 Stderr ∈ evs.
Proof.
  intros (Hsp & Hint & _) Hs.
  rewrite (Interleaving_Permutation _ _ Hint), concat_fmap, <- Hsp.
  apply list_elem_of_In, in_flat_map. exists s. split; [by apply list_elem_of_In|].
  apply list_elem_of_In. unfold task_events, closing.
  rewrite !elem_of_app, !elem_of_cons. auto 10.
Qed.

Lemma rounds_completed scope fuel st :
  topological_mode o = true →
  once st → covered scope st →
  (∀ s, s ∈ spawns (events st) → completed e (events st) s) →
  completed_first o e scope (events st) →
  completed_first o e scope (events (rounds o e fuel st).2).
Proof.
  intros Htopo. revert st. induction fuel as [|fuel IH]; intros st Hst Hcov Hall Hdep;
    (match goal with |- context [rounds o e ?f st] =>
       destruct (rounds_cases o e f st) as [[_ ->]|(Hne & Herr & ->)] end);
    try done.
  destruct (decide ((scanned st).1 = [])) as [Hnil|Hds].
  { by rewrite (round_cycle o e st Hnil). }
  destruct (round_dispatch o e st Hds) as (evs & done & Hev & Htrace & _ & _ & _ & Hout).
  pose proof Htrace as (Hsp & _).
  destruct (numbered_workspaces (commandCount st) (scanned st).1) as (Hws & _ & _).
  assert (Hnew : completed_first o e scope (events (round o e st).2)).
  { rewrite Hev. intros before i w after Heq d w' Hd Hw' Hscope.
    apply app_eq_inv in Heq as [(k & Hold & Hk)|(k & -> & Hk)].
    - destruct k as [|ev k]; simpl in Hk.
      + rewrite app_nil_r in Hold. subst before.
        assert (Hin : w ∈ (scanned st).1.*2).
        { rewrite <- Hws, <- Hsp, <- Hk. apply (list_elem_of_fmap_2 snd _ (i, w)). left. }
        apply list_elem_of_fmap in Hin as (kw & Heq & Hkw).
        apply (scan_runnable o e) in Hkw. rewrite <- Heq in Hkw.
        destruct (Hcov _ Hscope) as [Hpend|Hold].
        { exfalso. by apply (proj1 (isRunnable_spec o e _ _) Hkw Htopo d w' Hd Hw'). }
        apply list_elem_of_fmap in Hold as (w'' & Hlh & Hw'').
        apply list_elem_of_fmap in Hw'' as (s & -> & Hs).
        exists s. split; [done|]. by apply Hall.
      + injection Hk as <- Hk. by apply (Hdep before i w k Hold d w').
    - assert (Hin : w ∈ (scanned st).1.*2).
      { rewrite <- Hws, <- Hsp, Hk, spawns_app. apply (list_elem_of_fmap_2 snd _ (i, w)).
        apply elem_of_app. right. left. }
      apply list_elem_of_fmap in Hin as (kw & Heq & Hkw).
      apply (scan_runnable o e) in Hkw. rewrite <- Heq in Hkw.
      destruct (Hcov _ Hscope) as [Hpend|Hold].
      { exfalso. by apply (proj1 (isRunnable_spec o e _ _) Hkw Htopo d w' Hd Hw'). }
      apply list_elem_of_fmap in Hold as (w'' & Hlh & Hw'').
      apply list_elem_of_fmap in Hw'' as (s & -> & Hs).
      exists s. split; [done|]. apply completed_app. by apply Hall. }
  pose proof (round_keeps_once st Hst) as Honce.
  pose proof (round_keeps_covered scope st Hst Hcov) as Hcov'.
  destruct (round o e st) as [[[]|err|] st']; cbn [fst snd] in *; try done.
  apply IH; auto.
  destruct Hout as (_ & _ & _ & _ & _ & Hret).
  intros s. rewrite Hev, spawns_app. intros [Hs|Hs]%elem_of_app.
  - apply completed_app. by apply Hall.
  - split; [rewrite spawns_app; apply elem_of_app; by right|]. split.
    + apply elem_of_app. right. by apply (settled_trace_finished _ _ _ _ Htrace).
    + rewrite Forall_forall in Hret. by apply Hret.
Qed.

(** X13: under topological ordering, dependencies have completed when
    a task starts. In every run, at the point of the trace where a task
    is started, the task of each workspace of the selection that
    resolves one of its relevant descriptors was started before, its
    executor returned, and it has come to its end. *)
Theorem X13_dependencies_run_first fuel workspaces :
  topological_mode o = true →
  selectWorkspaces o e fuel = Returns workspaces →
  ∀ before i w after,
    events (action o e fuel initial).2 = (before ++ Spawn i w :: after)%list →
    ∀ d w', d ∈ (resolvedSet o w).*2 →
            w' ∈ findWorkspacesByDescriptor (project e) d →
            lh w' ∈ lh <$> workspaces →
            ∃ j w'', lh w'' = lh w' ∧
                     (j, w'') ∈ spawns before ∧
                     AwaitEnd j Stderr ∈ before ∧
                     returned e (j, w'').
Proof.
  intros Htopo Hsel before i w after.
  destruct (action_cases o e fuel)
    as [(_ & _ & ->)|[(_ & ->)|[(_ & ->)|[(err & _ & ->)|(ws & _ & _ & Hsel' & ->)]]]];
    cbn [fst snd]; try (by destruct before).
  rewrite Hsel in Hsel'. injection Hsel' as <-.
  pose proof (rounds_completed (lh <$> workspaces) (length (seed workspaces []))
                (seeded workspaces) Htopo (seeded_once _) (seeded_covered _)) as Hord.
  assert (Hfirst : completed_first o e (lh <$> workspaces)
                     (events (rounds o e (length (seed workspaces []))
                                (seeded workspaces)).2)).
  { apply Hord.
    - intros s Hs. inversion Hs.
    - intros [|? ?] ? ? ? Heq; discriminate. }
  clear Hord.
  assert (Hgoal : events (rounds o e (length (seed workspaces [])) (seeded workspaces)).2
                  = (before ++ Spawn i w :: after)%list →
                  ∀ d w', d ∈ (resolvedSet o w).*2 →
                    w' ∈ findWorkspacesByDescriptor (project e) d →
                    lh w' ∈ lh <$> workspaces →
                    ∃ j w'', lh w'' = lh w' ∧ (j, w'') ∈ spawns before ∧
                             AwaitEnd j Stderr ∈ before ∧ returned e (j, w'')).
  { intros Heq d w' Hd Hw' Hscope.
    destruct (Hfirst before i w after Heq d w' Hd Hw' Hscope)
      as ([j w''] & Hlh & Hs & Hend & Hret).
    by exists j, w''. }
  by destruct (rounds o e (length (seed workspaces [])) (seeded workspaces))
    as [[[]|err|] st'].
Qed.
End Order.

(** ** Runs that end well, and runs that end on a cycle *)

Section Endings.
Variable o : ForeachOptions.
Variable e : Env.

Local Abbreviation lh := anchoredLocator_locatorHash.
Local Abbreviation scanned st :=
  (scan o e (needsProcessing st) (needsProcessing st) (processing st)).

Lemma rounds_cover scope fuel st :
  once st → covered scope st →
  match (rounds o e fuel st).1 with
  | Returns _ =>
      covered scope (rounds o e fuel st).2 ∧
      (hasErrors (report (rounds o e fuel st).2) = false →
       needsProcessing (rounds o e fuel st).2 = [])
  | _ => True
  end.
Proof.
  intros Hst Hcov.
  pose (I := λ st, once st ∧ covered scope st).
  pose (Q := λ (out : Outcome unit) st,
    match out with
    | Returns _ =>
        covered scope st ∧ (hasErrors (report st) = false → needsProcessing st = [])
    | _ => True
    end).
  assert (Hrule : match (rounds o e fuel st).1 with
                  | OutOfFuel => True
                  | out => Q out (rounds o e fuel st).2
                  end).
  { apply (rounds_rule o e I Q); [| |done].
    - intros st0 [_ Hc] [Hnil|Herr]; (split; [done|]); [done|congruence].
    - clear. intros st [Hst Hcov] Hne Herr.
      pose proof (round_keeps_once o e st Hst) as Honce.
      pose proof (round_keeps_covered o e scope st Hst Hcov) as Hcov'.
      destruct (decide ((scanned st).1 = [])) as [Hnil|Hds].
      { rewrite (round_cycle o e st Hnil). cbn [fst snd]. split; [done|].
        unfold hasErrors. cbn. by destruct (report_errors (report st)). }
      destruct (round_dispatch o e st Hds) as (evs & done & _ & _ & _ & _ & _ & Hout).
      destruct (round o e st) as [[again|err|] st']; cbn [fst snd] in *; [|done..].
      destruct Hout as [Hagain _]. subst again. split; auto. }
  destruct (rounds o e fuel st) as [[[]|err|] st']; cbn [fst snd] in *; done.
Qed.

(** X14: a run that returns 0 has done all its work. Nothing is left in
    the pending map, every workspace of the selection was started, each
    locator hash once, and under topological ordering every task
    returned 0. Outside the topological modes every run that returns,
    returns 0. *)
Theorem X14_exit_zero_means_all_ran fuel workspaces c :
  selectWorkspaces o e fuel = Returns workspaces →
  (action o e fuel initial).1 = Returns c →
  let end_ := (action o e fuel initial).2 in
  (topological_mode o = false → c = 0%Z) ∧
  (c = 0%Z →
   needsProcessing end_ = [] ∧
   (∀ w, w ∈ workspaces → lh w ∈ lh <$> (spawns (events end_)).*2) ∧
   length (spawns (events end_)) = length (seed workspaces []) ∧
   Forall (returned e) (spawns (events end_)) ∧
   (topological_mode o = true → ∀ s, s ∈ spawns (events end_) → exit_of e s = 0%Z)).
Proof.
  intros Hsel.
  destruct (action_cases o e fuel)
    as [(_ & _ & ->)|[(_ & ->)|[(_ & ->)|[(err & _ & ->)|(ws & _ & _ & Hsel' & ->)]]]];
    cbn [fst snd]; try done.
  rewrite Hsel in Hsel'. injection Hsel' as <-.
  pose proof (rounds_cover (lh <$> workspaces) (length (seed workspaces []))
                (seeded workspaces) (seeded_once _) (seeded_covered _)) as Hcover.
  pose proof (rounds_once o e (length (seed workspaces [])) (seeded workspaces)
                (seeded_once _)) as Hnodup.
  pose proof (rounds_within o e workspaces (length (seed workspaces []))
                (seeded workspaces)) as Hwithin.
  pose proof (rounds_report o e (length (seed workspaces [])) (seeded workspaces)) as Hrep.
  pose proof (rounds_outcome o e (length (seed workspaces [])) (seeded workspaces)
                ltac:(constructor)) as Htrace.
  destruct (rounds o e (length (seed workspaces [])) (seeded workspaces))
    as [[[]|err|] st']; cbn [fst snd] in *; [|done..].
  intros [= <-].
  destruct Hrep as [Hun Hcyc].
  { done. }
  { intros [t H]. by apply elem_of_nil in H. }
  { split; [intros [t H]; by apply elem_of_nil in H|].
    intros [_ (s & H & _)]. by apply elem_of_nil in H. }
  destruct Hcover as [Hcov Hdone].
  assert (Hzero : exitCode (report st') = 0%Z → hasErrors (report st') = false).
  { unfold exitCode. by destruct (hasErrors (report st')). }
  split.
  { intros Htopo. destruct (decide (exitCode (report st') = 0%Z)) as [|Hnz]; [done|].
    apply exitCode_nonzero in Hnz as [Hc|Hu].
    - apply Hcyc in Hc. congruence.
    - apply Hun in Hu as [? _]. congruence. }
  intros Hc. specialize (Hdone (Hzero Hc)).
  split; [done|].
  assert (Hall : ∀ k, k ∈ lh <$> workspaces → k ∈ lh <$> (spawns (events st')).*2).
  { intros k Hk. destruct (Hcov k Hk) as [Hpend|?]; [|done].
    rewrite Hdone in Hpend. by apply elem_of_nil in Hpend. }
  split; [intros w Hw; apply Hall; by apply list_elem_of_fmap_2|].
  split; [|split; [done|]].
  - destruct (seed_spec workspaces []) as (Hnd & _ & Hkeys & _);
      [constructor|intros k w H; by apply elem_of_nil in H|].
    rewrite <- (length_fmap (snd : nat * Workspace → Workspace)),
            <- (length_fmap lh), <- (length_fmap (fst : LocatorHash * Workspace → _)).
    apply Permutation_length, NoDup_Permutation; [done..|].
    intros k. rewrite Hkeys. split.
    + intros Hk. left.
      apply list_elem_of_fmap in Hk as (w & -> & Hw).
      apply list_elem_of_fmap in Hw as (s & -> & Hs).
      apply list_elem_of_fmap_2. apply Hwithin; [| |done].
      * intros kw Hkw. destruct (seed_spec workspaces []) as (_ & _ & _ & Hfrom);
          [constructor|intros k' w' H; by apply elem_of_nil in H|].
        apply Hfrom in Hkw as [?|H]; [done|by apply elem_of_nil in H].
      * intros s' H. by apply elem_of_nil in H.
    + intros [Hk|Hk]; [by apply Hall|by apply elem_of_nil in Hk].
  - intros Htopo s Hs. destruct (decide (exit_of e s = 0%Z)) as [|Hnz]; [done|].
    exfalso. assert (reported UNNAMED st') as [t Ht].
    { apply Hun. split; [done|]. by exists s. }
    apply Hzero in Hc. unfold hasErrors in Hc.
    destruct (report_errors (report st')); [by apply elem_of_nil in Ht|done].
Qed.

Lemma scan_nothing_eligible needs entries proc :
  (scan o e needs entries proc).1 = [] →
  ∀ kw, kw ∈ entries → ¬ eligible o e needs proc kw.
Proof.
  intros Hnil kw Hin Hel. by apply (scan_finds o e needs entries proc kw).
Qed.

Lemma rounds_deadlock fuel st :
  processing st = ∅ →
  ¬ reported CYCLIC_DEPENDENCIES st →
  match (rounds o e fuel st).1 with
  | Returns _ =>
      reported CYCLIC_DEPENDENCIES (rounds o e fuel st).2 →
      needsProcessing (rounds o e fuel st).2 ≠ [] ∧
      ∀ kw, kw ∈ needsProcessing (rounds o e fuel st).2 →
            blocked o e (needsProcessing (rounds o e fuel st).2) kw.2
  | _ => True
  end.
Proof.
  intros Hproc Hcyc.
  pose (I := λ st, processing st = ∅ ∧ ¬ reported CYCLIC_DEPENDENCIES st).
  pose (Q := λ (out : Outcome unit) st,
    match out with
    | Returns _ =>
        reported CYCLIC_DEPENDENCIES st →
        needsProcessing st ≠ [] ∧
        ∀ kw, kw ∈ needsProcessing st → blocked o e (needsProcessing st) kw.2
    | _ => True
    end).
  assert (Hrule : match (rounds o e fuel st).1 with
                  | OutOfFuel => True
                  | out => Q out (rounds o e fuel st).2
                  end).
  { apply (rounds_rule o e I Q); [| |done].
    - intros st0 [_ Hc] _ Hrep. by apply Hc in Hrep.
    - clear. intros st [Hproc Hcyc] Hne Herr.
      destruct (decide ((scanned st).1 = [])) as [Hnil|Hds].
      { rewrite (round_cycle o e st Hnil). cbn [fst snd]. intros _.
        cbn [needsProcessing]. split; [done|].
        intros kw Hkw.
        destruct (isRunnable o e (needsProcessing st) kw.2) eqn:Hrun.
        - exfalso. apply (scan_nothing_eligible _ _ _ Hnil kw Hkw).
          split; [rewrite Hproc; set_solver|done].
        - by apply isRunnable_false in Hrun as [_ ?]. }
      destruct (round_dispatch o e st Hds) as (evs & done & _ & _ & _ & _ & _ & Hout).
      destruct (round o e st) as [[again|err|] st']; cbn [fst snd] in *; [|done..].
      destruct Hout as (-> & _ & _ & Hproc' & Herr' & _).
      split; [rewrite Hproc', Hproc; set_solver|].
      intros [t Ht]. rewrite Herr', (hasErrors_false _ Herr) in Ht. cbn in Ht.
      destruct (_ && _); [|by apply elem_of_nil in Ht].
      apply list_elem_of_singleton in Ht. done. }
  destruct (rounds o e fuel st) as [[[]|err|] st']; cbn [fst snd] in *; done.
Qed.

(** X15: the cycle error means a deadlock. When a run ends with the
    cyclic-dependency error reported, a topological mode is on, the
    pending map is not empty, and every workspace in it waits for a
    workspace that is in it as well: through one of its relevant
    descriptors the resolver returns a pending workspace. *)
Theorem X15_cycle_error_means_deadlock fuel c st' :
  action o e fuel initial = (Returns c, st') →
  reported CYCLIC_DEPENDENCIES st' →
  topological_mode o = true ∧
  needsProcessing st' ≠ [] ∧
  ∀ kw, kw ∈ needsProcessing st' → blocked o e (needsProcessing st') kw.2.
Proof.
  intros Hact Hrep.
  destruct (action_cases o e fuel)
    as [(_ & _ & Heq)|[(_ & Heq)|[(_ & Heq)|[(err & _ & Heq)|(ws & _ & _ & _ & Heq)]]]];
    rewrite Heq in Hact; try done.
  pose proof (rounds_deadlock (length (seed ws [])) (seeded ws)) as Hdead.
  pose proof (rounds_report o e (length (seed ws [])) (seeded ws)) as Hreport.
  destruct (rounds o e (length (seed ws [])) (seeded ws)) as [[[]|err|] st1];
    cbn [fst snd] in *; [|done..].
  injection Hact as <- <-.
  assert (Hno : ¬ reported CYCLIC_DEPENDENCIES (seeded ws))
    by (intros [t H]; by apply elem_of_nil in H).
  destruct Hreport as [_ Htopo]; [done|done| |].
  { split; [intros [t H]; by apply elem_of_nil in H|].
    intros [_ (s & H & _)]. by apply elem_of_nil in H. }
  split; [by apply Htopo|]. by apply Hdead.
Qed.
End Endings.

(** ** The order of the tasks without topological ordering *)

Section Unordered.
Variable o : ForeachOptions.
Variable e : Env.

Local Abbreviation lh := anchoredLocator_locatorHash.
Local Abbreviation dh := anchoredDescriptor_descriptorHash.
Local Abbreviation scanned st :=
  (scan o e (needsProcessing st) (needsProcessing st) (processing st)).

Lemma foldl_map_delete ks (m : list (LocatorHash * Workspace)) :
  foldl (λ m k, map_delete k m) m ks = filter (λ kv, kv.1 ∉ ks) m.
Proof.
  revert m. induction ks as [|k ks IH]; intros m; cbn [foldl].
  - symmetry. apply filter_all. intros kv _. apply not_elem_of_nil.
  - rewrite IH. unfold map_delete. rewrite list_filter_filter.
    apply list_filter_iff. intros kv. rewrite not_elem_of_cons. tauto.
Qed.

Lemma round_needs st :
  (round o e st).1 = Returns true →
  needsProcessing (round o e st).2
  = filter (λ kv, kv.1 ∉ (scanned st).1.*1) (needsProcessing st).
Proof.
  intros Hret.
  destruct (decide ((scanned st).1 = [])) as [Hnil|Hds].
  { by rewrite (round_cycle o e st Hnil) in Hret. }
  destruct (round_settles o e st Hds) as (evs & infos & _ & _ & Hst & Hout).
  rewrite Hret in Hout. destruct Hout as (_ & Hreturning & _).
  rewrite Hst. cbn [needsProcessing]. by rewrite Hreturning.
Qed.

(** Without topological ordering, and with nothing being processed, a
    scan takes the entries as they come: all of them in parallel mode
    (when their descriptor hashes differ), the first one otherwise. *)
Lemma scan_all needs entries proc :
  topological_mode o = false →
  (∀ kw, kw ∈ entries → dh kw.2 ∉ proc) →
  (parallel o = true → NoDup (dh <$> entries.*2)) →
  (scan o e needs entries proc).1 = if parallel o then entries else take 1 entries.
Proof.
  intros Htopo. revert proc.
  induction entries as [|[k w] entries IH]; intros proc Hproc Hnd.
  { by destruct (parallel o). }
  cbn [scan]. rewrite bool_decide_eq_false_2 by (apply (Hproc (k, w)); left).
  assert (isRunnable o e needs w = true) as ->.
  { apply isRunnable_spec. by rewrite Htopo. }
  cbn [negb]. destruct (parallel o) eqn:Hpar; cbn [negb]; [|done].
  specialize (Hnd eq_refl). rewrite !fmap_cons in Hnd. apply NoDup_cons in Hnd as [Hw Hnd].
  specialize (IH (proc ∪ {[dh w]})).
  destruct (scan o e needs entries (proc ∪ {[dh w]})) as [ds proc'].
  cbn [fst] in *. rewrite IH; [done| |done].
  intros kw Hkw. apply not_elem_of_union. split; [apply Hproc; by right|].
  intros Heq%elem_of_singleton.
  assert (dh kw.2 ∈ dh <$> entries.*2) as Hin
    by (apply list_elem_of_fmap_2; by apply (list_elem_of_fmap_2 snd)).
  rewrite Heq in Hin. exact (Hw Hin).
Qed.

Lemma filter_prefix_keys (ds rest : list (LocatorHash * Workspace)) :
  NoDup (ds ++ rest)%list.*1 →
  filter (λ kv, kv.1 ∉ ds.*1) (ds ++ rest)%list = rest.
Proof.
  rewrite fmap_app. intros (_ & Hdisj & _)%NoDup_app.
  assert (Hnone : ∀ l : list (LocatorHash * Workspace),
            (∀ kv, kv ∈ l → kv.1 ∈ ds.*1) → filter (λ kv, kv.1 ∉ ds.*1) l = []).
  { induction l as [|kv l IH]; intros Hin; [done|].
    rewrite filter_cons_False.
    - apply IH. intros kv' Hkv'. apply Hin. by right.
    - intros Hnot. apply Hnot, Hin. left. }
  rewrite filter_app, Hnone by (intros kv Hkv; by apply (list_elem_of_fmap_2 fst)).
  cbn. apply filter_all. intros kv Hkv Hin. apply (Hdisj _ Hin).
  by apply (list_elem_of_fmap_2 fst).
Qed.

Lemma rounds_in_order (selection : list Workspace) fuel st :
  topological_mode o = false →
  processing st = ∅ →
  report_errors (report st) = [] →
  NoDup (needsProcessing st).*1 →
  (parallel o = true → NoDup (dh <$> (needsProcessing st).*2)) →
  ((spawns (events st)).*2 ++ (needsProcessing st).*2)%list = selection →
  (spawns (events (rounds o e fuel st).2)).*2 `prefix_of` selection ∧
  (∀ u, (rounds o e fuel st).1 = Returns u →
        (spawns (events (rounds o e fuel st).2)).*2 = selection).
Proof.
  intros Htopo. revert st.
  induction fuel as [|fuel IH]; intros st Hproc Herr Hnd Hdh Hsel;
    (match goal with |- context [rounds o e ?f st] =>
       destruct (rounds_cases o e f st) as [[Hstop ->]|(Hne & _ & ->)] end);
    cbn [fst snd].
  1,3: (destruct Hstop as [Hnil|Herr'];
        [rewrite Hnil, app_nil_r in Hsel; by rewrite Hsel
        |unfold hasErrors in Herr'; by rewrite Herr in Herr']).
  { split; [|done]. rewrite <- Hsel. by apply prefix_app_r. }
  assert (Hscan : (scanned st).1 = if parallel o then needsProcessing st
                                   else take 1 (needsProcessing st)).
  { apply scan_all; [done| |done]. intros kw _. rewrite Hproc. set_solver. }
  assert (Hsplit : ∃ rest, needsProcessing st = ((scanned st).1 ++ rest)%list).
  { rewrite Hscan. destruct (parallel o).
    - exists []. by rewrite app_nil_r.
    - exists (drop 1 (needsProcessing st)). by rewrite take_drop. }
  destruct Hsplit as [rest Hrest].
  assert (Hds : (scanned st).1 ≠ []).
  { rewrite Hscan. destruct (needsProcessing st); [done|]. by destruct (parallel o). }
  destruct (round_spawns o e st Hds) as (new & Hsp & [more Hpre] & Hall).
  pose proof (round_needs st) as Hneeds.
  destruct (round_dispatch o e st Hds) as (evs & done & _ & _ & _ & _ & _ & Hout).
  destruct (round o e st) as [[again|err|] st1]; cbn [fst snd] in *.
  - destruct Hout as (Hagain & _ & _ & Hproc1 & Herr1 & _). subst again.
    specialize (Hneeds eq_refl). specialize (Hall eq_refl).
    assert (Hneeds' : needsProcessing st1 = rest).
    { rewrite Hneeds.
      etrans; [|apply (filter_prefix_keys (scanned st).1 rest); by rewrite <- Hrest].
      f_equal. exact Hrest. }
    clear Hneeds. rename Hneeds' into Hneeds.
    apply IH.
    + rewrite Hproc1, Hproc. set_solver.
    + rewrite Herr1, Herr, Htopo. done.
    + rewrite Hneeds. rewrite Hrest, fmap_app in Hnd. by apply NoDup_app in Hnd as (_ & _ & ?).
    + intros Hpar. specialize (Hdh Hpar). rewrite Hneeds.
      rewrite Hrest, !fmap_app in Hdh. by apply NoDup_app in Hdh as (_ & _ & ?).
    + rewrite Hsp, Hneeds, fmap_app, Hall, <- app_assoc, <- fmap_app, <- Hrest. done.
  - split; [|done]. rewrite Hsp, fmap_app, <- Hsel, Hrest, fmap_app, Hpre, <- !app_assoc.
    apply prefix_app, prefix_app_r. done.
  - done.
Qed.

(** X16: without topological ordering the tasks start in the order of
    the selection. In sequential mode, and in parallel mode when no two
    pending workspaces share a descriptor hash, the workspaces started
    by a run are a prefix of the pending map as seeded (the selection
    with later repetitions removed), and all of it when the action
    returns. *)
Theorem X16_selection_order_without_topology fuel workspaces :
  topological_mode o = false →
  (parallel o = true → NoDup (dh <$> (seed workspaces []).*2)) →
  selectWorkspaces o e fuel = Returns workspaces →
  let end_ := action o e fuel initial in
  (spawns (events end_.2)).*2 `prefix_of` (seed workspaces []).*2 ∧
  (∀ c, end_.1 = Returns c → (spawns (events end_.2)).*2 = (seed workspaces []).*2).
Proof.
  intros Htopo Hdh Hsel.
  destruct (action_cases o e fuel)
    as [(_ & _ & ->)|[(_ & ->)|[(_ & ->)|[(err & _ & ->)|(ws & _ & _ & Hsel' & ->)]]]];
    cbn [fst snd]; try (split; [apply prefix_nil|done]).
  rewrite Hsel in Hsel'. injection Hsel' as <-.
  destruct (rounds_in_order (seed workspaces []).*2 (length (seed workspaces []))
              (seeded workspaces) Htopo) as [Hpre Hall]; try done.
  { apply seeded_once. }
  destruct (rounds o e (length (seed workspaces [])) (seeded workspaces))
    as [[[]|err|] st']; cbn [fst snd] in *; (split; [done|]); try done.
  intros c _. by apply (Hall ()).
Qed.
End Unordered.

Lemma X13_dependencies_run_first_witness :
  let o := Scenarios.options "run" false true true in
  let e := Scenarios.fan_env in
  let trace := events (action o e 3 initial).2 in
  trace = (take 12 trace ++ Spawn 3 Scenarios.H2 :: drop 13 trace)%list ∧
  ∃ j w'', anchoredLocator_locatorHash w'' = "locator:G" ∧
           (j, w'') ∈ spawns (take 12 trace) ∧
           AwaitEnd j Stderr ∈ take 12 trace ∧
           returned e (j, w'').
Proof.
  intros o e trace.
  assert (Htopo : topological_mode o = true) by reflexivity.
  assert (Hsel : selectWorkspaces o e 3 = Returns [Scenarios.G; Scenarios.H1; Scenarios.H2])
    by (vm_compute; reflexivity).
  assert (Hrun : trace = (take 12 trace ++ Spawn 3 Scenarios.H2 :: drop 13 trace)%list)
    by (vm_compute; reflexivity).
  split; [exact Hrun|].
  apply (X13_dependencies_run_first o e 3 _ Htopo Hsel _ _ _ _ Hrun "G" Scenarios.G).
  - vm_compute. left.
  - vm_compute. left.
  - vm_compute. left.
Defined.

Lemma X14_exit_zero_means_all_ran_witness :
  let o := Scenarios.options "run" false true false in
  let e := Scenarios.unordered_env in
  needsProcessing (action o e 3 initial).2 = [] ∧
  length (spawns (events (action o e 3 initial).2)) = 4.
Proof.
  intros o e.
  assert (Hsel : selectWorkspaces o e 3
                 = Returns [Scenarios.T; Scenarios.L; Scenarios.D; Scenarios.R; Scenarios.D])
    by (vm_compute; reflexivity).
  assert (Hret : (action o e 3 initial).1 = Returns 0%Z) by (vm_compute; reflexivity).
  destruct (X14_exit_zero_means_all_ran o e 3 _ 0%Z Hsel Hret) as [_ Hdone].
  destruct (Hdone eq_refl) as (Hneeds & _ & Hlen & _).
  split; [exact Hneeds|]. rewrite Hlen. vm_compute. reflexivity.
Defined.

Lemma X15_cycle_error_means_deadlock_witness :
  let o := Scenarios.options "run" false false true in
  let e := Scenarios.cycle_env (λ _ _, Scenarios.exits 0) in
  needsProcessing (action o e 2 initial).2 ≠ [] ∧
  ∀ kw, kw ∈ needsProcessing (action o e 2 initial).2 →
        blocked o e (needsProcessing (action o e 2 initial).2) kw.2.
Proof.
  intros o e.
  assert (Hact : action o e 2 initial = (Returns 1%Z, (action o e 2 initial).2))
    by (vm_compute; reflexivity).
  assert (Hrep : reported CYCLIC_DEPENDENCIES (action o e 2 initial).2).
  { exists "Dependency cycle detected (X, Y)". vm_compute. left. }
  exact (proj2 (X15_cycle_error_means_deadlock o e 2 _ _ Hact Hrep)).
Defined.

Lemma X16_selection_order_without_topology_witness :
  let o := Scenarios.options "run" false false false in
  let e := Scenarios.diamond_env in
  (spawns (events (action o e 3 initial).2)).*2
  = [Scenarios.T; Scenarios.L; Scenarios.D; Scenarios.R].
Proof.
  intros o e.
  assert (Htopo : topological_mode o = false) by reflexivity.
  assert (Hpar : parallel o = true →
                 NoDup (anchoredDescriptor_descriptorHash <$>
                          (seed [Scenarios.T; Scenarios.L; Scenarios.D; Scenarios.R;
                                 Scenarios.D] []).*2))
    by (intros Hp; vm_compute in Hp; discriminate).
  assert (Hsel : selectWorkspaces o e 3
                 = Returns [Scenarios.T; Scenarios.L; Scenarios.D; Scenarios.R; Scenarios.D])
    by (vm_compute; reflexivity).
  assert (Hret : (action o e 3 initial).1 = Returns 0%Z) by (vm_compute; reflexivity).
  destruct (X16_selection_order_without_topology o e 3 _ Htopo Hpar Hsel) as [_ Hall].
  rewrite (Hall 0%Z Hret). vm_compute. reflexivity.
Defined.

(** ** Workspaces that can never run *)

Section Dead.
Variable o : ForeachOptions.
Variable e : Env.

Local Abbreviation lh := anchoredLocator_locatorHash.

Lemma action_dependencies_first fuel workspaces :
  topological_mode o = true →
  selectWorkspaces o e fuel = Returns workspaces →
  dependencies_first o e (lh <$> workspaces) (spawns (events (action o e fuel initial).2)).
Proof.
  intros Htopo Hsel.
  destruct (action_cases o e fuel)
    as [(_ & _ & ->)|[(_ & ->)|[(_ & ->)|[(err & _ & ->)|(ws & _ & _ & Hsel' & ->)]]]];
    cbn [fst snd]; try (intros [|? ?] ? ? Heq; discriminate).
  rewrite Hsel in Hsel'. injection Hsel' as <-.
  pose proof (rounds_order o e (lh <$> workspaces) (length (seed workspaces []))
                (seeded workspaces) Htopo (seeded_once _) (seeded_covered _)) as Hord.
  destruct (rounds o e (length (seed workspaces [])) (seeded workspaces))
    as [[[]|err|] st']; cbn [fst snd] in *; apply Hord;
    intros [|? ?] ? ? Heq; discriminate.
Qed.

Lemma action_within fuel workspaces :
  selectWorkspaces o e fuel = Returns workspaces →
  ∀ s, s ∈ spawns (events (action o e fuel initial).2) → s.2 ∈ workspaces.
Proof.
  intros Hsel.
  destruct (action_cases o e fuel)
    as [(_ & _ & ->)|[(_ & ->)|[(_ & ->)|[(err & _ & ->)|(ws & _ & _ & Hsel' & ->)]]]];
    cbn [fst snd]; try (intros s H; by apply elem_of_nil in H).
  rewrite Hsel in Hsel'. injection Hsel' as <-.
  pose proof (rounds_within o e workspaces (length (seed workspaces []))
                (seeded workspaces)) as Hwithin.
  destruct (rounds o e (length (seed workspaces [])) (seeded workspaces))
    as [[[]|err|] st']; cbn [fst snd] in *; apply Hwithin;
    try (intros s H; by apply elem_of_nil in H);
    (intros kw Hkw; destruct (seed_spec workspaces []) as (_ & _ & _ & Hfrom);
       [constructor|intros k w' H; by apply elem_of_nil in H|];
     apply Hfrom in Hkw as [?|H]; [done|by apply elem_of_nil in H]).
Qed.

Lemma action_covers fuel workspaces :
  selectWorkspaces o e fuel = Returns workspaces →
  (action o e fuel initial).1 = Returns 0%Z →
  ∀ w, w ∈ workspaces → lh w ∈ lh <$> (spawns (events (action o e fuel initial).2)).*2.
Proof.
  intros Hsel.
  destruct (action_cases o e fuel)
    as [(_ & _ & ->)|[(_ & ->)|[(_ & ->)|[(err & _ & ->)|(ws & _ & _ & Hsel' & ->)]]]];
    cbn [fst snd]; try done.
  rewrite Hsel in Hsel'. injection Hsel' as <-.
  pose proof (rounds_cover o e (lh <$> workspaces) (length (seed workspaces []))
                (seeded workspaces) (seeded_once _) (seeded_covered _)) as Hcover.
  destruct (rounds o e (length (seed workspaces [])) (seeded workspaces))
    as [[[]|err|] st']; cbn [fst snd] in *; [|done..].
  intros [= Hc] w Hw. destruct Hcover as [Hcov Hdone].
  assert (hasErrors (report st') = false) as Hno
    by (unfold exitCode in Hc; by destruct (hasErrors (report st'))).
  destruct (Hcov (lh w)) as [Hpend|?]; [by apply list_elem_of_fmap_2| |done].
  rewrite (Hdone Hno) in Hpend. by apply elem_of_nil in Hpend.
Qed.

(** X17: workspaces caught in a dependency loop never run. Under
    topological ordering, take any set of locator hashes such that every
    selected workspace with a hash of the set has, for one of its
    relevant descriptors, a resolved workspace of the selection whose
    hash is in the set too (a workspace that depends on itself, or two
    that depend on each other). Then no run ever starts a workspace of
    the set, and a run whose selection holds one does not return 0. *)
Theorem X17_members_of_a_loop_never_start (stuck : LocatorHash → Prop) fuel workspaces :
  topological_mode o = true →
  selectWorkspaces o e fuel = Returns workspaces →
  (∀ w, w ∈ workspaces → stuck (lh w) →
     ∃ d w', d ∈ (resolvedSet o w).*2 ∧
             w' ∈ findWorkspacesByDescriptor (project e) d ∧
             lh w' ∈ lh <$> workspaces ∧
             stuck (lh w')) →
  (∀ s, s ∈ spawns (events (action o e fuel initial).2) → ¬ stuck (lh s.2)) ∧
  ((∃ w, w ∈ workspaces ∧ stuck (lh w)) → (action o e fuel initial).1 ≠ Returns 0%Z).
Proof.
  intros Htopo Hsel Hloop.
  pose proof (action_dependencies_first fuel workspaces Htopo Hsel) as Hfirst.
  pose proof (action_within fuel workspaces Hsel) as Hwithin.
  assert (Hnever : ∀ s, s ∈ spawns (events (action o e fuel initial).2) →
                        ¬ stuck (lh s.2)).
  { revert Hfirst Hwithin.
    generalize (spawns (events (action o e fuel initial).2)). intros l Hfirst Hwithin.
    assert (Hpre : ∀ n l1 s l2, length l1 < n → l = (l1 ++ s :: l2)%list →
                                ¬ stuck (lh s.2)).
    { induction n as [|n IH]; intros l1 s l2 Hlen Heq Hs; [lia|].
      assert (Hin : s ∈ l) by (rewrite Heq; apply elem_of_app; right; left).
      destruct (Hloop s.2 (Hwithin s Hin) Hs) as (d & w' & Hd & Hw' & Hscope & Hmem).
      pose proof (Hfirst l1 s l2 Heq d w' Hd Hw' Hscope) as Hbefore.
      apply list_elem_of_fmap in Hbefore as (w1 & Hlh & Hw1).
      apply list_elem_of_fmap in Hw1 as (s1 & -> & Hs1).
      apply list_elem_of_split in Hs1 as (l1a & l1b & ->).
      apply (IH l1a s1 (l1b ++ s :: l2)%list).
      - rewrite length_app in Hlen. simpl in Hlen. lia.
      - by rewrite Heq, <- app_assoc.
      - by rewrite <- Hlh. }
    intros s Hs. apply list_elem_of_split in Hs as (l1 & l2 & Heq).
    apply (Hpre (Datatypes.S (length l1)) l1 s l2); [lia|done]. }
  split; [done|].
  intros (w & Hw & Hstuck) Hret.
  pose proof (action_covers fuel workspaces Hsel Hret w Hw) as Hstarted.
  apply list_elem_of_fmap in Hstarted as (w1 & Hlh & Hw1).
  apply list_elem_of_fmap in Hw1 as (s1 & -> & Hs1).
  apply (Hnever s1 Hs1). by rewrite <- Hlh.
Qed.
End Dead.

Lemma X17_members_of_a_loop_never_start_witness :
  topological_mode (Scenarios.options "run" false true true) = true ∧
  (action (Scenarios.options "run" false true true)
          (Scenarios.cycle_env (λ _ _, Scenarios.exits 0)) 2 initial).1 ≠ Returns 0%Z.
Proof.
  split; [reflexivity|].
  apply (X17_members_of_a_loop_never_start
           (Scenarios.options "run" false true true)
           (Scenarios.cycle_env (λ _ _, Scenarios.exits 0))
           (λ k, k = "locator:X" ∨ k = "locator:Y") 2 [Scenarios.X; Scenarios.Y]).
  - reflexivity.
  - vm_compute. reflexivity.
  - intros w Hw _. apply elem_of_cons in Hw as [->|Hw].
    + exists "Y", Scenarios.Y. vm_compute. repeat apply conj; [left|left|right; left|by right].
    + apply list_elem_of_singleton in Hw as ->.
      exists "X", Scenarios.X. vm_compute. repeat apply conj; [left|left|left|by left].
  - exists Scenarios.X. split; [left|by left].
Defined.

(** ** Streams *)

(** X18: every stream of a run belongs to a task that was started and
    carries that task's prefix; with parallel off it is always created
    unbuffered, whatever the interlaced flag says, and with parallel on
    it is unbuffered exactly when the interlaced flag is set. *)
Theorem X18_streams_of_a_run o e fuel i sink prefix direct :
  CreateStream i sink prefix direct ∈ events (action o e fuel initial).2 →
  (∃ w, (i, w) ∈ spawns (events (action o e fuel initial).2) ∧
        prefix = getPrefix o e w i) ∧
  direct = (if parallel o then interlaced o else true).
Proof.
  rewrite (action_events o e fuel) at 1.
  intros Hin. apply list_elem_of_In, in_flat_map in Hin as ([i' w] & Hs & Hin).
  apply list_elem_of_In in Hs, Hin. unfold task_events in Hin. cbn [fst snd] in Hin.
  assert (Hcase : CreateStream i sink prefix direct
                  ∈ [CreateStream i' Stdout (getPrefix o e w i') (interlaced' o);
                     CreateStream i' Stderr (getPrefix o e w i') (interlaced' o)]).
  { apply elem_of_app in Hin as [Hin|Hin].
    - destruct (_ && _); [|by apply elem_of_nil in Hin].
      by apply list_elem_of_singleton in Hin.
    - apply elem_of_app in Hin as [Hin|Hin]; [done|].
      apply elem_of_cons in Hin as [?|Hin]; [done|].
      unfold closing in Hin. set_solver. }
  assert (Hdirect : interlaced' o = if parallel o then interlaced o else true).
  { unfold interlaced'. by destruct (parallel o). }
  apply elem_of_cons in Hcase as [Heq|Hcase];
    [|apply list_elem_of_singleton in Hcase as Heq];
    injection Heq as -> _ -> ->; (split; [by exists w|done]).
Qed.

Lemma X18_streams_of_a_run_witness :
  true = (if parallel (Scenarios.options "run" false false false)
          then interlaced (Scenarios.options "run" false false false) else true).
Proof.
  apply (X18_streams_of_a_run (Scenarios.options "run" false false false)
           Scenarios.diamond_env 3 1 Stdout None true).
  vm_compute. left.
Defined.

(** ** The first failure under sequential topological ordering *)

Section FirstFailure.
Variable o : ForeachOptions.
Variable e : Env.

Local Abbreviation scanned st :=
  (scan o e (needsProcessing st) (needsProcessing st) (processing st)).
Local Abbreviation succeeded := (λ s : nat * Workspace, exit_of e s = 0%Z).

Lemma all_but_last {A} (P : A → Prop) (l0 tail l1 l2 : list A) s :
  Forall P l0 → length tail ≤ 1 →
  (l0 ++ tail)%list = (l1 ++ s :: l2)%list → Forall P l1.
Proof.
  intros Hall Hlen Heq.
  apply app_eq_inv in Heq as [(k & -> & Hk)|(k & -> & Hk)].
  - by apply Forall_app in Hall as [? _].
  - destruct k as [|x k]; [by rewrite app_nil_r|].
    rewrite Hk in Hlen. simpl in Hlen. rewrite length_app in Hlen. simpl in Hlen. lia.
Qed.

Lemma rounds_stop_at_failure fuel st :
  topological_mode o = true →
  parallel o = false →
  report_errors (report st) = [] →
  Forall succeeded (spawns (events st)) →
  ∃ tail,
    length tail ≤ 1 ∧
    ∃ l0, spawns (events (rounds o e fuel st).2) = (l0 ++ tail)%list ∧ Forall succeeded l0.
Proof.
  intros Htopo Hpar. revert st.
  induction fuel as [|fuel IH]; intros st Herr Hzero;
    (match goal with |- context [rounds o e ?f st] =>
       destruct (rounds_cases o e f st) as [[_ ->]|(Hne & _ & ->)] end);
    cbn [fst snd].
  1-3: by (exists []; split; [simpl; lia|]; exists (spawns (events st)); rewrite app_nil_r).
  pose proof (scan_sequential o e (needsProcessing st) (needsProcessing st) (processing st) Hpar)
    as Hscan.
  assert (Hlen : length (scanned st).1 ≤ 1) by (rewrite Hscan, length_take; lia).
  destruct (scanned st).1 as [|[k w] [|d ds]] eqn:Hds; simpl in Hlen; [| |lia].
  { rewrite (round_cycle o e st Hds). cbn [snd events].
    exists []. split; [simpl; lia|]. exists (spawns (events st)). by rewrite app_nil_r. }
  destruct (round_single o e st k w Hds) as [Hsp _].
  destruct (round_dispatch o e st) as (evs & done & Hev & _ & _ & _ & _ & Hout);
    [by rewrite Hds|].
  assert (Hnew : spawns evs = [(S (commandCount st), w)]).
  { rewrite Hev, spawns_app in Hsp. by apply app_inv_head in Hsp. }
  destruct (round o e st) as [[again|err|] st1]; cbn [fst snd] in *.
  - destruct Hout as (Hagain & _ & _ & _ & Herr1 & _). subst again.
    rewrite Herr, Hnew, Htopo in Herr1. cbn in Herr1.
    destruct (exit_of e (S (commandCount st), w) =? 0)%Z eqn:Hexit; cbn in Herr1.
    + apply IH; [done|]. rewrite Hsp. apply Forall_app. split; [done|].
      apply Forall_singleton. by apply Z.eqb_eq.
    + destruct (rounds_cases o e fuel st1) as [[_ ->]|(_ & Hno & _)].
      * exists [(S (commandCount st), w)]. split; [simpl; lia|].
        exists (spawns (events st)). done.
      * unfold hasErrors in Hno. by rewrite Herr1 in Hno.
  - exists [(S (commandCount st), w)]. split; [simpl; lia|].
    exists (spawns (events st)). done.
  - done.
Qed.

(** X19: under topological ordering with parallel off, a run stops at
    the first task that does not return 0: every task started before
    another task returned 0. *)
Theorem X19_sequential_run_stops_at_first_failure fuel l1 s l2 :
  topological_mode o = true →
  parallel o = false →
  spawns (events (action o e fuel initial).2) = (l1 ++ s :: l2)%list →
  Forall (λ s', exit_of e s' = 0%Z) l1.
Proof.
  intros Htopo Hpar.
  destruct (action_cases o e fuel)
    as [(_ & _ & ->)|[(_ & ->)|[(_ & ->)|[(err & _ & ->)|(ws & _ & _ & _ & ->)]]]];
    cbn [fst snd]; try (by destruct l1).
  destruct (rounds_stop_at_failure (length (seed ws [])) (seeded ws) Htopo Hpar)
    as (tail & Hlen & l0 & Heq & Hall); [done|constructor|].
  destruct (rounds o e (length (seed ws [])) (seeded ws)) as [[[]|err|] st'];
    cbn [fst snd] in *; rewrite Heq; intros Hsplit;
    by apply (all_but_last _ l0 tail l1 l2 s).
Qed.
End FirstFailure.

Lemma X19_sequential_run_stops_at_first_failure_witness :
  let e := Scenarios.env_of Scenarios.failing_project (Some Scenarios.A)
             ["run"] ["build"] None (λ _ _, Scenarios.exits 0) in
  Forall (λ s', exit_of e s' = 0%Z) [(1, Scenarios.A)].
Proof.
  intros e.
  apply (X19_sequential_run_stops_at_first_failure
           (Scenarios.options "run" false false true) e 2
           [(1, Scenarios.A)] (2, Scenarios.B) []).
  - reflexivity.
  - reflexivity.
  - vm_compute. reflexivity.
Defined.
